(** * A shallow embedding of the event emitters of safe-event-emitter-ts

    Two emitters live in the repository:

    - the core engine, class [EventEmitter] of [event-emitter.ts]
      ([on], [once], [limitedTimes], [off], [emit], [emitAsync], the flat
      registry and the wildcard tree), modelled in the first part of this
      file;
    - the Set-based emitter of [src/index.ts] ([addEventListener],
      [removeEventListener], [dispatch]), modelled in module [Dispatch].

    Conventions of the embedding.

    - A method of the class is a computation in the monad [M]: it takes the
      state of the instance (its fields and the objects they point to) and
      gives back a result and the new state.  A result is a value, a thrown
      exception (the state at the time of the throw is kept, as in
      JavaScript) or [OutOfFuel].
    - Handler functions are values with an identity.  A function of the
      user returns, throws or gives a promise, and does not call back into
      the emitter; that it was run is recorded in [calls].
    - The objects that the class uses as dictionaries ([eventHandlers], the
      nodes of the tree) are finite maps: a name is looked up among the keys
      that were stored.  An object literal also answers to the names that it
      inherits from [Object.prototype] ([inherited]), and a node keeps its
      handlers in the property [_listeners]; the maps stand for the objects
      on the names that are none of these ([plain_name]), on an emitter that
      was used with such names only ([reachable]).  The statements about
      registrations name these two conditions.  The Set-based emitter is
      small enough to be modelled on the inherited names as well
      ([Dispatch.lookup]).
    - Strings are sequences of bytes.  The code splits a name at a
      delimiter, and with the empty delimiter into its UTF-16 code units;
      the two agree on ASCII names ([ascii_only]).
    - [times] of [limitedTimes] and the handler counts are integers. *)

From Stdlib Require Import ZArith String Lia.
From stdpp Require Import base decidable option list gmap strings.

Set Warnings "-register-all".
Set Warnings "-clear-no-such-hyp".
Local Open Scope Z_scope.

(** ** JavaScript values *)

(** What a user function does when it is run. *)
Inductive behaviour :=
| Returns                 (* returns undefined *)
| Throws (msg : string)   (* throw new Error(msg) *)
| Rejects (msg : string). (* returns a promise that rejects with Error(msg) *)

(** How a promise handed back by a handler settles. *)
Inductive settlement :=
| Fulfils
| RejectsWith (msg : string)
| AfterTask (n : nat).    (* settles when the n-th scheduled task has run *)

Inductive jsval :=
| VUndefined
| VNull
| VBool (b : bool)
| VNum (z : Z)
| VStr (s : string)
| VError (msg : string)            (* an instance of Error *)
| VObject (id : nat)               (* any other non-callable object *)
| VPromise (p : settlement)
| VFun (f : fn)
with fn :=
(* a function written by the user of the library; [async] is
   [f.constructor.name === "AsyncFunction"], [listener] is the value of
   its property [listener] ([VUndefined] when it has none) *)
| Raw (id : nat) (async : bool) (listener : jsval) (b : behaviour)
(* the closure [wrappedHandler] created by [limitedTimes]; its variable
   [remainingCalls] lives in [counters] under [id] *)
| Limited (id : nat) (event : string) (handler : jsval)
(* the closure returned by [prepareHandler] when it wraps *)
| Prepared (id : nat) (useNextTick promisify : bool) (original : jsval).

Global Instance behaviour_eq_dec : EqDecision behaviour.
Proof. solve_decision. Defined.
Global Instance settlement_eq_dec : EqDecision settlement.
Proof. solve_decision. Defined.

Fixpoint jsval_eq_dec' (x y : jsval) {struct x} : {x = y} + {x <> y}
with fn_eq_dec' (x y : fn) {struct x} : {x = y} + {x <> y}.
Proof.
  - decide equality; try apply (@decide_rel _ _ (=) _); auto.
  - decide equality; try apply (@decide_rel _ _ (=) _); auto.
Defined.
Global Instance jsval_eq_dec : EqDecision jsval := jsval_eq_dec'.
Global Instance fn_eq_dec : EqDecision fn := fn_eq_dec'.

(** [!v] is [negb (truthy v)]. *)
Definition truthy (v : jsval) : bool :=
  match v with
  | VUndefined | VNull => false
  | VBool b => b
  | VNum z => negb (z =? 0)
  | VStr s => negb (bool_decide (s = EmptyString))
  | _ => true
  end.

(** [typeof v === "function"] *)
Definition is_function (v : jsval) : bool :=
  match v with VFun _ => true | _ => false end.

(** [v instanceof Error] *)
Definition is_error (v : jsval) : bool :=
  match v with VError _ => true | _ => false end.

(** [v.listener]: reading a property of [null] or [undefined] is a
    TypeError ([None]); the closures of the engine never get the property. *)
Definition get_listener (v : jsval) : option jsval :=
  match v with
  | VUndefined | VNull => None
  | VFun (Raw _ _ l _) => Some l
  | _ => Some VUndefined
  end.

(** [v.constructor.name === "AsyncFunction"], [None] for the TypeError. *)
Definition is_async_function (v : jsval) : option bool :=
  match v with
  | VUndefined | VNull => None
  | VFun (Raw _ a _ _) => Some a
  | _ => Some false
  end.

(** A [Set], kept as the list of its elements in insertion order. *)
Definition set_add `{EqDecision A} (s : list A) (x : A) : list A :=
  if bool_decide (x ∈ s) then s else s ++ [x].

Definition set_delete `{EqDecision A} (s : list A) (x : A) : list A :=
  filter (λ y, y ≠ x) s.

(** [[...new Set(l)]] *)
Definition dedup (l : list jsval) : list jsval := fold_left set_add l [].

(** ** Objects used as dictionaries *)

(** The registry [eventHandlers], the nodes of the wildcard tree and
    [listeners] of the Set-based emitter are object literals.  Reading
    [object[name]] gives the property that was stored under [name] or else
    the member of [Object.prototype] of that name, which every object
    literal inherits when nothing was added to [Object.prototype]. *)
Definition Object_prototype : list string :=
  ["constructor"; "__defineGetter__"; "__defineSetter__"; "hasOwnProperty";
   "__lookupGetter__"; "__lookupSetter__"; "isPrototypeOf"; "propertyIsEnumerable";
   "toString"; "valueOf"; "__proto__"; "toLocaleString"].

Definition inherited (name : string) : bool :=
  bool_decide (name ∈ Object_prototype).

(** ** The instance and its store *)

(** [EmitterSettings]: every field is optional. *)
Record EmitterSettings := {
  useWildcards : option bool;
  namespaceDelimiter : option string;
  emitNewListener : option bool;
  emitRemoveListener : option bool;
  maxHandlers : option Z;
  settings_detailedLeakWarnings : option bool;
  settings_suppressErrors : option bool;
}.

(** [HandlerOptions] *)
Record HandlerOptions := {
  runAsync : option bool;
  opt_useNextTick : option bool;
  opt_promisify : option bool;
  returnObject : option bool;
}.

Definition no_options : HandlerOptions :=
  {| runAsync := None; opt_useNextTick := None; opt_promisify := None;
     returnObject := None |}.

(** The value of [eventHandlers[name]] when the key is there: one handler,
    or a reference to an array of handlers in [arrays]. *)
Inductive entry :=
| Single (v : jsval)
| Arr (a : nat).

(** The property [_listeners] of a node of the tree. *)
Inductive slot :=
| NoListeners
| OneListener (v : jsval)
| ManyListeners (l : list jsval).

Inductive node := Node (listeners : slot) (children : gmap string node).

Definition empty_node : node := Node NoListeners ∅.

(** A line written by [console.warn]; the text is built from these. *)
Record warning := Warning {
  warn_event : string;
  warn_count : Z;
  warn_detailed : bool;
}.

(** The fields that the constructor sets and no method changes. *)
Record config := {
  supportsWildcards : bool;
  delimiter : string;
  notifyNewListener : bool;
  notifyRemoveListener : bool;
  detailedLeakWarnings : bool;
  suppressErrors : bool;
}.

Record state := State {
  cfg : config;
  eventHandlers : gmap string entry;
  internalHandlers : gmap string (list jsval);
  globalHandlers : list jsval;
  globalInternalHandlers : list jsval;
  maxHandlersCount : Z;
  wildcardTree : node;
  (* the objects the fields point to *)
  arrays : gmap nat (list jsval);
  counters : gmap nat Z;
  next_id : nat;
  (* what can be seen from outside *)
  calls : list (jsval * list jsval);      (* user functions run, in order *)
  warnings : list warning;                (* console.warn *)
  scheduled : list (jsval * list jsval);  (* setImmediate / nextTick queue *)
}.

Definition set_eventHandlers (f : gmap string entry → gmap string entry) (s : state) :=
  State (cfg s) (f (eventHandlers s)) (internalHandlers s) (globalHandlers s)
    (globalInternalHandlers s) (maxHandlersCount s) (wildcardTree s)
    (arrays s) (counters s) (next_id s) (calls s) (warnings s) (scheduled s).
Definition set_internalHandlers (f : gmap string (list jsval) → gmap string (list jsval)) (s : state) :=
  State (cfg s) (eventHandlers s) (f (internalHandlers s)) (globalHandlers s)
    (globalInternalHandlers s) (maxHandlersCount s) (wildcardTree s)
    (arrays s) (counters s) (next_id s) (calls s) (warnings s) (scheduled s).
Definition set_maxHandlersCount (z : Z) (s : state) :=
  State (cfg s) (eventHandlers s) (internalHandlers s) (globalHandlers s)
    (globalInternalHandlers s) z (wildcardTree s)
    (arrays s) (counters s) (next_id s) (calls s) (warnings s) (scheduled s).
Definition set_wildcardTree (f : node → node) (s : state) :=
  State (cfg s) (eventHandlers s) (internalHandlers s) (globalHandlers s)
    (globalInternalHandlers s) (maxHandlersCount s) (f (wildcardTree s))
    (arrays s) (counters s) (next_id s) (calls s) (warnings s) (scheduled s).
Definition set_arrays (f : gmap nat (list jsval) → gmap nat (list jsval)) (s : state) :=
  State (cfg s) (eventHandlers s) (internalHandlers s) (globalHandlers s)
    (globalInternalHandlers s) (maxHandlersCount s) (wildcardTree s)
    (f (arrays s)) (counters s) (next_id s) (calls s) (warnings s) (scheduled s).
Definition set_counters (f : gmap nat Z → gmap nat Z) (s : state) :=
  State (cfg s) (eventHandlers s) (internalHandlers s) (globalHandlers s)
    (globalInternalHandlers s) (maxHandlersCount s) (wildcardTree s)
    (arrays s) (f (counters s)) (next_id s) (calls s) (warnings s) (scheduled s).
Definition set_next_id (n : nat) (s : state) :=
  State (cfg s) (eventHandlers s) (internalHandlers s) (globalHandlers s)
    (globalInternalHandlers s) (maxHandlersCount s) (wildcardTree s)
    (arrays s) (counters s) n (calls s) (warnings s) (scheduled s).
Definition set_calls (f : list (jsval * list jsval) → list (jsval * list jsval)) (s : state) :=
  State (cfg s) (eventHandlers s) (internalHandlers s) (globalHandlers s)
    (globalInternalHandlers s) (maxHandlersCount s) (wildcardTree s)
    (arrays s) (counters s) (next_id s) (f (calls s)) (warnings s) (scheduled s).
Definition set_warnings (f : list warning → list warning) (s : state) :=
  State (cfg s) (eventHandlers s) (internalHandlers s) (globalHandlers s)
    (globalInternalHandlers s) (maxHandlersCount s) (wildcardTree s)
    (arrays s) (counters s) (next_id s) (calls s) (f (warnings s)) (scheduled s).
Definition set_scheduled (f : list (jsval * list jsval) → list (jsval * list jsval)) (s : state) :=
  State (cfg s) (eventHandlers s) (internalHandlers s) (globalHandlers s)
    (globalInternalHandlers s) (maxHandlersCount s) (wildcardTree s)
    (arrays s) (counters s) (next_id s) (calls s) (warnings s) (f (scheduled s)).

(** ** The monad of the methods *)

Inductive exn :=
| Thrown (v : jsval)          (* [throw v] *)
| TypeError (what : string).  (* raised by the language itself *)

Inductive result (A : Type) :=
| Ok (a : A)
| Throw (e : exn)
| OutOfFuel.
Arguments Ok {A} a.
Arguments Throw {A} e.
Arguments OutOfFuel {A}.

Definition M (A : Type) : Type := state → result A * state.

Definition ret {A} (a : A) : M A := λ s, (Ok a, s).
Definition throw {A} (e : exn) : M A := λ s, (Throw e, s).
Definition out_of_fuel {A} : M A := λ s, (OutOfFuel, s).
Definition bind {A B} (m : M A) (k : A → M B) : M B :=
  λ s, match m s with
       | (Ok a, s') => k a s'
       | (Throw e, s') => (Throw e, s')
       | (OutOfFuel, s') => (OutOfFuel, s')
       end.
Definition get : M state := λ s, (Ok s, s).
Definition modify (f : state → state) : M unit := λ s, (Ok tt, f s).

Notation "x <- m ;; k" := (bind m (λ x, k))
  (at level 100, m at next level, right associativity).
Notation "m ;;; k" := (bind m (λ _, k))
  (at level 100, right associativity).

Definition when (b : bool) (m : M unit) : M unit := if b then m else ret tt.

(** [l.forEach(f)] on an array that nothing changes meanwhile. *)
Fixpoint forEach {A} (f : A → M unit) (l : list A) : M unit :=
  match l with
  | [] => ret tt
  | x :: l' => f x ;;; forEach f l'
  end.

(** [l.map(f)] *)
Fixpoint mapM {A B} (f : A → M B) (l : list A) : M (list B) :=
  match l with
  | [] => ret []
  | x :: l' => y <- f x ;; ys <- mapM f l' ;; ret (y :: ys)
  end.

(** [arrays[a].forEach(f)] on a stored array: the length is read once, and
    at each index the element that is there at that moment is visited;
    an index that is no longer in the array is skipped. *)
Fixpoint forEach_from (n k : nat) (a : nat) (f : jsval → M unit) : M unit :=
  match n with
  | O => ret tt
  | S n' =>
      s <- get ;;
      match arrays s !! a ≫= (.!! k) with
      | Some v => f v ;;; forEach_from n' (S k) a f
      | None => forEach_from n' (S k) a f
      end
  end.

Definition forEach_stored (a : nat) (f : jsval → M unit) : M unit :=
  s <- get ;;
  forEach_from (length (default [] (arrays s !! a))) 0 a f.

(** [arrays[a].map(f)]; an index that is skipped leaves a hole, which reads
    as [undefined]. *)
Fixpoint map_from (n k : nat) (a : nat) (f : jsval → M jsval) : M (list jsval) :=
  match n with
  | O => ret []
  | S n' =>
      s <- get ;;
      y <- match arrays s !! a ≫= (.!! k) with
           | Some v => f v
           | None => ret VUndefined
           end ;;
      ys <- map_from n' (S k) a f ;;
      ret (y :: ys)
  end.

Definition map_stored (a : nat) (f : jsval → M jsval) : M (list jsval) :=
  s <- get ;;
  map_from (length (default [] (arrays s !! a))) 0 a f.

(** ** Strings *)

(** [s.split(d)] for a separator that is not empty. *)
Fixpoint split_go (d : string) (skip : nat) (acc : string) (s : string) : list string :=
  match s with
  | EmptyString => [acc]
  | String c s' =>
      match skip with
      | S k => split_go d k acc s'
      | O =>
          if String.prefix d s
          then acc :: split_go d (String.length d - 1) EmptyString s'
          else split_go d 0 (acc +:+ String c EmptyString) s'
      end
  end.

(** [s.split(d)] for the empty separator [d]: one string per character,
    which is one per UTF-16 code unit of the name when the name is made of
    ASCII characters ([ascii_only]). *)
Fixpoint split_chars (s : string) : list string :=
  match s with
  | EmptyString => []
  | String c s' => String c EmptyString :: split_chars s'
  end.

Definition split (s d : string) : list string :=
  if bool_decide (d = EmptyString) then split_chars s else split_go d 0 EmptyString s.

(** ** The wildcard tree *)

Definition node_listeners (t : node) : slot :=
  match t with Node l _ => l end.

(** [t[k]] for a segment [k] under which a node keeps a child of its own:
    not a name that the node inherits and not [_listeners]
    ([plain_segment]). *)
Definition child (t : node) (k : string) : option node :=
  match t with Node _ c => c !! k end.

Definition set_child (t : node) (k : string) (c : node) : node :=
  match t with Node l cs => Node l (<[k := c]> cs) end.

(** What [traverse] pushes for a node:
    [if (t._listeners) push(...(Array.isArray(l) ? l : [l]))]. *)
Definition slot_values (s : slot) : list jsval :=
  match s with
  | NoListeners => []
  | OneListener v => if truthy v then [v] else []
  | ManyListeners l => l
  end.

(** The three-way update of [_listeners] in [addToWildcardTree]. *)
Definition add_listener (h : jsval) (t : node) : node :=
  match t with
  | Node s cs =>
      Node (match s with
            | NoListeners => OneListener h
            | OneListener v => if truthy v then ManyListeners [v; h] else OneListener h
            | ManyListeners l => ManyListeners (l ++ [h])
            end) cs
  end.

(** The loop of [addToWildcardTree] over [eventParts.entries()], started at
    [currentLevel]; [deep] tells which of the two loops it is: the one for
    patterns with a wildcard also records the handler at the level where a
    segment [**] is met, before it goes down.  The segments are keys of
    their own in a node ([plain_segment]). *)
Fixpoint add_path (deep : bool) (parts : list string) (h : jsval) (currentLevel : node) : node :=
  match parts with
  | [] => currentLevel
  | part :: rest =>
      let here :=
        if deep && bool_decide (part = "**") then add_listener h currentLevel
        else currentLevel in
      let next := default empty_node (child here part) in
      let next :=
        match rest with
        | [] => add_listener h next      (* index === eventParts.length - 1 *)
        | _ => next
        end in
      set_child here part (add_path deep rest h next)
  end.

Definition includes (x : string) (l : list string) : bool := bool_decide (x ∈ l).

(** One level of [traverse] for a path [current :: rest]: [rec] is
    [traverse rest], [again dd] is the call [traverse(parts, tree["**"], true)]
    made when [isDeepWildcard] is false. *)
Definition traverse_level (rec : node → bool → list jsval) (current : string)
    (tree : node) (again : node → list jsval) : list jsval :=
  (match child tree current with Some c => rec c false | None => [] end) ++
  (match child tree "*" with Some c => rec c false | None => [] end) ++
  (match child tree "**" with
   | Some dd => slot_values (node_listeners dd) ++ rec dd true ++ again dd
   | None => []
   end).

(** [traverse(parts, tree, isDeepWildcard)]; the result is what the call
    appends to [foundHandlers].  The call with the same [parts] is only made
    from a level where [isDeepWildcard] is false and is itself made with
    [true], so it is written out once. *)
Fixpoint traverse (parts : list string) (tree : node) (isDeepWildcard : bool) : list jsval :=
  match parts with
  | [] => slot_values (node_listeners tree)
  | current :: rest =>
      traverse_level (traverse rest) current tree
        (λ dd, if isDeepWildcard then []
               else traverse_level (traverse rest) current dd (λ _, []))
  end.

(** [findWildcardHandlers] on an array of segments *)
Definition findWildcardHandlers_parts (eventParts : list string) (s : state) : list jsval :=
  dedup (traverse eventParts (wildcardTree s) false).

(** [findWildcardHandlers] on an event name *)
Definition findWildcardHandlers (event : string) (s : state) : list jsval :=
  findWildcardHandlers_parts (split event (delimiter (cfg s))) s.

Definition addToWildcardTree (event : string) (handler : jsval) : M unit :=
  s <- get ;;
  let eventParts := split event (delimiter (cfg s)) in
  modify (set_wildcardTree
            (add_path (includes "*" eventParts || includes "**" eventParts)
               eventParts handler)).

(** ** The engine *)

(** [new EventEmitter(settings)] *)
Definition new_EventEmitter (settings : EmitterSettings) : state :=
  {| cfg := {| supportsWildcards := default false (useWildcards settings);
               delimiter := default "." (namespaceDelimiter settings);
               notifyNewListener := default false (emitNewListener settings);
               notifyRemoveListener := default false (emitRemoveListener settings);
               detailedLeakWarnings := default false (settings_detailedLeakWarnings settings);
               suppressErrors := default false (settings_suppressErrors settings) |};
     eventHandlers := ∅;
     internalHandlers := ∅;
     globalHandlers := [];
     globalInternalHandlers := [];
     maxHandlersCount := default 10 (maxHandlers settings);
     wildcardTree := empty_node;
     arrays := ∅;
     counters := ∅;
     next_id := 0;
     calls := [];
     warnings := [];
     scheduled := [] |}.

Definition default_settings : EmitterSettings :=
  {| useWildcards := None; namespaceDelimiter := None; emitNewListener := None;
     emitRemoveListener := None; maxHandlers := None;
     settings_detailedLeakWarnings := None; settings_suppressErrors := None |}.

(** A new identity for a closure or an array. *)
Definition fresh : M nat :=
  s <- get ;; modify (set_next_id (S (next_id s))) ;;; ret (next_id s).

Definition prepareHandler (handler : jsval) (options : HandlerOptions) : M jsval :=
  let runAsync := default false (runAsync options) in
  let useNextTick := default false (opt_useNextTick options) in
  promisify <- match opt_promisify options with
               | Some b => ret b
               | None =>
                   match is_async_function handler with
                   | Some b => ret b
                   | None => throw (TypeError "cannot read property constructor")
                   end
               end ;;
  if negb runAsync && negb useNextTick && negb promisify then ret handler
  else id <- fresh ;; ret (VFun (Prepared id useNextTick promisify handler)).

Definition checkHandlerLimit (event : string) (count : Z) : M unit :=
  s <- get ;;
  when ((maxHandlersCount s >? 0) && (count >? maxHandlersCount s))
    (modify (set_warnings
               (λ w, w ++ [Warning event count (detailedLeakWarnings (cfg s))]))).

(** [handlers.findIndex((h) => h === handler || h.listener === handler)];
    the callback throws when it reads [listener] of [null] or [undefined]. *)
Fixpoint findIndex (handler : jsval) (k : nat) (handlers : list jsval) : M (option nat) :=
  match handlers with
  | [] => ret None
  | h :: rest =>
      if bool_decide (h = handler) then ret (Some k)
      else match get_listener h with
           | None => throw (TypeError "cannot read property listener")
           | Some l =>
               if bool_decide (l = handler) then ret (Some k)
               else findIndex handler (S k) rest
           end
  end.

(** [v._listeners] for a value found by [findWildcardHandlers]: as long as
    no segment is [_listeners] ([plain_segment]) the property is only ever
    set on the nodes of the tree, never on a handler, so the read gives
    [undefined] ([Some NoListeners]), or a TypeError ([None]). *)
Definition get__listeners (v : jsval) : option slot :=
  match v with
  | VUndefined | VNull => None
  | _ => Some NoListeners
  end.

Section Methods.
(** How the engine calls a stored value with arguments: [call], below,
    at the depth that is left. *)
Variable callf : jsval → list jsval → M jsval.

Definition emitInternal (event : string) (args : list jsval) : M unit :=
  s <- get ;;
  match internalHandlers s !! event with
  | Some handlers => forEach (λ handler, callf handler args ;;; ret tt) handlers
  | None => ret tt
  end.

Definition off_wildcard (event : string) (handler : jsval) : M unit :=
  s <- get ;;
  let eventParts := split event (delimiter (cfg s)) in
  let matches := findWildcardHandlers_parts eventParts s in
  forEach
    (λ m,
      match get__listeners m with
      | None => throw (TypeError "cannot read property _listeners")
      | Some (ManyListeners handlers) =>
          index <- findIndex handler 0 handlers ;;
          match index with
          | Some _ =>
              (* the array spliced here would belong to [m] *)
              when (notifyRemoveListener (cfg s))
                (emitInternal "removeListener" [VStr event; handler])
          | None => ret tt
          end
      | Some _ => ret tt                 (* not an array *)
      end)
    matches.

Definition off_flat (event : string) (handler : jsval) : M unit :=
  s <- get ;;
  match eventHandlers s !! event with
  | Some (Arr a) =>
      let handlers := default [] (arrays s !! a) in
      index <- findIndex handler 0 handlers ;;
      match index with
      | Some i =>
          let spliced := delete i handlers in
          modify (set_arrays <[a := spliced]>) ;;;
          when (bool_decide (spliced = []))
            (modify (set_eventHandlers (delete event))) ;;;
          when (notifyRemoveListener (cfg s))
            (emitInternal "removeListener" [VStr event; handler])
      | None => ret tt
      end
  | other =>
      let handlers := match other with Some (Single v) => v | _ => VUndefined end in
      if bool_decide (handlers = handler)
         || bool_decide (default VUndefined (get_listener handlers) = handler)
      then
        modify (set_eventHandlers (delete event)) ;;;
        when (notifyRemoveListener (cfg s))
          (emitInternal "removeListener" [VStr event; handler])
      else ret tt
  end.

Definition off (event : string) (handler : jsval) : M unit :=
  s <- get ;;
  if supportsWildcards (cfg s) then off_wildcard event handler
  else off_flat event handler.
End Methods.

Definition schedule (f : jsval) (args : list jsval) : M unit :=
  modify (set_scheduled (λ q, q ++ [(f, args)])).

(** [v(...args)] for a stored value [v].  [fuel] bounds the depth of the
    nested calls: a closure of [limitedTimes] calls [off], which may call
    the listeners of [removeListener], which may be such closures. *)
Fixpoint call (fuel : nat) (v : jsval) (args : list jsval) : M jsval :=
  match fuel with
  | O => out_of_fuel
  | S n =>
      match v with
      | VFun (Raw _ async _ b) =>
          modify (set_calls (λ c, c ++ [(v, args)])) ;;;
          match b with
          | Returns => ret (if async then VPromise Fulfils else VUndefined)
          | Throws msg =>
              if async then ret (VPromise (RejectsWith msg))
              else throw (Thrown (VError msg))
          | Rejects msg => ret (VPromise (RejectsWith msg))
          end
      | VFun (Limited id event handler) =>
          s <- get ;;
          let remainingCalls := default 0 (counters s !! id) - 1 in
          modify (set_counters <[id := remainingCalls]>) ;;;
          when (remainingCalls =? 0) (off (call n) event v) ;;;
          call n handler args
      | VFun (Prepared _ useNextTick promisify original) =>
          (* [process.nextTick] is a function on the runtimes the package
             is built for *)
          if promisify then
            if useNextTick then
              (* [Promise.resolve().then] called without its receiver *)
              throw (TypeError "Promise.prototype.then called on incompatible receiver")
            else
              s <- get ;;
              schedule original args ;;;
              ret (VPromise (AfterTask (length (scheduled s))))
          else
            schedule original args ;;; ret VUndefined
      | _ => throw (TypeError "not a function")
      end
  end.

(** What [on] returns. *)
Inductive on_result :=
| This
| Reference (event : string) (handler : jsval).

Definition is_internal_event (event : string) : bool :=
  bool_decide (event = "newListener") || bool_decide (event = "removeListener").

Definition on (fuel : nat) (event : string) (handler : jsval) (options : HandlerOptions)
  : M on_result :=
  let returnObject := default false (returnObject options) in
  preparedHandler <- prepareHandler handler options ;;
  if is_internal_event event then
    modify (set_internalHandlers
              (λ m, <[event := default [] (m !! event) ++ [handler]]> m)) ;;;
    ret This
  else
    s <- get ;;
    when (notifyNewListener (cfg s))
      (emitInternal (call fuel) "newListener" [VStr event; handler]) ;;;
    (if supportsWildcards (cfg s) then addToWildcardTree event preparedHandler
     else
       s <- get ;;
       match eventHandlers s !! event with
       | Some (Arr a) =>
           let currentHandlers := default [] (arrays s !! a) ++ [preparedHandler] in
           modify (set_arrays <[a := currentHandlers]>) ;;;
           checkHandlerLimit event (Z.of_nat (length currentHandlers))
       | Some (Single currentHandlers) =>
           if truthy currentHandlers then
             a <- fresh ;;
             modify (set_arrays <[a := [currentHandlers; preparedHandler]]>) ;;;
             modify (set_eventHandlers <[event := Arr a]>) ;;;
             checkHandlerLimit event 2
           else modify (set_eventHandlers <[event := Single preparedHandler]>)
       | None => modify (set_eventHandlers <[event := Single preparedHandler]>)
       end) ;;;
    ret (if returnObject then Reference event handler else This).

Definition limitedTimes (fuel : nat) (event : string) (times : Z) (handler : jsval)
    (options : HandlerOptions) : M on_result :=
  if negb (is_function handler) then throw (Thrown (VError "Handler must be a function"))
  else
    id <- fresh ;;
    modify (set_counters <[id := times]>) ;;;
    on fuel event (VFun (Limited id event handler)) options.

Definition once (fuel : nat) (event : string) (handler : jsval) (options : HandlerOptions)
  : M on_result :=
  limitedTimes fuel event 1 handler options.

(** The value of the variable [handlers] of [emit] and [emitAsync]. *)
Inductive resolved :=
| RUndefined
| RValue (v : jsval)         (* what the registry holds for the event *)
| RStored (a : nat)          (* the array the registry holds *)
| RFound (l : list jsval).   (* the array made by findWildcardHandlers *)

(** [this.eventHandlers[event]] is read among the keys that were stored:
    the value of the code for a name that the registry does not inherit
    ([plain_name]). *)
Definition resolve (event : string) (s : state) : resolved :=
  if supportsWildcards (cfg s) then RFound (findWildcardHandlers event s)
  else match eventHandlers s !! event with
       | None => RUndefined
       | Some (Single v) => RValue v
       | Some (Arr a) => RStored a
       end.

(** [!handlers] *)
Definition resolved_falsy (r : resolved) : bool :=
  match r with
  | RUndefined => true
  | RValue v => negb (truthy v)
  | _ => false
  end.

(** What is thrown for an [error] event without handlers. *)
Definition uncaught (args : list jsval) : exn :=
  match args with
  | a0 :: _ => if is_error a0 then Thrown a0
               else Thrown (VError "Uncaught, unspecified 'error' event.")
  | [] => Thrown (VError "Uncaught, unspecified 'error' event.")
  end.

(** [emit]; the first line of the method tests two fields that are always
    objects, so it never returns there. *)
Definition emit (fuel : nat) (event : string) (args : list jsval) : M bool :=
  s <- get ;;
  let handlers := resolve event s in
  when (negb (bool_decide (globalInternalHandlers s = [])))
    (forEach (λ handler, call fuel handler (VStr event :: args) ;;; ret tt)
       (globalInternalHandlers s)) ;;;
  when (negb (bool_decide (globalHandlers s = [])))
    (forEach (λ handler, call fuel handler args ;;; ret tt) (globalHandlers s)) ;;;
  if resolved_falsy handlers then
    if bool_decide (event = "error") && negb (suppressErrors (cfg s))
    then throw (uncaught args)
    else ret false
  else
    match handlers with
    | RValue (VFun f) => call fuel (VFun f) args ;;; ret true
    | RStored a =>
        forEach_stored a (λ handler, call fuel handler args ;;; ret tt) ;;; ret true
    | RFound l =>
        forEach (λ handler, call fuel handler args ;;; ret tt) l ;;; ret true
    | _ => throw (TypeError "handlers.forEach is not a function")
    end.

(** The promise an [async] method hands back. *)
Inductive promise :=
| Rejected (e : exn)             (* Promise.reject(e), or the body threw e *)
| All (l : list jsval).          (* Promise.all(l) *)

Definition emitAsync_body (fuel : nat) (event : string) (args : list jsval) : M promise :=
  s <- get ;;
  let handlers := resolve event s in
  globalPromises <- mapM (λ handler, call fuel handler (VStr event :: args))
                      (globalInternalHandlers s) ;;
  if resolved_falsy handlers then
    if bool_decide (event = "error") && negb (suppressErrors (cfg s))
    then ret (Rejected (uncaught args))
    else ret (All globalPromises)
  else
    handlerPromises <-
      match handlers with
      | RStored a => map_stored a (λ handler, call fuel handler args)
      | RFound l => mapM (λ handler, call fuel handler args) l
      | RValue v => mapM (λ handler, call fuel handler args) [v]
      | RUndefined => ret []
      end ;;
    ret (All (globalPromises ++ handlerPromises)).

Definition emitAsync (fuel : nat) (event : string) (args : list jsval) : M promise :=
  λ s, match emitAsync_body fuel event args s with
       | (Throw e, s') => (Ok (Rejected e), s')
       | r => r
       end.

(** The public [off]. *)
Definition off_ (fuel : nat) (event : string) (handler : jsval) : M unit :=
  off (call fuel) event handler.

Definition setMaxHandlers (count : Z) : M unit := modify (set_maxHandlersCount count).
Definition getMaxHandlers : M Z := s <- get ;; ret (maxHandlersCount s).

(** ** The Set-based emitter of [src/index.ts] *)

Module Dispatch.

(** A listener is a function of the user: an identity and what it does
    when called ([Rejects] for an [async] listener that fails). *)
Record listener := Listener {
  listener_id : nat;
  listener_behaviour : behaviour;
}.

Global Instance listener_eq_dec : EqDecision listener.
Proof. solve_decision. Defined.

Record emitter := Emitter {
  listeners : gmap string (list listener);        (* the own keys: type ↦ Set *)
  called : list (listener * string * jsval);      (* listener(type, payload) *)
  errors : list string;                           (* console.error *)
}.

Definition new_EventEmitter : emitter :=
  {| listeners := ∅; called := []; errors := [] |}.

(** [this.listeners[type]]: the Set stored under the key, or else the
    member of [Object.prototype] of that name (a function or, for
    [__proto__], an object: truthy, with no method [add] or [delete], and
    not iterable), or else [undefined]. *)
Inductive looked_up :=
| Stored (set : list listener)
| Inherited
| Undefined.

Definition lookup (e : emitter) (type : string) : looked_up :=
  match listeners e !! type with
  | Some set => Stored set
  | None => if inherited type then Inherited else Undefined
  end.

Definition addEventListener (type : string) (l : listener) (e : emitter)
  : result unit * emitter :=
  match lookup e type with
  | Stored set =>
      (Ok tt, Emitter (<[type := set_add set l]> (listeners e)) (called e) (errors e))
  | Undefined =>                                   (* a new Set *)
      (Ok tt, Emitter (<[type := set_add [] l]> (listeners e)) (called e) (errors e))
  | Inherited => (Throw (TypeError "this.listeners[type].add is not a function"), e)
  end.

Definition removeEventListener (type : string) (l : listener) (e : emitter)
  : result unit * emitter :=
  match lookup e type with
  | Stored set =>
      (Ok tt, Emitter (<[type := set_delete set l]> (listeners e)) (called e) (errors e))
  | Undefined => (Ok tt, e)
  | Inherited => (Throw (TypeError "this.listeners[type]?.delete is not a function"), e)
  end.

(** The body of the loop of [dispatch]: the call in its [try], and the
    [catch] that logs. *)
Definition invoke (type : string) (payload : jsval) (e : emitter) (l : listener) : emitter :=
  let e' := Emitter (listeners e) (called e ++ [(l, type, payload)]) (errors e) in
  match listener_behaviour l with
  | Throws msg => Emitter (listeners e') (called e') (errors e' ++ [msg])
  | _ => e'
  end.

(** The loop [for (const listener of listeners)] is outside the [try]. *)
Definition dispatch (type : string) (payload : jsval) (e : emitter)
  : result unit * emitter :=
  match lookup e type with
  | Stored set => (Ok tt, fold_left (invoke type payload) set e)
  | Undefined => (Ok tt, e)                        (* a new Set: no listener *)
  | Inherited => (Throw (TypeError "listeners is not iterable"), e)
  end.

Definition propagate (type : string) (payload : jsval) (e : emitter)
  : result unit * emitter :=
  dispatch type payload e.

(** The operations of the class, for sequences of them. *)
Inductive op :=
| Add (type : string) (l : listener)
| Remove (type : string) (l : listener)
| Fire (type : string) (payload : jsval).

(** The emitter after an operation, whether it returned or threw. *)
Definition step (e : emitter) (o : op) : emitter :=
  match o with
  | Add t l => snd (addEventListener t l e)
  | Remove t l => snd (removeEventListener t l e)
  | Fire t p => snd (dispatch t p e)
  end.

Definition run (ops : list op) : emitter := fold_left step ops new_EventEmitter.

(** The calls of [l] for [type] in a log. *)
Definition invocations (l : listener) (type : string)
    (log : list (listener * string * jsval)) : nat :=
  length (filter (λ c, c.1.1 = l ∧ c.1.2 = type) log).

(** The Set of a type, empty when the type has none. *)
Definition set_of (e : emitter) (type : string) : list listener :=
  default [] (listeners e !! type).

(** Every Set of the emitter holds a listener at most once. *)
Definition sets_ok (e : emitter) : Prop :=
  ∀ type set, listeners e !! type = Some set → NoDup set.

End Dispatch.

(** ** Notions used in the statements *)

(** A function of the user that is called at once (not [async]). *)
Definition is_sync_user (v : jsval) : bool :=
  match v with VFun (Raw _ false _ _) => true | _ => false end.

(** Any function of the user. *)
Definition is_user (v : jsval) : bool :=
  match v with VFun (Raw _ _ _ _) => true | _ => false end.

(** The message of the error that calling [v] throws, if it throws. *)
Definition throws_of (v : jsval) : option string :=
  match v with VFun (Raw _ false _ (Throws msg)) => Some msg | _ => None end.

(** The handlers that a loop over [hs] gets to call: all of them up to and
    including the first that throws. *)
Fixpoint invoked_prefix (hs : list jsval) : list jsval :=
  match hs with
  | [] => []
  | h :: rest => h :: match throws_of h with Some _ => [] | None => invoked_prefix rest end
  end.

Fixpoint first_throw (hs : list jsval) : option string :=
  match hs with
  | [] => None
  | h :: rest => match throws_of h with Some m => Some m | None => first_throw rest end
  end.

(** The handlers stored for an event in the flat registry, as a list:
    none, one or many (the own key of the event). *)
Definition handlers_of (s : state) (event : string) : list jsval :=
  match eventHandlers s !! event with
  | None => []
  | Some (Single v) => [v]
  | Some (Arr a) => default [] (arrays s !! a)
  end.

(** How many times [h] was run according to a log. *)
Definition invocations (h : jsval) (log : list (jsval * list jsval)) : nat :=
  length (filter (λ c, c.1 = h) log).

(** [on] for each handler of a list, in order, with the default options. *)
Definition on_each (fuel : nat) (event : string) (hs : list jsval) (s : state) : state :=
  fold_left (λ s h, snd (on fuel event h no_options s)) hs s.

(** [n] successive [emit(event, ...args)]; what each returned is dropped. *)
Fixpoint emit_times (fuel : nat) (n : nat) (event : string) (args : list jsval)
    (s : state) : state :=
  match n with
  | O => s
  | S n' => emit_times fuel n' event args (snd (emit fuel event args s))
  end.

(** The operations of the class, for sequences of them. *)
Inductive op :=
| On (event : string) (handler : jsval) (options : HandlerOptions)
| Once (event : string) (handler : jsval) (options : HandlerOptions)
| LimitedTimes (event : string) (times : Z) (handler : jsval) (options : HandlerOptions)
| Off (event : string) (handler : jsval)
| Emit (event : string) (args : list jsval)
| EmitAsync (event : string) (args : list jsval)
| SetMaxHandlers (count : Z).

Definition step (fuel : nat) (s : state) (o : op) : state :=
  match o with
  | On e h o => snd (on fuel e h o s)
  | Once e h o => snd (once fuel e h o s)
  | LimitedTimes e t h o => snd (limitedTimes fuel e t h o s)
  | Off e h => snd (off_ fuel e h s)
  | Emit e a => snd (emit fuel e a s)
  | EmitAsync e a => snd (emitAsync fuel e a s)
  | SetMaxHandlers c => snd (setMaxHandlers c s)
  end.

Definition run_ops (fuel : nat) (ops : list op) (s : state) : state :=
  fold_left (step fuel) ops s.

(** *** Where the embedding stands for the code

    The finite maps of the state hold the keys that were stored.  They
    stand for the objects of the code as long as no name that is used as a
    key is a name that an object inherits, and no segment of a name is
    [_listeners], the property in which a node of the tree keeps its
    handlers.  The statements about [on], [emit] and the tree are for such
    names, on an emitter that was only used with such names. *)

(** A segment under which a node of the tree keeps a child of its own. *)
Definition plain_segment (p : string) : bool :=
  negb (inherited p) && negb (bool_decide (p = "_listeners")).

(** The characters of the string are ASCII characters. *)
Definition ascii_only (s : string) : bool :=
  forallb (λ c, (Ascii.nat_of_ascii c <? 128)%nat) (list_ascii_of_string s).

(** An event name that is a key of its own in the flat registry; with
    wildcards, a name whose segments are.  With the empty delimiter a name
    is split into its UTF-16 code units, which are the characters of the
    string when they are ASCII characters. *)
Definition plain_name (c : config) (event : string) : bool :=
  if supportsWildcards c
  then forallb plain_segment (split event (delimiter c))
       && (negb (bool_decide (delimiter c = EmptyString)) || ascii_only event)
  else negb (inherited event).

Definition plain_op (c : config) (o : op) : bool :=
  match o with
  | On e _ _ | Once e _ _ | LimitedTimes e _ _ _ | Off e _ | Emit e _ | EmitAsync e _ =>
      plain_name c e
  | SetMaxHandlers _ => true
  end.

(** An emitter reached from a new one by operations on such names. *)
Inductive reachable : state → Prop :=
| reachable_new settings : reachable (new_EventEmitter settings)
| reachable_step fuel s o :
    reachable s → plain_op (cfg s) o = true → reachable (step fuel s o).

(** The registry is well formed: an array it points to is there and not
    empty, was allocated, and belongs to one event only. *)
Definition registry_ok (s : state) : Prop :=
  ∀ event a, eventHandlers s !! event = Some (Arr a) →
    (∃ l, arrays s !! a = Some l ∧ l ≠ []) ∧
    (a < next_id s)%nat ∧
    (∀ event', eventHandlers s !! event' = Some (Arr a) → event' = event).

(** [h] is what [off(event, target)] looks for:
    [h === target || h?.listener === target]. *)
Definition matches_target (target h : jsval) : Prop :=
  h = target ∨ default VUndefined (get_listener h) = target.

(** The state after the user functions of [new] were run. *)
Definition log (new : list (jsval * list jsval)) (s : state) : state :=
  set_calls (λ c, c ++ new) s.

(** What calling a function of the user gives. *)
Definition user_result (v : jsval) : result jsval :=
  match v with
  | VFun (Raw _ async _ b) =>
      match b with
      | Returns => Ok (if async then VPromise Fulfils else VUndefined)
      | Throws msg =>
          if async then Ok (VPromise (RejectsWith msg)) else Throw (Thrown (VError msg))
      | Rejects msg => Ok (VPromise (RejectsWith msg))
      end
  | _ => Throw (TypeError "not a function")
  end.

(** The result of [m ;;; ret true] from the result of [m]. *)
Definition then_true {A} (r : result A) : result bool :=
  match r with Ok _ => Ok true | Throw e => Throw e | OutOfFuel => OutOfFuel end.

(** [settings] with [useWildcards: true], and with [useWildcards: false]. *)
Definition with_wildcards (b : bool) (settings : EmitterSettings) : EmitterSettings :=
  {| useWildcards := Some b;
     namespaceDelimiter := namespaceDelimiter settings;
     emitNewListener := emitNewListener settings;
     emitRemoveListener := emitRemoveListener settings;
     maxHandlers := maxHandlers settings;
     settings_detailedLeakWarnings := settings_detailedLeakWarnings settings;
     settings_suppressErrors := settings_suppressErrors settings |}.

(** Every handler stored in the tree [t] is [w]. *)
Inductive only (w : jsval) : node → Prop :=
| only_node s cs :
    Forall (λ v, v = w) (slot_values s) →
    (∀ k c, cs !! k = Some c → only w c) →
    only w (Node s cs).


(** What [on] leaves as it was besides the registry. *)
Definition same_but_registry (s s' : state) : Prop :=
  cfg s' = cfg s ∧ internalHandlers s' = internalHandlers s ∧
  globalHandlers s' = globalHandlers s ∧
  globalInternalHandlers s' = globalInternalHandlers s ∧
  wildcardTree s' = wildcardTree s ∧ counters s' = counters s ∧
  calls s' = calls s ∧ scheduled s' = scheduled s.

(** The registry and its arrays are the same in both states. *)
Definition registry_same (s s' : state) : Prop :=
  eventHandlers s' = eventHandlers s ∧ arrays s' = arrays s.

(** [w] is the one handler that [emit(E)] finds. *)
Definition registered (E : string) (w : jsval) (s : state) : Prop :=
  globalHandlers s = [] ∧ globalInternalHandlers s = [] ∧
  if supportsWildcards (cfg s) then findWildcardHandlers E s = [w]
  else eventHandlers s !! E = Some (Single w).


(** A closure of [limitedTimes]. *)
Definition is_limited (v : jsval) : bool :=
  match v with VFun (Limited _ _ _) => true | _ => false end.

(** No function of the log throws when called. *)
Definition quiet (new : list (jsval * list jsval)) : Prop :=
  Forall (λ c, throws_of c.1 = None) new.

(** A log and the result it came with agree: a function that throws is the
    last of the log, and what it throws is the result. *)
Definition log_ok {A} (new : list (jsval * list jsval)) (r : result A) : Prop :=
  match r with
  | Throw e =>
      ∃ pre, quiet pre ∧
        (new = pre ∨
         ∃ c m, new = pre ++ [c] ∧ throws_of c.1 = Some m ∧ e = Thrown (VError m))
  | _ => quiet new
  end.

(** [m] catches nothing: what a function it runs throws is its result. *)
Definition propagates {A} (m : M A) : Prop :=
  ∀ s, ∃ new, calls (snd (m s)) = calls s ++ new ∧ log_ok new (fst (m s)).

(** [m] keeps the registry well formed. *)
Definition preserves {A} (m : M A) : Prop :=
  ∀ s, registry_ok s → registry_ok (snd (m s)).

(** [m] leaves the tree and the settings as they are. *)
Definition keeps_tree {A} (m : M A) : Prop :=
  ∀ s, wildcardTree (snd (m s)) = wildcardTree s ∧ cfg (snd (m s)) = cfg s.

(** *** The claims as the specification words them *)

(** The calls made since the state [s], in a later state [s']. *)
Definition calls_since (s s' : state) : list (jsval * list jsval) :=
  drop (length (calls s)) (calls s').




Definition wildcard_settings : EmitterSettings := with_wildcards true default_settings.

(** [emit(event)] on the emitter [s] runs [h] [n] times. *)
Definition runs (s : state) (event : string) (h : jsval) (n : nat) : Prop :=
  ∀ fuel args,
    invocations h (calls_since s (snd (emit (S (S fuel)) event args s))) = n.


(** ... does not run [h]. *)
Definition pattern_rejects (s0 : state) (pattern event : string) (h : jsval) : Prop :=
  ∀ fuel, runs (snd (on (S fuel) pattern h no_options s0)) event h 0.




(** *** Values for the examples *)

Definition handler1 : jsval := VFun (Raw 1 false VUndefined Returns).
Definition handler2 : jsval := VFun (Raw 2 false VUndefined Returns).
Definition thrower1 : jsval := VFun (Raw 1 false VUndefined (Throws "boom")).
Definition async1 : jsval := VFun (Raw 1 true VUndefined Returns).
Definition listener1 : Dispatch.listener := Dispatch.Listener 1 Returns.
Definition listener2 : Dispatch.listener := Dispatch.Listener 2 (Throws "boom").

(** ** Notions used for the further properties *)

(** [m] leaves the part [f] of the state as it is. *)
Definition keeps {X A} (f : state → X) (m : M A) : Prop :=
  ∀ s, f (snd (m s)) = f s.

(** [f] does not look at what running the handlers writes: the counters of
    the closures, the log, the queue of tasks, the registry and its
    arrays. *)
Definition beside_handlers {X} (f : state → X) : Prop :=
  (∀ g s, f (set_counters g s) = f s) ∧ (∀ g s, f (set_calls g s) = f s) ∧
  (∀ g s, f (set_scheduled g s) = f s) ∧ (∀ g s, f (set_arrays g s) = f s) ∧
  (∀ g s, f (set_eventHandlers g s) = f s).

(** ... nor at what a registration writes besides. *)
Definition beside_registration {X} (f : state → X) : Prop :=
  beside_handlers f ∧
  (∀ n s, f (set_next_id n s) = f s) ∧ (∀ g s, f (set_internalHandlers g s) = f s) ∧
  (∀ g s, f (set_wildcardTree g s) = f s) ∧ (∀ g s, f (set_warnings g s) = f s).

(** The fields that are set when the emitter is made. *)
Definition fixed_fields (s : state) : config * list jsval * list jsval :=
  (cfg s, globalHandlers s, globalInternalHandlers s).

(** The count given by the last [setMaxHandlers] of a sequence, [z] when it
    has none. *)
Definition last_setMaxHandlers (ops : list op) (z : Z) : Z :=
  fold_left (λ z o, match o with SetMaxHandlers count => count | _ => z end) ops z.

(** The lines that [checkHandlerLimit] prints while handlers number
    [n0 + 1] to [n0 + k] are added to an event: one for every count that is
    checked (from the second handler on) and is above a positive limit. *)
Definition leak_warnings (event : string) (limit : Z) (detailed : bool) (n0 k : nat)
  : list warning :=
  map (λ c, Warning event (Z.of_nat c) detailed)
    (filter (λ c, (2 ≤ c)%nat ∧ 0 < limit ∧ limit < Z.of_nat c) (seq (S n0) k)).

(** The listeners that [on(event, ...)] tells of the registration, and
    those that [off] tells of a removal. *)
Definition newListener_listeners (event : string) (s : state) : list jsval :=
  if notifyNewListener (cfg s) && negb (is_internal_event event)
  then default [] (internalHandlers s !! "newListener") else [].

Definition removeListener_listeners (s : state) : list jsval :=
  if notifyRemoveListener (cfg s)
  then default [] (internalHandlers s !! "removeListener") else [].

(** The result of a loop over [ls] that calls each of them. *)
Definition loop_result (ls : list jsval) : result unit :=
  match first_throw ls with
  | Some m => Throw (Thrown (VError m))
  | None => Ok tt
  end.

(** [r.remove()] for the value [r] that [on] returned: the method of the
    handler reference calls [off(event, handler)]; the emitter itself has no
    such method. *)
Definition remove (fuel : nat) (r : on_result) : M unit :=
  match r with
  | Reference event handler => off_ fuel event handler
  | This => throw (TypeError "remove is not a function")
  end.

(** [options] with [returnObject: true] and nothing else. *)
Definition return_object : HandlerOptions :=
  {| runAsync := None; opt_useNextTick := None; opt_promisify := None;
     returnObject := Some true |}.

(** The handlers that [emit] and [emitAsync] have for an event, as a list. *)
Definition found_handlers (event : string) (s : state) : list jsval :=
  match resolve event s with
  | RUndefined => []
  | RValue v => [v]
  | RStored a => default [] (arrays s !! a)
  | RFound l => l
  end.

(** What a function of the user returns when it does not throw. *)
Definition returned (v : jsval) : jsval :=
  match user_result v with Ok r => r | _ => VUndefined end.

(** The value of [promisify] in [prepareHandler] for a handler that is a
    function: the option, or whether the function is [async]. *)
Definition promisify_of (options : HandlerOptions) (handler : jsval) : bool :=
  default (default false (is_async_function handler)) (opt_promisify options).

(** [prepareHandler] wraps the handler. *)
Definition wraps (options : HandlerOptions) (handler : jsval) : bool :=
  default false (runAsync options) || default false (opt_useNextTick options)
  || promisify_of options handler.

(** The task [original(...args)] at the end of the queue. *)
Definition queued (original : jsval) (args : list jsval) (s : state) : state :=
  set_scheduled (λ q, q ++ [(original, args)]) s.

(** A segment of a pattern against a segment of an event name: the same
    segment, or the wildcard [*]. *)
Definition segment_match (p e : string) : bool :=
  bool_decide (p = e) || bool_decide (p = "*").

(** Segment by segment, with as many segments on both sides. *)
Fixpoint star_match (pattern event : list string) : bool :=
  match pattern, event with
  | [], [] => true
  | p :: ps, e :: es => segment_match p e && star_match ps es
  | _, _ => false
  end.

(** Segment by segment, for the first segments of the event. *)
Fixpoint prefix_match (pattern event : list string) : bool :=
  match pattern, event with
  | [], _ => true
  | p :: ps, e :: es => segment_match p e && prefix_match ps es
  | _ :: _, [] => false
  end.

(** The tree of an emitter on which only [handler] was registered, for the
    pattern with the segments [parts]. *)
Definition pattern_tree (parts : list string) (handler : jsval) : node :=
  add_path (includes "*" parts || includes "**" parts) parts handler empty_node.


(** The message that [dispatch] logs for a listener: the one of the error
    that the listener throws. *)
Definition logged (l : Dispatch.listener) : option string :=
  match Dispatch.listener_behaviour l with Throws msg => Some msg | _ => None end.

(** Whether the last of the operations on [type] and [l] in a sequence is
    an addition. *)
Definition added_last (type : string) (l : Dispatch.listener) (ops : list Dispatch.op)
  : bool :=
  fold_left
    (λ b o, match o with
            | Dispatch.Add t l' => if decide (t = type ∧ l' = l) then true else b
            | Dispatch.Remove t l' => if decide (t = type ∧ l' = l) then false else b
            | Dispatch.Fire _ _ => b
            end) ops false.

(** [once(event, h)] for each handler of a list, in order. *)
Definition once_each (fuel : nat) (event : string) (hs : list jsval) (s : state) : state :=
  fold_left (λ s h, snd (once fuel event h no_options s)) hs s.

(** Every other element of a list, from the first one on, and from the
    second one on. *)
Fixpoint evens {A} (l : list A) : list A :=
  match l with
  | [] => []
  | x :: l' => x :: match l' with [] => [] | _ :: l'' => evens l'' end
  end.

Definition odds {A} (l : list A) : list A := evens (tail l).

(** The closures of [limitedTimes] for an event, from their identities and
    the handlers they wrap. *)
Definition closures (event : string) (ps : list (nat * jsval)) : list jsval :=
  map (λ p, VFun (Limited p.1 event p.2)) ps.

(** The handler that a stored value stands for. *)
Definition wrapped (v : jsval) : jsval :=
  match v with VFun (Limited _ _ h) => h | _ => v end.

(** A segment that is not a wildcard. *)
Definition literal (p : string) : Prop := p ≠ "*" ∧ p ≠ "**".

(** The tree that holds [c] under the path [parts] and nothing else. *)
Fixpoint below (parts : list string) (c : node) : node :=
  match parts with
  | [] => c
  | p :: rest => set_child empty_node p (below rest c)
  end.

(** Settings with the notifications of [newListener] and [removeListener]. *)
Definition notifying_settings : EmitterSettings :=
  {| useWildcards := None; namespaceDelimiter := None; emitNewListener := Some true;
     emitRemoveListener := Some true; maxHandlers := None;
     settings_detailedLeakWarnings := None; settings_suppressErrors := None |}.

Definition handler3 : jsval := VFun (Raw 3 false VUndefined Returns).

(** ** Basic facts *)

Lemma bind_ret_l {A B} (a : A) (k : A → M B) s : bind (ret a) k s = k a s.
Proof. reflexivity. Qed.

Lemma bind_get {B} (k : state → M B) s : bind get k s = k s s.
Proof. reflexivity. Qed.

Lemma bind_modify {B} f (k : unit → M B) s : bind (modify f) k s = k tt (f s).
Proof. reflexivity. Qed.

Lemma bind_throw {A B} e (k : A → M B) s : bind (throw e) k s = (Throw e, s).
Proof. reflexivity. Qed.

Lemma bind_out_of_fuel {A B} (k : A → M B) s : bind out_of_fuel k s = (OutOfFuel, s).
Proof. reflexivity. Qed.

Lemma bind_bind {A B C} (m : M A) (k1 : A → M B) (k2 : B → M C) s :
  bind (bind m k1) k2 s = bind m (λ x, bind (k1 x) k2) s.
Proof. unfold bind. destruct (m s) as [[]]; reflexivity. Qed.

Lemma bind_run {A B} (m : M A) (k : A → M B) s r s' :
  m s = (r, s') →
  bind m k s = match r with
               | Ok a => k a s'
               | Throw e => (Throw e, s')
               | OutOfFuel => (OutOfFuel, s')
               end.
Proof. unfold bind. intros ->. destruct r; reflexivity. Qed.

Ltac msimpl1 :=
  repeat first [ rewrite bind_bind | rewrite bind_ret_l | rewrite bind_get
               | rewrite bind_modify | rewrite bind_throw | rewrite bind_out_of_fuel ].

Ltac msimpl :=
  repeat (progress (msimpl1;
    cbn [cfg eventHandlers internalHandlers globalHandlers globalInternalHandlers
         maxHandlersCount wildcardTree arrays counters next_id calls warnings scheduled
         set_eventHandlers set_internalHandlers set_maxHandlersCount set_wildcardTree
         set_arrays set_counters set_next_id set_calls set_warnings set_scheduled
         log when negb orb andb])).

(** Run the first computation of a sequence with a lemma that gives its
    result. *)
Ltac mrun lem := erewrite bind_run; [cbv beta iota | apply lem].

Lemma log_nil s : log [] s = s.
Proof. destruct s; unfold log, set_calls; simpl. by rewrite app_nil_r. Qed.

Lemma log_log a b s : log b (log a s) = log (a ++ b) s.
Proof. destruct s; unfold log, set_calls; simpl. by rewrite app_assoc. Qed.

Lemma call_user n v args s :
  is_user v = true →
  call (S n) v args s = (user_result v, log [(v, args)] s).
Proof.
  destruct v as [| | | | | | | |[id a tag b| |]]; try discriminate. intros _.
  destruct b, a; reflexivity.
Qed.

Lemma call_limited n id E H args :
  call (S n) (VFun (Limited id E H)) args =
    (s0 <- get ;;
     let remainingCalls := default 0 (counters s0 !! id) - 1 in
     modify (set_counters <[id := remainingCalls]>) ;;;
     when (remainingCalls =? 0) (off (call n) E (VFun (Limited id E H))) ;;;
     call n H args).
Proof. reflexivity. Qed.

Lemma is_sync_user_is_user v : is_sync_user v = true → is_user v = true.
Proof. by destruct v as [| | | | | | | |[id [] tag b| |]]. Qed.

Lemma sync_user_result v :
  is_sync_user v = true →
  user_result v = match throws_of v with
                  | Some m => Throw (Thrown (VError m))
                  | None => user_result v
                  end
  ∧ (throws_of v = None → ∃ r, user_result v = Ok r).
Proof.
  destruct v as [| | | | | | | |[id [] tag b| |]]; try discriminate. intros _.
  destruct b; simpl; (split; [done|intros; try discriminate; eauto]).
Qed.

Lemma emitInternal_none callf b event args s :
  internalHandlers s !! event = None →
  when b (emitInternal callf event args) s = (Ok tt, s).
Proof.
  intros H1. destruct b; [|done]. cbn [when]. unfold emitInternal. msimpl.
  by rewrite H1.
Qed.

(** A loop over functions of the user runs them in order and stops at the
    first that throws. *)
Lemma forEach_sync_users n hs args s :
  Forall (λ h, is_sync_user h = true) hs →
  forEach (λ h, call (S n) h args ;;; ret tt) hs s =
    (match first_throw hs with
     | Some m => Throw (Thrown (VError m))
     | None => Ok tt
     end,
     log (map (λ h, (h, args)) (invoked_prefix hs)) s).
Proof.
  intros Hs. revert s. induction Hs as [|h hs Hh Hs IH]; intros s.
  - cbn [forEach first_throw invoked_prefix map]. by rewrite log_nil.
  - cbn [forEach first_throw invoked_prefix map]. msimpl1.
    mrun call_user; [|by apply is_sync_user_is_user].
    destruct (sync_user_result h Hh) as [Hr Hok]. rewrite Hr.
    destruct (throws_of h) as [m|] eqn:Ht; [done|].
    destruct (Hok eq_refl) as [r ->]. msimpl1. rewrite IH, log_log. done.
Qed.

(** The same loop over a stored array: the functions of the user do not
    touch the array, so nothing is skipped. *)
Lemma forEach_from_sync_users fuel a l args : ∀ n k s,
  arrays s !! a = Some l →
  Forall (λ h, is_sync_user h = true) (drop k l) →
  n = (length l - k)%nat →
  forEach_from n k a (λ h, call (S fuel) h args ;;; ret tt) s =
    forEach (λ h, call (S fuel) h args ;;; ret tt) (drop k l) s.
Proof.
  induction n as [|n IH]; intros k s Ha Hs Hn.
  - rewrite drop_ge by lia. done.
  - cbn [forEach_from]. msimpl1. rewrite Ha. cbn [mbind option_bind].
    destruct (l !! k) as [v|] eqn:Hk.
    2:{ apply lookup_ge_None in Hk. lia. }
    rewrite (drop_S _ _ _ Hk) in Hs |- *. cbn [forEach].
    apply Forall_cons in Hs as [Hv Hs]. msimpl1.
    rewrite !(bind_run _ _ _ _ _ (call_user fuel v args s (is_sync_user_is_user _ Hv))).
    destruct (user_result v); [|done..]. msimpl1.
    apply IH; [done|done|lia].
Qed.

(** *** Sets as lists *)

Section SetFacts.
Context `{EqDecision A}.
Implicit Types (s l : list A) (x y : A).

Lemma elem_of_set_add s x y : y ∈ set_add s x ↔ y ∈ s ∨ y = x.
Proof.
  unfold set_add. case_bool_decide as Hx.
  - split; [by left|]. intros [?| ->]; done.
  - rewrite elem_of_app, list_elem_of_singleton. done.
Qed.

Lemma NoDup_set_add s x : NoDup s → NoDup (set_add s x).
Proof.
  intros Hs. unfold set_add. case_bool_decide as Hx; [done|].
  apply NoDup_app. split_and!; [done| |apply NoDup_singleton].
  intros y Hy ->%list_elem_of_singleton. done.
Qed.

Lemma set_add_elem s x : x ∈ s → set_add s x = s.
Proof. intros Hx. unfold set_add. by rewrite bool_decide_eq_true_2. Qed.

Lemma elem_of_set_delete s x y : y ∈ set_delete s x ↔ y ∈ s ∧ y ≠ x.
Proof. unfold set_delete. rewrite list_elem_of_filter. tauto. Qed.

Lemma NoDup_set_delete s x : NoDup s → NoDup (set_delete s x).
Proof. apply NoDup_filter. Qed.


Lemma elem_of_fold_set_add l s y : y ∈ fold_left set_add l s ↔ y ∈ s ∨ y ∈ l.
Proof.
  revert s. induction l as [|x l IH]; intros s.
  - cbn. rewrite elem_of_nil. tauto.
  - cbn. rewrite IH, elem_of_set_add, elem_of_cons. tauto.
Qed.
End SetFacts.


Lemma elem_of_dedup l y : y ∈ dedup l ↔ y ∈ l.
Proof. unfold dedup. rewrite elem_of_fold_set_add, elem_of_nil. tauto. Qed.

Lemma dedup_all_same w l : l ≠ [] → Forall (λ v, v = w) l → dedup l = [w].
Proof.
  intros Hne Hl. destruct Hl as [|v l -> Hl]; [done|].
  unfold dedup. cbn [fold_left]. unfold set_add at 2.
  rewrite bool_decide_eq_false_2 by apply not_elem_of_nil. cbn [app].
  clear Hne. induction Hl as [|v l -> Hl IH]; [done|].
  cbn [fold_left]. rewrite set_add_elem by apply list_elem_of_here. done.
Qed.

(** *** The wildcard tree, continued *)

Lemma only_empty w : only w empty_node.
Proof. constructor; [constructor|]. intros k c. by rewrite lookup_empty. Qed.

Lemma only_add_listener w t : only w t → only w (add_listener w t).
Proof.
  intros [s cs Hs Hc]. cbn [add_listener]. constructor; [|done].
  destruct s as [|v|l]; cbn [slot_values] in *.
  - destruct (truthy w); by repeat constructor.
  - destruct (truthy v) eqn:Hv; cbn [slot_values].
    + apply Forall_cons in Hs as [-> _]. by repeat constructor.
    + destruct (truthy w); by repeat constructor.
  - apply Forall_app. split; [done|by repeat constructor].
Qed.

Lemma only_child w t k c : only w t → child t k = Some c → only w c.
Proof. intros [s cs Hs Hc]. cbn [child]. apply Hc. Qed.

Lemma only_set_child w t k c : only w t → only w c → only w (set_child t k c).
Proof.
  intros [s cs Hs Hc] Ho. cbn [set_child]. constructor; [done|].
  intros k' c'. rewrite lookup_insert. case_decide; [by intros [= <-]|]. apply Hc.
Qed.

Lemma only_add_path w deep parts : ∀ t, only w t → only w (add_path deep parts w t).
Proof.
  induction parts as [|part rest IH]; intros t Ht; [done|].
  cbn [add_path].
  set (here := if deep && bool_decide (part = "**") then add_listener w t else t).
  assert (Hhere : only w here).
  { unfold here. destruct (deep && _); [by apply only_add_listener|done]. }
  apply only_set_child; [done|]. apply IH.
  assert (Hnext : only w (default empty_node (child here part))).
  { destruct (child here part) as [c|] eqn:Hc; cbn.
    - by eapply only_child. - apply only_empty. }
  destruct rest; [by apply only_add_listener|done].
Qed.

Lemma only_listeners w t : only w t → Forall (λ v, v = w) (slot_values (node_listeners t)).
Proof. by intros [s cs Hs Hc]. Qed.

Lemma only_traverse w parts : ∀ t b, only w t → Forall (λ v, v = w) (traverse parts t b).
Proof.
  induction parts as [|current rest IH]; intros t b Ht.
  - by apply only_listeners.
  - cbn [traverse].
    assert (Hlevel : ∀ t' again, only w t' →
              (∀ dd, only w dd → Forall (λ v, v = w) (again dd)) →
              Forall (λ v, v = w) (traverse_level (traverse rest) current t' again)).
    { intros t' again Ht' Hagain. unfold traverse_level.
      repeat apply Forall_app_2.
      - destruct (child t' current) eqn:Hc; [|constructor].
        apply IH. by eapply only_child.
      - destruct (child t' "*") eqn:Hc; [|constructor].
        apply IH. by eapply only_child.
      - destruct (child t' "**") as [dd|] eqn:Hc; [|constructor].
        assert (only w dd) by by eapply only_child.
        repeat apply Forall_app_2; [by apply only_listeners|by apply IH|by apply Hagain]. }
    apply Hlevel; [done|]. intros dd Hdd. destruct b; [constructor|].
    apply Hlevel; [done|]. intros; constructor.
Qed.

Lemma child_set_child t k c : child (set_child t k c) k = Some c.
Proof. destruct t. cbn. apply lookup_insert_eq. Qed.



(** *** The wildcard tree *)

Lemma traverse_empty parts b : traverse parts empty_node b = [].
Proof.
  destruct parts as [|current rest]; [done|].
  cbn [traverse]. unfold traverse_level, empty_node, child.
  by rewrite !lookup_empty.
Qed.

Lemma findWildcardHandlers_new settings event :
  findWildcardHandlers event (new_EventEmitter settings) = [].
Proof.
  unfold findWildcardHandlers, findWildcardHandlers_parts.
  cbn [wildcardTree new_EventEmitter]. by rewrite traverse_empty.
Qed.

Lemma emit_found_nothing fuel event args s :
  supportsWildcards (cfg s) = true →
  globalHandlers s = [] → globalInternalHandlers s = [] →
  findWildcardHandlers event s = [] →
  emit fuel event args s = (Ok true, s)
  ∧ emitAsync fuel event args s = (Ok (All []), s).
Proof.
  intros Hw Hg Hgi Hf. split.
  - unfold emit, resolve. msimpl. rewrite Hw, Hg, Hgi, Hf. done.
  - unfold emitAsync, emitAsync_body, resolve. msimpl. rewrite Hw, Hgi, Hf. done.
Qed.

(** C1, where the code departs from it: on a new emitter with wildcards,
    whatever the other settings ([suppressErrors] among them) and whatever
    the arguments, [emit("error", ...)] without any handler returns [true]
    and throws nothing, and [emitAsync("error", ...)] gives [Promise.all([])],
    which is not rejected.  [findWildcardHandlers] returns an array, and an
    empty array is not falsy. *)
Theorem C1_error_event_in_wildcard_mode settings fuel args :
  let s := new_EventEmitter (with_wildcards true settings) in
  emit fuel "error" args s = (Ok true, s)
  ∧ emitAsync fuel "error" args s = (Ok (All []), s).
Proof.
  intros s. apply emit_found_nothing; try done.
  apply findWildcardHandlers_new.
Qed.

(** In the flat registry the [error] event without handlers does what C1
    says. *)
Lemma emit_error_unhandled_flat fuel args s :
  supportsWildcards (cfg s) = false →
  globalHandlers s = [] → globalInternalHandlers s = [] →
  eventHandlers s !! "error" = None →
  emit fuel "error" args s =
    (if suppressErrors (cfg s) then Ok false else Throw (uncaught args), s)
  ∧ emitAsync fuel "error" args s =
    (Ok (if suppressErrors (cfg s) then All [] else Rejected (uncaught args)), s).
Proof.
  intros Hw Hg Hgi He. split.
  - unfold emit, resolve. msimpl. rewrite Hw, Hg, Hgi, He.
    cbn [resolved_falsy]. msimpl. by destruct (suppressErrors (cfg s)).
  - unfold emitAsync, emitAsync_body, resolve. msimpl. rewrite Hw, Hgi, He.
    cbn [resolved_falsy mapM]. msimpl. by destruct (suppressErrors (cfg s)).
Qed.

Lemma checkHandlerLimit_run event count s :
  ∃ ws, checkHandlerLimit event count s = (Ok tt, set_warnings (λ _, ws) s).
Proof.
  unfold checkHandlerLimit. msimpl.
  destruct ((maxHandlersCount s >? 0) && (count >? maxHandlersCount s)); msimpl.
  - eexists. reflexivity.
  - exists (warnings s). by destruct s.
Qed.

Lemma on_flat fuel E h s :
  is_async_function h = Some false →
  is_internal_event E = false →
  supportsWildcards (cfg s) = false →
  internalHandlers s !! "newListener" = None →
  Forall (λ v, truthy v = true) (handlers_of s E) →
  ∃ s', on fuel E h no_options s = (Ok This, s')
        ∧ handlers_of s' E = handlers_of s E ++ [h]
        ∧ same_but_registry s s'.
Proof.
  intros Hh HE Hw Hint Ht.
  unfold on, prepareHandler. cbn [no_options runAsync opt_useNextTick opt_promisify returnObject].
  rewrite Hh, HE. change (default false None) with false. msimpl.
  mrun emitInternal_none; [|done]. rewrite Hw. msimpl.
  unfold handlers_of in *.
  destruct (eventHandlers s !! E) as [[v|a]|] eqn:He.
  - apply Forall_cons in Ht as [-> _]. unfold fresh. msimpl.
    destruct (checkHandlerLimit_run E 2
      (set_eventHandlers <[E:=Arr (next_id s)]>
         (set_arrays <[next_id s:=[v; h]]> (set_next_id (S (next_id s)) s)))) as [ws Hc].
    mrun Hc. eexists. split; [done|]. msimpl.
    rewrite lookup_insert_eq. cbn [arrays set_warnings]. msimpl. rewrite lookup_insert_eq.
    done.
  - msimpl.
    destruct (checkHandlerLimit_run E (Z.of_nat (length (default [] (arrays s !! a) ++ [h])))
      (set_arrays <[a:=default [] (arrays s !! a) ++ [h]]> s)) as [ws Hc].
    mrun Hc. eexists. split; [done|]. cbn [eventHandlers set_warnings set_arrays arrays].
    rewrite He, lookup_insert_eq. done.
  - msimpl. eexists. split; [done|]. msimpl. rewrite lookup_insert_eq. done.
Qed.

Lemma sync_user_truthy v : is_sync_user v = true → truthy v = true.
Proof. by destruct v. Qed.

Lemma sync_user_not_async v : is_sync_user v = true → is_async_function v = Some false.
Proof. by destruct v as [| | | | | | | |[id [] tag b| |]]. Qed.

Lemma forEach_stored_sync_users fuel a l args s :
  arrays s !! a = Some l →
  Forall (λ h, is_sync_user h = true) l →
  forEach_stored a (λ h, call (S fuel) h args ;;; ret tt) s =
    (match first_throw l with
     | Some m => Throw (Thrown (VError m))
     | None => Ok tt
     end,
     log (map (λ h, (h, args)) (invoked_prefix l)) s).
Proof.
  intros Ha Hl. unfold forEach_stored. msimpl. rewrite Ha.
  change (default [] (Some l)) with l.
  rewrite (forEach_from_sync_users fuel a l args _ 0 s Ha);
    [|by rewrite drop_0|by rewrite Nat.sub_0_r].
  rewrite drop_0. by apply forEach_sync_users.
Qed.

Lemma emit_flat_sync_users fuel E args s :
  supportsWildcards (cfg s) = false →
  globalHandlers s = [] → globalInternalHandlers s = [] →
  handlers_of s E ≠ [] →
  Forall (λ h, is_sync_user h = true) (handlers_of s E) →
  emit (S fuel) E args s =
    (match first_throw (handlers_of s E) with
     | Some m => Throw (Thrown (VError m))
     | None => Ok true
     end,
     log (map (λ h, (h, args)) (invoked_prefix (handlers_of s E))) s).
Proof.
  intros Hw Hg Hgi Hne Hs. unfold emit, resolve. msimpl. rewrite Hw, Hg, Hgi.
  rewrite !bool_decide_eq_true_2 by done. msimpl.
  unfold handlers_of in *. destruct (eventHandlers s !! E) as [[v|a]|] eqn:He; [| |done].
  - apply Forall_cons in Hs as [Hv _]. cbn [resolved_falsy].
    rewrite (sync_user_truthy v Hv). msimpl.
    destruct v as [| | | | | | | |f]; try discriminate.
    mrun call_user; [|by apply is_sync_user_is_user].
    cbn [first_throw invoked_prefix map].
    destruct (sync_user_result _ Hv) as [Hr Hok]. rewrite Hr.
    destruct (throws_of (VFun f)) as [m|]; [done|].
    by destruct (Hok eq_refl) as [r ->].
  - cbn [resolved_falsy]. msimpl.
    destruct (arrays s !! a) as [l|] eqn:Ha; [|done].
    change (default [] (Some l)) with l in *.
    mrun forEach_stored_sync_users; [|done..].
    by destruct (first_throw l).
Qed.

Lemma on_each_flat fuel E hs : ∀ s,
  is_internal_event E = false →
  supportsWildcards (cfg s) = false →
  internalHandlers s !! "newListener" = None →
  Forall (λ h, is_sync_user h = true) (handlers_of s E) →
  Forall (λ h, is_sync_user h = true) hs →
  handlers_of (on_each fuel E hs s) E = handlers_of s E ++ hs
  ∧ same_but_registry s (on_each fuel E hs s).
Proof.
  induction hs as [|h hs IH]; intros s HE Hw Hint Hs Hhs.
  - cbn. rewrite app_nil_r. by repeat split.
  - apply Forall_cons in Hhs as [Hh Hhs].
    destruct (on_flat fuel E h s) as (s1 & Hon & Hh1 & Hsame); try done.
    { by apply sync_user_not_async. }
    { eapply Forall_impl; [done|]. apply sync_user_truthy. }
    cbn [on_each fold_left]. rewrite Hon. cbn [snd].
    destruct Hsame as (Hc & Hi & Hg & Hgi & Ht & Hco & Hca & Hsc).
    destruct (IH s1) as [IH1 IH2]; try done.
    { by rewrite Hc. } { by rewrite Hi. }
    { rewrite Hh1. apply Forall_app. split; [done|]. by constructor. }
    unfold on_each in *. split.
    + rewrite IH1, Hh1, <- app_assoc. done.
    + destruct IH2 as (?&?&?&?&?&?&?&?). repeat split; congruence.
Qed.

Lemma invoked_prefix_all hs : first_throw hs = None → invoked_prefix hs = hs.
Proof.
  induction hs as [|h hs IH]; [done|]. cbn. destruct (throws_of h); [done|].
  intros ?. by rewrite IH.
Qed.

Lemma handlers_of_new settings E : handlers_of (new_EventEmitter settings) E = [].
Proof. unfold handlers_of, new_EventEmitter. cbn [eventHandlers]. by rewrite lookup_empty. Qed.

Lemma limited_not_async id E H : is_async_function (VFun (Limited id E H)) = Some false.
Proof. done. Qed.

Lemma on_flat_absent fuel E h s :
  is_async_function h = Some false →
  is_internal_event E = false →
  supportsWildcards (cfg s) = false →
  internalHandlers s !! "newListener" = None →
  eventHandlers s !! E = None →
  on fuel E h no_options s = (Ok This, set_eventHandlers <[E := Single h]> s).
Proof.
  intros Hh HE Hw Hint He.
  unfold on, prepareHandler. cbn [no_options runAsync opt_useNextTick opt_promisify returnObject].
  rewrite Hh, HE. change (default false None) with false. msimpl.
  mrun emitInternal_none; [|done]. rewrite Hw. msimpl. rewrite He. msimpl. done.
Qed.

Lemma on_wildcard fuel E h s :
  is_async_function h = Some false →
  is_internal_event E = false →
  supportsWildcards (cfg s) = true →
  internalHandlers s !! "newListener" = None →
  on fuel E h no_options s =
    (Ok This,
     let parts := split E (delimiter (cfg s)) in
     set_wildcardTree (add_path (includes "*" parts || includes "**" parts) parts h) s).
Proof.
  intros Hh HE Hw Hint.
  unfold on, prepareHandler. cbn [no_options runAsync opt_useNextTick opt_promisify returnObject].
  rewrite Hh, HE. change (default false None) with false. msimpl.
  mrun emitInternal_none; [|done]. rewrite Hw. unfold addToWildcardTree. msimpl. done.
Qed.

Lemma limitedTimes_run fuel E times H options s :
  is_function H = true →
  limitedTimes fuel E times H options s =
    on fuel E (VFun (Limited (next_id s) E H)) options
      (set_counters <[next_id s := times]> (set_next_id (S (next_id s)) s)).
Proof. intros HH. unfold limitedTimes, fresh. rewrite HH. msimpl. done. Qed.


Lemma registered_step E w l f s :
  registered E w s → registered E w (log l (set_counters f s)).
Proof. done. Qed.

(** One [emit] when the closure of [limitedTimes] is the registration of
    the event and does not remove itself. *)
Lemma emit_limited_stays fuel E args s id H c :
  registered E (VFun (Limited id E H)) s →
  is_user H = true →
  counters s !! id = Some c →
  supportsWildcards (cfg s) = true ∨ c - 1 ≠ 0 →
  emit (S (S fuel)) E args s =
    (then_true (user_result H), log [(H, args)] (set_counters <[id := c - 1]> s)).
Proof.
  intros (Hg & Hgi & Hreg) HH Hc Hstay.
  unfold emit, resolve. msimpl. rewrite Hg, Hgi.
  rewrite !bool_decide_eq_true_2 by done. msimpl.
  destruct (supportsWildcards (cfg s)) eqn:Hw.
  - rewrite Hreg. cbn [resolved_falsy forEach]. msimpl.
    rewrite call_limited. msimpl. rewrite Hc. change (default 0 (Some c)) with c.
    cbv zeta. msimpl.
    assert (Hoff : ∀ b, when b (off (call (S fuel)) E (VFun (Limited id E H)))
                     (set_counters <[id:=c - 1]> s)
                   = (Ok tt, set_counters <[id:=c - 1]> s)).
    { intros [|]; [|done]. cbn [when]. unfold off, off_wildcard. msimpl. rewrite Hw.
      msimpl.
      change (findWildcardHandlers_parts (split E (delimiter (cfg s)))
                (set_counters <[id:=c - 1]> s))
        with (findWildcardHandlers E s).
      rewrite Hreg. done. }
    mrun Hoff. mrun call_user; [|done].
    by destruct (user_result H).
  - rename Hreg into He. destruct Hstay as [|Hstay]; [done|].
    rewrite He. cbn [resolved_falsy truthy]. msimpl.
    rewrite call_limited. msimpl. rewrite Hc. change (default 0 (Some c)) with c.
    cbv zeta. msimpl.
    rewrite (proj2 (Z.eqb_neq _ _) Hstay). msimpl.
    mrun call_user; [|done].
    by destruct (user_result H).
Qed.

Lemma invocations_log h l s :
  invocations h (calls (log l s)) = (invocations h (calls s) + invocations h l)%nat.
Proof. unfold invocations. cbn. by rewrite filter_app, length_app. Qed.

Lemma invocations_one h args : invocations h [(h, args)] = 1%nat.
Proof. unfold invocations. rewrite filter_cons_True by done. done. Qed.


(** [n] emits during which the closure stays registered. *)
Lemma emit_times_limited_stays fuel E args id H : ∀ (n : nat) s c,
  registered E (VFun (Limited id E H)) s →
  is_user H = true →
  counters s !! id = Some c →
  supportsWildcards (cfg s) = true ∨ c ≤ 0 ∨ Z.of_nat n < c →
  let s' := emit_times (S (S fuel)) n E args s in
  registered E (VFun (Limited id E H)) s'
  ∧ counters s' !! id = Some (c - Z.of_nat n)
  ∧ invocations H (calls s') = (invocations H (calls s) + n)%nat
  ∧ cfg s' = cfg s
  ∧ eventHandlers s' = eventHandlers s.
Proof.
  induction n as [|n IH]; intros s c Hreg HH Hc Hstay.
  - cbn. rewrite Z.sub_0_r, Nat.add_0_r. done.
  - cbn [emit_times].
    rewrite (emit_limited_stays fuel E args s id H c); [|done|done|done|].
    2:{ destruct Hstay as [?|[?|?]]; [by left|right; lia|right; lia]. }
    cbn [snd].
    destruct (IH (log [(H, args)] (set_counters <[id:=c - 1]> s)) (c - 1))
      as (IH1 & IH2 & IH3 & IH4 & IH5).
    + by apply registered_step.
    + done.
    + cbn. apply lookup_insert_eq.
    + destruct Hstay as [?|[?|?]]; [by left|right; left; lia|right; right; lia].
    + split_and!; [done| | |done|done].
      * rewrite IH2. f_equal. lia.
      * rewrite IH3, invocations_log, invocations_one. cbn [calls set_counters]. lia.
Qed.

(** [emit] for an event of the flat registry that has no handler leaves the
    state as it is. *)
Lemma emit_flat_absent fuel E args s :
  supportsWildcards (cfg s) = false →
  globalHandlers s = [] → globalInternalHandlers s = [] →
  eventHandlers s !! E = None →
  snd (emit fuel E args s) = s.
Proof.
  intros Hw Hg Hgi He. unfold emit, resolve. msimpl. rewrite Hw, Hg, Hgi, He.
  rewrite !bool_decide_eq_true_2 by done. cbn [resolved_falsy]. msimpl.
  by destruct (bool_decide (E = "error") && negb (suppressErrors (cfg s))).
Qed.

Lemma emit_times_flat_absent fuel n E args s :
  supportsWildcards (cfg s) = false →
  globalHandlers s = [] → globalInternalHandlers s = [] →
  eventHandlers s !! E = None →
  emit_times fuel n E args s = s.
Proof.
  intros Hw Hg Hgi He. induction n as [|n IH]; [done|].
  cbn [emit_times]. by rewrite emit_flat_absent.
Qed.

Lemma registered_resolve E w s :
  registered E w s →
  resolve E s = if supportsWildcards (cfg s) then RFound [w] else RValue w.
Proof.
  intros (_ & _ & Hreg). unfold resolve. destruct (supportsWildcards (cfg s)).
  - by rewrite Hreg.
  - by rewrite Hreg.
Qed.

Lemma emit_found_sync_users fuel E args s :
  supportsWildcards (cfg s) = true →
  globalHandlers s = [] → globalInternalHandlers s = [] →
  Forall (λ h, is_sync_user h = true) (findWildcardHandlers E s) →
  emit (S fuel) E args s =
    (match first_throw (findWildcardHandlers E s) with
     | Some m => Throw (Thrown (VError m))
     | None => Ok true
     end,
     log (map (λ h, (h, args)) (invoked_prefix (findWildcardHandlers E s))) s).
Proof.
  intros Hw Hg Hgi Hs. unfold emit, resolve. msimpl. rewrite Hw, Hg, Hgi.
  rewrite !bool_decide_eq_true_2 by done. msimpl. cbn [resolved_falsy]. msimpl.
  mrun forEach_sync_users; [|done].
  by destruct (first_throw _).
Qed.




Lemma sync_user_prefix h : is_sync_user h = true → invoked_prefix [h] = [h].
Proof. intros _. cbn. by destruct (throws_of h). Qed.

Lemma log_ok_nil {A} (r : result A) : log_ok [] r.
Proof. destruct r; cbn; [constructor| |constructor]. exists []. split; [constructor|by left]. Qed.

Lemma propagates_pure {A} (m : M A) :
  (∀ s, calls (snd (m s)) = calls s) → propagates m.
Proof. intros Hm s. exists []. rewrite Hm, app_nil_r. split; [done|apply log_ok_nil]. Qed.

Lemma propagates_ret {A} (a : A) : propagates (ret a).
Proof. by apply propagates_pure. Qed.

Lemma propagates_throw {A} e : propagates (@throw A e).
Proof. by apply propagates_pure. Qed.

Lemma propagates_out_of_fuel {A} : propagates (@out_of_fuel A).
Proof. by apply propagates_pure. Qed.

Lemma propagates_modify f : (∀ s, calls (f s) = calls s) → propagates (modify f).
Proof. intros Hf. by apply propagates_pure. Qed.

Lemma log_ok_app {A} new1 new2 (r : result A) :
  quiet new1 → log_ok new2 r → log_ok (new1 ++ new2) r.
Proof.
  intros H1 H2. destruct r as [a|e|]; cbn in *.
  - by apply Forall_app.
  - destruct H2 as (pre & Hpre & [->|(c & m & -> & Hc & ->)]).
    + exists (new1 ++ pre). split; [by apply Forall_app|by left].
    + exists (new1 ++ pre). split; [by apply Forall_app|]. right.
      exists c, m. by rewrite app_assoc.
  - by apply Forall_app.
Qed.

Lemma propagates_bind {A B} (m : M A) (k : A → M B) :
  propagates m → (∀ a, propagates (k a)) → propagates (bind m k).
Proof.
  intros Hm Hk s. destruct (Hm s) as (new1 & Hc1 & Hok1).
  unfold bind. destruct (m s) as [[a|e|] s1] eqn:Hms; cbn [fst snd] in *.
  - destruct (Hk a s1) as (new2 & Hc2 & Hok2). exists (new1 ++ new2).
    rewrite Hc2, Hc1, app_assoc. split; [done|]. by apply log_ok_app.
  - by exists new1.
  - by exists new1.
Qed.

Lemma propagates_get_bind {B} (k : state → M B) :
  (∀ s, propagates (k s)) → propagates (bind get k).
Proof. intros Hk s. rewrite bind_get. apply Hk. Qed.

Lemma propagates_when b m : propagates m → propagates (when b m).
Proof. destruct b; [done|]. intros _. apply propagates_ret. Qed.

Lemma propagates_forEach {A} (f : A → M unit) l :
  (∀ x, propagates (f x)) → propagates (forEach f l).
Proof.
  intros Hf. induction l as [|x l IH]; [apply propagates_ret|].
  cbn [forEach]. apply propagates_bind; [done|]. by intros _.
Qed.

Lemma propagates_forEach_from n : ∀ k a (f : jsval → M unit),
  (∀ x, propagates (f x)) → propagates (forEach_from n k a f).
Proof.
  induction n as [|n IH]; intros k a f Hf; [apply propagates_ret|].
  cbn [forEach_from]. apply propagates_get_bind. intros s.
  destruct (arrays s !! a ≫= (.!! k)).
  - apply propagates_bind; [done|]. intros _. by apply IH.
  - by apply IH.
Qed.

Lemma propagates_forEach_stored a (f : jsval → M unit) :
  (∀ x, propagates (f x)) → propagates (forEach_stored a f).
Proof.
  intros Hf. unfold forEach_stored. apply propagates_get_bind. intros s.
  by apply propagates_forEach_from.
Qed.

Lemma propagates_findIndex handler : ∀ l k, propagates (findIndex handler k l).
Proof.
  induction l as [|h l IH]; intros k; [apply propagates_ret|].
  cbn [findIndex]. destruct (bool_decide (h = handler)); [apply propagates_ret|].
  destruct (get_listener h); [|apply propagates_throw].
  destruct (bool_decide _); [apply propagates_ret|apply IH].
Qed.

Section PropagatesMethods.
Variable callf : jsval → list jsval → M jsval.
Hypothesis callf_propagates : ∀ v args, propagates (callf v args).

Lemma propagates_emitInternal event args : propagates (emitInternal callf event args).
Proof.
  unfold emitInternal. apply propagates_get_bind. intros s.
  destruct (internalHandlers s !! event); [|apply propagates_ret].
  apply propagates_forEach. intros h. apply propagates_bind; [done|].
  intros _. apply propagates_ret.
Qed.

Lemma propagates_off event handler : propagates (off callf event handler).
Proof.
  unfold off. apply propagates_get_bind. intros s.
  destruct (supportsWildcards (cfg s)).
  - unfold off_wildcard. apply propagates_get_bind. intros s1.
    apply propagates_forEach. intros m.
    destruct (get__listeners m) as [[|v|l]|];
      try apply propagates_ret; [|apply propagates_throw].
    apply propagates_bind; [apply propagates_findIndex|].
    intros [i|]; [|apply propagates_ret].
    apply propagates_when, propagates_emitInternal.
  - unfold off_flat. apply propagates_get_bind. intros s1.
    assert (Hsingle : ∀ v : jsval,
      propagates
        (if bool_decide (v = handler)
            || bool_decide (default VUndefined (get_listener v) = handler)
         then modify (set_eventHandlers (delete event)) ;;;
              when (notifyRemoveListener (cfg s1))
                (emitInternal callf "removeListener" [VStr event; handler])
         else ret tt)).
    { intros v. destruct (_ || _); [|apply propagates_ret].
      apply propagates_bind; [by apply propagates_modify|]. intros _.
      apply propagates_when, propagates_emitInternal. }
    destruct (eventHandlers s1 !! event) as [[v|a]|]; [apply Hsingle| |apply Hsingle].
    apply propagates_bind; [apply propagates_findIndex|].
    intros [i|]; [|apply propagates_ret].
    apply propagates_bind; [by apply propagates_modify|]. intros _.
    apply propagates_bind.
    { apply propagates_when. by apply propagates_modify. }
    intros _. apply propagates_when, propagates_emitInternal.
Qed.
End PropagatesMethods.

Lemma propagates_call fuel : ∀ v args, propagates (call fuel v args).
Proof.
  induction fuel as [|n IH]; intros v args; [apply propagates_out_of_fuel|].
  destruct v as [| | | | | | | |[id a tag b|id event handler|id nt pr orig]];
    try apply propagates_throw.
  - intros s. rewrite call_user by done. cbn [fst snd]. exists [(VFun (Raw id a tag b), args)].
    split; [done|].
    destruct b as [|m|m], a; cbn; try by repeat constructor.
    exists []. split; [constructor|]. right. by eexists _, _.
  - rewrite call_limited. apply propagates_get_bind. intros s.
    cbv zeta. apply propagates_bind; [by apply propagates_modify|]. intros _.
    apply propagates_bind; [|by intros _].
    apply propagates_when, propagates_off. apply IH.
  - cbn [call]. destruct pr.
    + destruct nt; [apply propagates_throw|].
      apply propagates_get_bind. intros s.
      apply propagates_bind; [by apply propagates_modify|]. intros _. apply propagates_ret.
    + apply propagates_bind; [by apply propagates_modify|]. intros _. apply propagates_ret.
Qed.

Lemma propagates_emit fuel E args : propagates (emit fuel E args).
Proof.
  assert (Hcall : ∀ a h, propagates (call fuel h a ;;; ret tt)).
  { intros a h. apply propagates_bind; [apply propagates_call|].
    intros _. apply propagates_ret. }
  unfold emit. apply propagates_get_bind. intros s.
  apply propagates_bind.
  { apply propagates_when, propagates_forEach. intros h. apply Hcall. }
  intros _. apply propagates_bind.
  { apply propagates_when, propagates_forEach. intros h. apply Hcall. }
  intros _. destruct (resolved_falsy _).
  { destruct (_ && _); [apply propagates_throw|apply propagates_ret]. }
  destruct (resolve E s) as [|[| | | | | | | |f]|a|l]; try apply propagates_throw.
  - apply propagates_bind; [apply propagates_call|]. intros _. apply propagates_ret.
  - apply propagates_bind; [by apply propagates_forEach_stored|]. intros _.
    apply propagates_ret.
  - apply propagates_bind; [by apply propagates_forEach|]. intros _.
    apply propagates_ret.
Qed.

(** *** The Set-based emitter *)

Lemma fold_invoke type payload ls : ∀ e,
  Dispatch.listeners (fold_left (Dispatch.invoke type payload) ls e) = Dispatch.listeners e
  ∧ Dispatch.called (fold_left (Dispatch.invoke type payload) ls e)
    = Dispatch.called e ++ map (λ l, (l, type, payload)) ls.
Proof.
  induction ls as [|l ls IH]; intros e.
  - cbn. by rewrite app_nil_r.
  - cbn [fold_left map]. destruct (IH (Dispatch.invoke type payload e l)) as [-> ->].
    unfold Dispatch.invoke. destruct (Dispatch.listener_behaviour l); cbn;
      by rewrite <- app_assoc.
Qed.

Lemma fold_invoke_errors type payload ls : ∀ e,
  Dispatch.errors (fold_left (Dispatch.invoke type payload) ls e)
  = Dispatch.errors e ++ omap logged ls.
Proof.
  induction ls as [|l ls IH]; intros e; cbn [fold_left].
  { cbn. by rewrite app_nil_r. }
  rewrite IH. change (omap logged (l :: ls))
    with (match logged l with Some m => m :: omap logged ls | None => omap logged ls end).
  unfold Dispatch.invoke, logged.
  destruct (Dispatch.listener_behaviour l); cbn; [done| |done].
  by rewrite <- app_assoc.
Qed.

Lemma dispatch_spec type payload e :
  Dispatch.listeners (snd (Dispatch.dispatch type payload e)) = Dispatch.listeners e
  ∧ Dispatch.called (snd (Dispatch.dispatch type payload e))
    = Dispatch.called e ++ map (λ l, (l, type, payload)) (Dispatch.set_of e type).
Proof.
  unfold Dispatch.dispatch, Dispatch.lookup, Dispatch.set_of.
  destruct (Dispatch.listeners e !! type) as [set|]; cbn [snd default].
  - apply fold_invoke.
  - destruct (inherited type); cbn [snd]; by rewrite app_nil_r.
Qed.

(** [dispatch] returns unless the type is a name that [listeners] inherits
    and has no Set of its own. *)
Lemma dispatch_returns type payload e :
  Dispatch.lookup e type ≠ Dispatch.Inherited →
  fst (Dispatch.dispatch type payload e) = Ok tt.
Proof. unfold Dispatch.dispatch. by destruct (Dispatch.lookup e type). Qed.

Lemma lookup_stored e type set :
  Dispatch.listeners e !! type = Some set → Dispatch.lookup e type = Dispatch.Stored set.
Proof. unfold Dispatch.lookup. by intros ->. Qed.

Lemma lookup_inherited e type :
  Dispatch.lookup e type = Dispatch.Inherited
  ↔ Dispatch.listeners e !! type = None ∧ inherited type = true.
Proof.
  unfold Dispatch.lookup. destruct (Dispatch.listeners e !! type); [naive_solver|].
  destruct (inherited type); naive_solver.
Qed.

(** The three methods leave the emitter as it is when they throw. *)
Lemma step_inherited e o type :
  Dispatch.lookup e type = Dispatch.Inherited →
  match o with
  | Dispatch.Add t _ | Dispatch.Remove t _ | Dispatch.Fire t _ => t = type
  end →
  Dispatch.step e o = e.
Proof.
  intros Hl Ht. destruct o as [t l|t l|t p]; subst t; cbn [Dispatch.step];
    unfold Dispatch.addEventListener, Dispatch.removeEventListener, Dispatch.dispatch;
    by rewrite Hl.
Qed.

Lemma sets_ok_step e o : Dispatch.sets_ok e → Dispatch.sets_ok (Dispatch.step e o).
Proof.
  intros He. destruct o as [t l|t l|t p]; cbn [Dispatch.step].
  - unfold Dispatch.addEventListener, Dispatch.lookup.
    destruct (Dispatch.listeners e !! t) as [set0|] eqn:Hl; [|destruct (inherited t)];
      cbn [snd]; [|done|].
    + intros type set. cbn [Dispatch.listeners].
      rewrite lookup_insert. case_decide as Ht; [|apply He].
      intros [= <-]. apply NoDup_set_add. by eapply He.
    + intros type set. cbn [Dispatch.listeners].
      rewrite lookup_insert. case_decide as Ht; [|apply He].
      intros [= <-]. apply NoDup_set_add. constructor.
  - unfold Dispatch.removeEventListener, Dispatch.lookup.
    destruct (Dispatch.listeners e !! t) as [set0|] eqn:Hl; [|by destruct (inherited t)].
    intros type set. cbn [snd Dispatch.listeners].
    rewrite lookup_insert. case_decide as Ht; [|apply He].
    intros [= <-]. apply NoDup_set_delete. by eapply He.
  - intros type set. rewrite (proj1 (dispatch_spec t p e)). apply He.
Qed.

Lemma sets_ok_run ops : Dispatch.sets_ok (Dispatch.run ops).
Proof.
  unfold Dispatch.run. induction ops as [|o ops IH] using rev_ind.
  - intros type set. cbn. by rewrite lookup_empty.
  - rewrite fold_left_app. cbn [fold_left]. by apply sets_ok_step.
Qed.

Lemma sets_ok_set_of e type : Dispatch.sets_ok e → NoDup (Dispatch.set_of e type).
Proof.
  intros He. unfold Dispatch.set_of. destruct (Dispatch.listeners e !! type) eqn:Hl; cbn.
  - by eapply He.
  - constructor.
Qed.

(** No method stores anything under a name that [listeners] inherits. *)
Lemma inherited_step e o type :
  inherited type = true → Dispatch.listeners e !! type = None →
  Dispatch.listeners (Dispatch.step e o) !! type = None.
Proof.
  intros Hi He.
  assert (Hl : Dispatch.lookup e type = Dispatch.Inherited) by by apply lookup_inherited.
  destruct o as [t l|t l|t p]; cbn [Dispatch.step].
  - destruct (decide (t = type)) as [->|Ht].
    { unfold Dispatch.addEventListener. rewrite Hl. exact He. }
    unfold Dispatch.addEventListener. destruct (Dispatch.lookup e t); cbn [snd]; [|done|];
      cbn [Dispatch.listeners]; rewrite lookup_insert_ne; done.
  - destruct (decide (t = type)) as [->|Ht].
    { unfold Dispatch.removeEventListener. rewrite Hl. exact He. }
    unfold Dispatch.removeEventListener. destruct (Dispatch.lookup e t); cbn [snd]; [|done..].
    cbn [Dispatch.listeners]. rewrite lookup_insert_ne; done.
  - by rewrite (proj1 (dispatch_spec t p e)).
Qed.

Lemma inherited_run ops type :
  inherited type = true → Dispatch.listeners (Dispatch.run ops) !! type = None.
Proof.
  intros Hi. unfold Dispatch.run. induction ops as [|o ops IH] using rev_ind.
  - apply lookup_empty.
  - rewrite fold_left_app. cbn [fold_left]. by apply inherited_step.
Qed.

Lemma add_returns type l e :
  Dispatch.lookup e type ≠ Dispatch.Inherited →
  fst (Dispatch.addEventListener type l e) = Ok tt
  ∧ Dispatch.lookup (snd (Dispatch.addEventListener type l e)) type ≠ Dispatch.Inherited
  ∧ Dispatch.called (snd (Dispatch.addEventListener type l e)) = Dispatch.called e.
Proof.
  intros Hl. unfold Dispatch.addEventListener.
  destruct (Dispatch.lookup e type) eqn:Hlk; [|done|]; cbn [fst snd];
    (split_and!; [done| |done]); unfold Dispatch.lookup; cbn [Dispatch.listeners];
    by rewrite lookup_insert_eq.
Qed.

Lemma set_of_add type l e :
  Dispatch.lookup e type ≠ Dispatch.Inherited →
  Dispatch.set_of (snd (Dispatch.addEventListener type l e)) type
  = set_add (Dispatch.set_of e type) l.
Proof.
  intros Hl. unfold Dispatch.set_of, Dispatch.addEventListener, Dispatch.lookup in *.
  destruct (Dispatch.listeners e !! type) as [set|] eqn:He; cbn [snd default].
  - cbn. by rewrite lookup_insert_eq.
  - destruct (inherited type); [done|]. cbn. by rewrite lookup_insert_eq.
Qed.

Lemma set_of_iter_add type l n e :
  Dispatch.lookup e type ≠ Dispatch.Inherited →
  let e1 := Nat.iter (S n) (λ e, snd (Dispatch.addEventListener type l e)) e in
  Dispatch.set_of e1 type = set_add (Dispatch.set_of e type) l
  ∧ Dispatch.lookup e1 type ≠ Dispatch.Inherited
  ∧ Dispatch.called e1 = Dispatch.called e.
Proof.
  intros Hl. induction n as [|n IH]; cbv zeta.
  - change (Nat.iter 1 ?f ?x) with (f x). cbv beta.
    destruct (add_returns type l e Hl) as (_ & H1 & H2).
    by rewrite set_of_add.
  - rewrite Nat.iter_succ. destruct IH as (IH1 & IH2 & IH3).
    destruct (add_returns type l _ IH2) as (_ & H1 & H2).
    rewrite set_of_add, IH1, H2, IH3 by done. split_and!; [|done..].
    apply set_add_elem. apply elem_of_set_add. by right.
Qed.

Lemma set_of_remove type l e :
  Dispatch.set_of (snd (Dispatch.removeEventListener type l e)) type
  = set_delete (Dispatch.set_of e type) l.
Proof.
  unfold Dispatch.set_of, Dispatch.removeEventListener, Dispatch.lookup.
  destruct (Dispatch.listeners e !! type) eqn:Hl.
  - cbn. by rewrite lookup_insert_eq.
  - destruct (inherited type); cbn [snd]; by rewrite Hl.
Qed.

Lemma dispatch_invocations_app l type log1 log2 :
  Dispatch.invocations l type (log1 ++ log2)
  = (Dispatch.invocations l type log1 + Dispatch.invocations l type log2)%nat.
Proof. unfold Dispatch.invocations. by rewrite filter_app, length_app. Qed.

Lemma dispatch_invocations_absent l type payload set :
  l ∉ set → Dispatch.invocations l type (map (λ l, (l, type, payload)) set) = 0%nat.
Proof.
  unfold Dispatch.invocations. induction set as [|x set IH]; [done|].
  intros [Hx Hs]%not_elem_of_cons. cbn [map].
  rewrite filter_cons_False; [by apply IH|]. cbn. intros [? _]. done.
Qed.

Lemma dispatch_invocations_present l type payload set :
  NoDup set → l ∈ set →
  Dispatch.invocations l type (map (λ l, (l, type, payload)) set) = 1%nat.
Proof.
  induction 1 as [|x set Hx Hs IH]; [by intros ?%elem_of_nil|].
  intros Hl. cbn [map]. destruct (decide (x = l)) as [->|Hne].
  - change (Dispatch.invocations l type ((l, type, payload) :: ?t))
      with (Dispatch.invocations l type ([(l, type, payload)] ++ t)).
    rewrite dispatch_invocations_app, dispatch_invocations_absent by done.
    unfold Dispatch.invocations. by rewrite filter_cons_True.
  - change (Dispatch.invocations l type ((x, type, payload) :: ?t))
      with (Dispatch.invocations l type ([(x, type, payload)] ++ t)).
    rewrite dispatch_invocations_app, IH.
    + unfold Dispatch.invocations. rewrite filter_cons_False; [done|].
      cbn. intros [? _]. done.
    + apply elem_of_cons in Hl as [->|]; done.
Qed.

Lemma registry_ok_ext s s' :
  eventHandlers s' = eventHandlers s → arrays s' = arrays s →
  (next_id s ≤ next_id s')%nat →
  registry_ok s → registry_ok s'.
Proof.
  unfold registry_ok. intros He Ha Hn Hok event a. rewrite He, Ha. intros Hev.
  destruct (Hok event a Hev) as (Hl & Hlt & Huniq).
  split_and!; [done|lia|]. apply Huniq.
Qed.

Lemma preserves_ret {A} (a : A) : preserves (ret a).
Proof. by intros s. Qed.
Lemma preserves_throw {A} e : preserves (@throw A e).
Proof. by intros s. Qed.
Lemma preserves_out_of_fuel {A} : preserves (@out_of_fuel A).
Proof. by intros s. Qed.

Lemma preserves_bind {A B} (m : M A) (k : A → M B) :
  preserves m → (∀ a, preserves (k a)) → preserves (bind m k).
Proof.
  intros Hm Hk s Hs. specialize (Hm s Hs). unfold bind.
  destruct (m s) as [[a|e|] s1]; cbn [snd] in *; [by apply Hk|done|done].
Qed.

Lemma preserves_get {B} (k : state → M B) :
  (∀ s, registry_ok s → registry_ok (snd (k s s))) → preserves (bind get k).
Proof. intros Hk s Hs. rewrite bind_get. by apply Hk. Qed.

Lemma preserves_get' {B} (k : state → M B) :
  (∀ s, preserves (k s)) → preserves (bind get k).
Proof. intros Hk. apply preserves_get. intros s Hs. by apply Hk. Qed.

Lemma preserves_modify f :
  (∀ s, registry_ok s → registry_ok (f s)) → preserves (modify f).
Proof. intros Hf s Hs. by apply Hf. Qed.

Lemma preserves_modify_ext f :
  (∀ s, eventHandlers (f s) = eventHandlers s ∧ arrays (f s) = arrays s
        ∧ (next_id s ≤ next_id (f s))%nat) →
  preserves (modify f).
Proof.
  intros Hf. apply preserves_modify. intros s.
  destruct (Hf s) as (?&?&?). by apply registry_ok_ext.
Qed.

Lemma preserves_when b m : preserves m → preserves (when b m).
Proof. destruct b; [done|]. intros _. apply preserves_ret. Qed.

Lemma preserves_forEach {A} (f : A → M unit) l :
  (∀ x, preserves (f x)) → preserves (forEach f l).
Proof.
  intros Hf. induction l as [|x l IH]; [apply preserves_ret|].
  cbn [forEach]. apply preserves_bind; [done|]. by intros _.
Qed.

Lemma preserves_mapM {A B} (f : A → M B) l :
  (∀ x, preserves (f x)) → preserves (mapM f l).
Proof.
  intros Hf. induction l as [|x l IH]; [apply preserves_ret|].
  cbn [mapM]. apply preserves_bind; [done|]. intros y.
  apply preserves_bind; [done|]. intros ys. apply preserves_ret.
Qed.

Lemma preserves_forEach_from n : ∀ k a (f : jsval → M unit),
  (∀ x, preserves (f x)) → preserves (forEach_from n k a f).
Proof.
  induction n as [|n IH]; intros k a f Hf; [apply preserves_ret|].
  cbn [forEach_from]. apply preserves_get'. intros s.
  destruct (arrays s !! a ≫= (.!! k)).
  - apply preserves_bind; [done|]. intros _. by apply IH.
  - by apply IH.
Qed.

Lemma preserves_map_from n : ∀ k a (f : jsval → M jsval),
  (∀ x, preserves (f x)) → preserves (map_from n k a f).
Proof.
  induction n as [|n IH]; intros k a f Hf; [apply preserves_ret|].
  cbn [map_from]. apply preserves_get'. intros s.
  apply preserves_bind.
  { destruct (arrays s !! a ≫= (.!! k)); [done|apply preserves_ret]. }
  intros y. apply preserves_bind; [by apply IH|]. intros ys. apply preserves_ret.
Qed.

Lemma findIndex_state handler : ∀ l k s, snd (findIndex handler k l s) = s.
Proof.
  induction l as [|h l IH]; intros k s; [done|].
  cbn [findIndex]. destruct (bool_decide (h = handler)); [done|].
  destruct (get_listener h); [|done].
  destruct (bool_decide _); [done|apply IH].
Qed.

Lemma preserves_findIndex handler l k : preserves (findIndex handler k l).
Proof. intros s Hs. by rewrite findIndex_state. Qed.

(** Taking a handler out of the array of an event, and the key with it
    when the array is left empty. *)
Lemma registry_ok_splice s event a spliced :
  registry_ok s →
  eventHandlers s !! event = Some (Arr a) →
  registry_ok
    ((if bool_decide (spliced = []) then set_eventHandlers (delete event) else λ s, s)
       (set_arrays <[a := spliced]> s)).
Proof.
  unfold registry_ok. intros Hok He event' a'.
  destruct (Hok event a He) as (_ & Ha & Huniq).
  case_bool_decide as Hnil; cbn.
  - rewrite lookup_delete. case_decide as Hev; [done|]. intros He'.
    destruct (Hok event' a' He') as (Hl & Hlt & Huniq').
    assert (a' ≠ a). { intros ->. apply Hev. symmetry. by apply Huniq. }
    rewrite lookup_insert_ne by done. split_and!; [done..|].
    intros event''. rewrite lookup_delete. case_decide; [done|]. apply Huniq'.
  - intros He'. destruct (Hok event' a' He') as (Hl & Hlt & Huniq').
    split_and!; [|done|done].
    rewrite lookup_insert. case_decide; [by eexists|done].
Qed.

Lemma registry_ok_delete s event :
  registry_ok s → registry_ok (set_eventHandlers (delete event) s).
Proof.
  unfold registry_ok. intros Hok event' a'. cbn. rewrite lookup_delete. case_decide; [done|].
  intros He'. destruct (Hok event' a' He') as (Hl & Hlt & Huniq').
  split_and!; [done..|]. intros event''. rewrite lookup_delete.
  case_decide; [done|]. apply Huniq'.
Qed.

Lemma findIndex_run handler l k s :
  findIndex handler k l s = (fst (findIndex handler k l s), s).
Proof.
  rewrite <- (findIndex_state handler l k s) at 3. by destruct (findIndex _ _ _ _).
Qed.

Section PreservesMethods.
Variable callf : jsval → list jsval → M jsval.
Hypothesis callf_preserves : ∀ v args, preserves (callf v args).

Lemma preserves_emitInternal event args : preserves (emitInternal callf event args).
Proof.
  unfold emitInternal. apply preserves_get'. intros s.
  destruct (internalHandlers s !! event); [|apply preserves_ret].
  apply preserves_forEach. intros h. apply preserves_bind; [done|].
  intros _. apply preserves_ret.
Qed.

Lemma preserves_off event handler : preserves (off callf event handler).
Proof.
  unfold off. apply preserves_get'. intros s0.
  destruct (supportsWildcards (cfg s0)).
  - unfold off_wildcard. apply preserves_get'. intros s1.
    apply preserves_forEach. intros m.
    destruct (get__listeners m) as [[|v|l]|];
      try apply preserves_ret; [|apply preserves_throw].
    apply preserves_bind; [apply preserves_findIndex|].
    intros [i|]; [|apply preserves_ret].
    apply preserves_when, preserves_emitInternal.
  - unfold off_flat. apply preserves_get. intros s Hs.
    assert (Hsingle : ∀ v : jsval,
      preserves
        (if bool_decide (v = handler)
            || bool_decide (default VUndefined (get_listener v) = handler)
         then modify (set_eventHandlers (delete event)) ;;;
              when (notifyRemoveListener (cfg s))
                (emitInternal callf "removeListener" [VStr event; handler])
         else ret tt)).
    { intros v. destruct (_ || _); [|apply preserves_ret].
      apply preserves_bind; [|intros _; apply preserves_when, preserves_emitInternal].
      apply preserves_modify. intros s'. apply registry_ok_delete. }
    destruct (eventHandlers s !! event) as [[v|a]|] eqn:He;
      [by apply Hsingle| |by apply Hsingle].
    rewrite (bind_run _ _ _ _ _ (findIndex_run _ _ _ _)).
    destruct (fst _) as [[i|]|e|]; [|done..].
    msimpl1.
    pose proof (registry_ok_splice s event a
                  (delete i (default [] (arrays s !! a))) Hs He) as Hsp.
    destruct (bool_decide (delete i (default [] (arrays s !! a)) = [])); cbn [when];
      msimpl1;
      exact (preserves_when _ _ (preserves_emitInternal _ _) _ Hsp).
Qed.
End PreservesMethods.

Lemma preserves_call fuel : ∀ v args, preserves (call fuel v args).
Proof.
  induction fuel as [|n IH]; intros v args; [apply preserves_out_of_fuel|].
  destruct v as [| | | | | | | |[id a tag b|id event handler|id nt pr orig]];
    try apply preserves_throw.
  - intros s Hs. rewrite call_user by done. done.
  - rewrite call_limited. apply preserves_get'. intros s.
    cbv zeta. apply preserves_bind; [by apply preserves_modify_ext|]. intros _.
    apply preserves_bind; [|by intros _].
    apply preserves_when, preserves_off. apply IH.
  - cbn [call]. destruct pr.
    + destruct nt; [apply preserves_throw|].
      apply preserves_get'. intros s.
      apply preserves_bind; [by apply preserves_modify_ext|]. intros _. apply preserves_ret.
    + apply preserves_bind; [by apply preserves_modify_ext|]. intros _. apply preserves_ret.
Qed.

Lemma preserves_fresh : preserves fresh.
Proof.
  unfold fresh. apply preserves_get. intros s Hs. msimpl1. cbn [snd ret].
  eapply registry_ok_ext; [..|done]; cbn; [done|done|lia].
Qed.

Lemma preserves_prepareHandler handler options :
  preserves (prepareHandler handler options).
Proof.
  unfold prepareHandler. cbv zeta. apply preserves_bind.
  { destruct (opt_promisify options); [apply preserves_ret|].
    destruct (is_async_function handler); [apply preserves_ret|apply preserves_throw]. }
  intros promisify. destruct (_ && _); [apply preserves_ret|].
  apply preserves_bind; [apply preserves_fresh|]. intros id. apply preserves_ret.
Qed.

Lemma preserves_checkHandlerLimit event count : preserves (checkHandlerLimit event count).
Proof.
  unfold checkHandlerLimit. apply preserves_get'. intros s.
  apply preserves_when. by apply preserves_modify_ext.
Qed.

Lemma registry_ok_single s event h :
  registry_ok s → registry_ok (set_eventHandlers <[event := Single h]> s).
Proof.
  unfold registry_ok. intros Hok event' a'. cbn. rewrite lookup_insert.
  case_decide; [done|]. intros He'. destruct (Hok event' a' He') as (Hl & Hlt & Huniq').
  split_and!; [done..|]. intros event''. rewrite lookup_insert.
  case_decide; [done|]. apply Huniq'.
Qed.

Lemma registry_ok_push s event a l :
  registry_ok s → eventHandlers s !! event = Some (Arr a) → l ≠ [] →
  registry_ok (set_arrays <[a := l]> s).
Proof.
  unfold registry_ok. intros Hok He Hl event' a'. cbn. intros He'.
  destruct (Hok event' a' He') as (Hl' & Hlt & Huniq').
  split_and!; [|done|done].
  rewrite lookup_insert. case_decide; [by eexists|done].
Qed.

Lemma registry_ok_promote s event l :
  registry_ok s → l ≠ [] →
  registry_ok (set_eventHandlers <[event := Arr (next_id s)]>
                 (set_arrays <[next_id s := l]> (set_next_id (S (next_id s)) s))).
Proof.
  unfold registry_ok. intros Hok Hl event' a'. cbn. rewrite lookup_insert.
  case_decide as Hev.
  - intros [= Heq]. subst event' a'. split_and!.
    + rewrite lookup_insert_eq. by eexists.
    + lia.
    + intros event''. rewrite lookup_insert. case_decide; [done|].
      intros He''. destruct (Hok _ _ He'') as (_ & ? & _). lia.
  - intros He'. destruct (Hok event' a' He') as (Hl' & Hlt & Huniq').
    split_and!.
    + rewrite lookup_insert_ne by lia. done.
    + lia.
    + intros event''. rewrite lookup_insert. case_decide; [|apply Huniq'].
      intros [= Heq]. lia.
Qed.

Lemma preserves_on fuel event handler options : preserves (on fuel event handler options).
Proof.
  unfold on. cbv zeta.
  apply preserves_bind; [apply preserves_prepareHandler|]. intros prepared.
  destruct (is_internal_event event).
  { apply preserves_bind; [by apply preserves_modify_ext|]. intros _. apply preserves_ret. }
  apply preserves_get'. intros s0.
  apply preserves_bind.
  { apply preserves_when, preserves_emitInternal, preserves_call. }
  intros _. apply preserves_bind; [|intros _; apply preserves_ret].
  destruct (supportsWildcards (cfg s0)).
  { unfold addToWildcardTree. apply preserves_get'. intros s1.
    by apply preserves_modify_ext. }
  apply preserves_get. intros s Hs.
  destruct (eventHandlers s !! event) as [[v|a]|] eqn:He.
  - destruct (truthy v).
    + unfold fresh. msimpl1.
      apply (preserves_checkHandlerLimit event 2). by apply registry_ok_promote.
    + by apply registry_ok_single.
  - msimpl1. apply (preserves_checkHandlerLimit event _).
    eapply registry_ok_push; [done|done|]. by destruct (default [] _).
  - by apply registry_ok_single.
Qed.

Lemma preserves_limitedTimes fuel event times handler options :
  preserves (limitedTimes fuel event times handler options).
Proof.
  unfold limitedTimes. destruct (negb _); [apply preserves_throw|].
  apply preserves_bind; [apply preserves_fresh|]. intros id.
  apply preserves_bind; [by apply preserves_modify_ext|]. intros _.
  apply preserves_on.
Qed.

Lemma preserves_emit fuel event args : preserves (emit fuel event args).
Proof.
  assert (Hcall : ∀ a h, preserves (call fuel h a ;;; ret tt)).
  { intros a h. apply preserves_bind; [apply preserves_call|].
    intros _. apply preserves_ret. }
  unfold emit. apply preserves_get'. intros s.
  apply preserves_bind.
  { apply preserves_when, preserves_forEach. intros h. apply Hcall. }
  intros _. apply preserves_bind.
  { apply preserves_when, preserves_forEach. intros h. apply Hcall. }
  intros _. destruct (resolved_falsy _).
  { destruct (_ && _); [apply preserves_throw|apply preserves_ret]. }
  destruct (resolve event s) as [|[| | | | | | | |f]|a|l]; try apply preserves_throw.
  - apply preserves_bind; [apply preserves_call|]. intros _. apply preserves_ret.
  - apply preserves_bind; [|intros _; apply preserves_ret].
    unfold forEach_stored. apply preserves_get'. intros s1.
    by apply preserves_forEach_from.
  - apply preserves_bind; [by apply preserves_forEach|]. intros _.
    apply preserves_ret.
Qed.

Lemma preserves_emitAsync fuel event args : preserves (emitAsync fuel event args).
Proof.
  assert (Hbody : preserves (emitAsync_body fuel event args)).
  { unfold emitAsync_body. apply preserves_get'. intros s.
    apply preserves_bind.
    { apply preserves_mapM. intros h. apply preserves_call. }
    intros gp. destruct (resolved_falsy _).
    { destruct (_ && _); apply preserves_ret. }
    apply preserves_bind; [|intros hp; apply preserves_ret].
    destruct (resolve event s) as [|v|a|l].
    - apply preserves_ret.
    - apply preserves_mapM. intros h. apply preserves_call.
    - unfold map_stored. apply preserves_get'. intros s1.
      apply preserves_map_from. intros h. apply preserves_call.
    - apply preserves_mapM. intros h. apply preserves_call. }
  intros s Hs. specialize (Hbody s Hs). unfold emitAsync.
  by destruct (emitAsync_body fuel event args s) as [[]].
Qed.

Lemma registry_ok_step fuel s o : registry_ok s → registry_ok (step fuel s o).
Proof.
  intros Hs. destruct o; cbn [step].
  - by apply preserves_on.
  - by apply preserves_limitedTimes.
  - by apply preserves_limitedTimes.
  - exact (preserves_off _ (preserves_call fuel) _ _ s Hs).
  - by apply preserves_emit.
  - by apply preserves_emitAsync.
  - by apply (preserves_modify_ext (set_maxHandlersCount count)).
Qed.

Lemma registry_ok_new settings : registry_ok (new_EventEmitter settings).
Proof. intros event a. cbn. by rewrite lookup_empty. Qed.

Lemma registry_ok_run fuel ops : ∀ s, registry_ok s → registry_ok (run_ops fuel ops s).
Proof.
  unfold run_ops. induction ops as [|o ops IH]; intros s Hs; [done|].
  cbn [fold_left]. by apply IH, registry_ok_step.
Qed.

Lemma registry_same_refl s : registry_same s s.
Proof. done. Qed.

Lemma registry_same_trans s1 s2 s3 :
  registry_same s1 s2 → registry_same s2 s3 → registry_same s1 s3.
Proof. intros [??] [??]. split; congruence. Qed.

Lemma call_registry_same fuel v args s :
  is_limited v = false → registry_same s (snd (call fuel v args s)).
Proof.
  intros Hv. destruct fuel as [|n]; [done|].
  destruct v as [| | | | | | | |[id a tag b|id event handler|id nt pr orig]];
    try done.
  - by rewrite call_user.
  - cbn [call]. destruct pr; [destruct nt|]; done.
Qed.

Lemma forEach_registry_same {A} (f : A → M unit) l :
  Forall (λ x, ∀ s, registry_same s (snd (f x s))) l →
  ∀ s, registry_same s (snd (forEach f l s)).
Proof.
  induction 1 as [|x l Hx Hl IH]; intros s; [done|].
  cbn [forEach]. unfold bind. specialize (Hx s).
  destruct (f x s) as [[a|e|] s1]; cbn [snd] in *; [|done..].
  eapply registry_same_trans; [done|apply IH].
Qed.

Lemma Forall_when {A} (P : A → Prop) (b : bool) l :
  Forall P l → Forall P (if b then l else []).
Proof. intros Hl. destruct b; [done|constructor]. Qed.

Lemma emitInternal_registry_same fuel (b : bool) event args s :
  Forall (λ v, is_limited v = false)
    (if b then default [] (internalHandlers s !! event) else []) →
  registry_same s (snd (when b (emitInternal (call fuel) event args) s)).
Proof.
  intros Hl. destruct b; [|done]. cbn [when]. unfold emitInternal. msimpl1.
  destruct (internalHandlers s !! event) as [l|]; [|done]. cbn in Hl.
  apply forEach_registry_same. eapply Forall_impl; [done|].
  intros v Hv s1. cbn beta. unfold bind.
  pose proof (call_registry_same fuel v args s1 Hv) as Hs.
  by destruct (call fuel v args s1) as [[a|e|] s2].
Qed.

Lemma findIndex_found target : ∀ l k s i,
  fst (findIndex target k l s) = Ok (Some i) →
  ∃ h, l !! (i - k)%nat = Some h ∧ matches_target target h ∧ (k ≤ i)%nat.
Proof.
  induction l as [|h l IH]; intros k s i; [done|].
  cbn [findIndex]. case_bool_decide as Hh.
  { intros [= <-]. exists h. rewrite Nat.sub_diag. split_and!; [done|by left|done]. }
  destruct (get_listener h) as [t|] eqn:Ht; [|done].
  case_bool_decide as Hl.
  { intros [= <-]. exists h. rewrite Nat.sub_diag. split_and!; [done| |done].
    right. by rewrite Ht. }
  intros Hi. destruct (IH _ _ _ Hi) as (h' & Hh' & Hm & Hle).
  exists h'. split_and!; [|done|lia].
  replace (i - k)%nat with (S (i - S k)) by lia. done.
Qed.

Lemma handlers_of_same s s' event :
  registry_same s s' → handlers_of s' event = handlers_of s event.
Proof. intros [He Ha]. unfold handlers_of. by rewrite He, Ha. Qed.

(** [off] in the flat registry when the entry of the event is deleted:
    it held nothing or one handler. *)
Lemma off_flat_delete fuel E H s :
  Forall (λ v, is_limited v = false) (removeListener_listeners s) →
  let s' := snd ((modify (set_eventHandlers (delete E)) ;;;
                  when (notifyRemoveListener (cfg s))
                    (emitInternal (call fuel) "removeListener" [VStr E; H])) s) in
  handlers_of s' E = []
  ∧ (∀ E', E' ≠ E → handlers_of s' E' = handlers_of s E')
  ∧ eventHandlers s' !! E = None.
Proof.
  intros Hint. msimpl1.
  pose proof (emitInternal_registry_same fuel (notifyRemoveListener (cfg s))
                "removeListener" [VStr E; H] (set_eventHandlers (delete E) s) Hint)
    as Hsame.
  set (s1 := set_eventHandlers (delete E) s) in *.
  set (s' := snd (when _ _ _)) in *. cbv zeta.
  split_and!.
  - rewrite (handlers_of_same s1 s' E Hsame). unfold handlers_of. cbn.
    by rewrite lookup_delete_eq.
  - intros E' HE'. rewrite (handlers_of_same s1 s' E' Hsame). unfold handlers_of. cbn.
    by rewrite lookup_delete_ne.
  - destruct Hsame as [-> _]. cbn. apply lookup_delete_eq.
Qed.

(** ... when the entry is an array and [findIndex] gave [i]. *)
Lemma off_flat_splice fuel E H s a i :
  registry_ok s →
  Forall (λ v, is_limited v = false) (removeListener_listeners s) →
  eventHandlers s !! E = Some (Arr a) →
  let l := default [] (arrays s !! a) in
  let s' := snd ((modify (set_arrays <[a := delete i l]>) ;;;
                  when (bool_decide (delete i l = []))
                    (modify (set_eventHandlers (delete E))) ;;;
                  when (notifyRemoveListener (cfg s))
                    (emitInternal (call fuel) "removeListener" [VStr E; H])) s) in
  handlers_of s' E = delete i l
  ∧ (∀ E', E' ≠ E → handlers_of s' E' = handlers_of s E')
  ∧ (handlers_of s' E = [] → eventHandlers s' !! E = None).
Proof.
  intros Hok Hint He l. msimpl1.
  destruct (Hok E a He) as (_ & _ & Huniq).
  set (s1 := (if bool_decide (delete i l = [])
              then set_eventHandlers (delete E) else λ s, s)
               (set_arrays <[a := delete i l]> s)).
  assert (Hs1 : registry_same s1
           (snd ((when (bool_decide (delete i l = []))
                    (modify (set_eventHandlers (delete E))) ;;;
                  when (notifyRemoveListener (cfg s))
                    (emitInternal (call fuel) "removeListener" [VStr E; H]))
                   (set_arrays <[a := delete i l]> s)))).
  { unfold s1. destruct (bool_decide (delete i l = [])); cbn [when]; msimpl1;
      by apply emitInternal_registry_same. }
  set (s' := snd _) in *. cbv zeta.
  assert (HE : handlers_of s' E = delete i l).
  { rewrite (handlers_of_same s1 s' E Hs1). unfold s1, handlers_of.
    case_bool_decide as Hnil; cbn.
    - by rewrite lookup_delete_eq.
    - by rewrite He, lookup_insert_eq. }
  split_and!; [done| |].
  - intros E' HE'. rewrite (handlers_of_same s1 s' E' Hs1).
    assert (eventHandlers s1 !! E' = eventHandlers s !! E') as Hev.
    { unfold s1. case_bool_decide; cbn; [by rewrite lookup_delete_ne|done]. }
    assert (∀ a', eventHandlers s !! E' = Some (Arr a') → arrays s1 !! a' = arrays s !! a')
      as Harr.
    { intros a' Ha'. assert (a' ≠ a). { intros ->. by apply HE', Huniq. }
      unfold s1. case_bool_decide; cbn; by rewrite lookup_insert_ne. }
    unfold handlers_of. rewrite Hev.
    destruct (eventHandlers s !! E') as [[v'|a']|]; [done| |done].
    by rewrite Harr.
  - intros Hnil. rewrite HE in Hnil. destruct Hs1 as [-> _]. unfold s1.
    rewrite bool_decide_eq_true_2 by done. cbn. apply lookup_delete_eq.
Qed.

Lemma off_flat_effect fuel E H s :
  registry_ok s →
  supportsWildcards (cfg s) = false →
  Forall (λ v, is_limited v = false) (removeListener_listeners s) →
  let s' := snd (off_ fuel E H s) in
  (handlers_of s' E = handlers_of s E
   ∨ ∃ i h, handlers_of s E !! i = Some h ∧ matches_target H h
            ∧ handlers_of s' E = delete i (handlers_of s E))
  ∧ (∀ E', E' ≠ E → handlers_of s' E' = handlers_of s E')
  ∧ (handlers_of s' E = [] → eventHandlers s' !! E = None).
Proof.
  intros Hok Hw Hint. unfold off_, off. msimpl1. rewrite Hw. unfold off_flat. msimpl1.
  cbv zeta.
  destruct (eventHandlers s !! E) as [[v|a]|] eqn:He.
  - destruct (_ || _) eqn:Hm.
    + destruct (off_flat_delete fuel E H s Hint) as (H1 & H2 & H3).
      split_and!; [|done|done]. right. exists 0%nat, v. rewrite H1.
      unfold handlers_of. rewrite He. split_and!; [done| |done].
      apply orb_true_iff in Hm as [Hm|Hm]; apply bool_decide_eq_true in Hm;
        [by left|by right].
    + cbn. split_and!; [by left|done|]. unfold handlers_of. by rewrite He.
  - rewrite (bind_run _ _ _ _ _ (findIndex_run _ _ _ _)).
    destruct (fst (findIndex H 0 (default [] (arrays s !! a)) s)) as [[i|]|e|] eqn:Hfind.
    2-4: cbn; split_and!; [by left|done|];
         unfold handlers_of; rewrite He; intros Hnil;
         destruct (Hok E a He) as ((l & Hl & Hne) & _); by rewrite Hl in Hnil.
    apply findIndex_found in Hfind as (h & Hh & Hm & _). rewrite Nat.sub_0_r in Hh.
    destruct (off_flat_splice fuel E H s a i Hok Hint He) as (H1 & H2 & H3).
    split_and!; [|done|done]. right. exists i, h. rewrite H1.
    unfold handlers_of. rewrite He. done.
  - destruct (_ || _) eqn:Hm.
    + destruct (off_flat_delete fuel E H s Hint) as (H1 & H2 & H3).
      split_and!; [|done|done]. left. rewrite H1. unfold handlers_of. by rewrite He.
    + cbn. split_and!; [by left|done|]. intros _. done.
Qed.

(** [findIndex] gives the first handler that is the target. *)
Lemma findIndex_first target post : ∀ pre k s,
  Forall (λ x, ¬ matches_target target x ∧ get_listener x ≠ None) pre →
  findIndex target k (pre ++ target :: post) s = (Ok (Some (k + length pre)%nat), s).
Proof.
  induction pre as [|x pre IH]; intros k s Hpre.
  - cbn [app findIndex length]. rewrite bool_decide_eq_true_2 by done.
    by rewrite Nat.add_0_r.
  - apply Forall_cons in Hpre as [[Hx Hn] Hpre]. cbn [app findIndex length].
    rewrite bool_decide_eq_false_2. 2:{ intros ->. apply Hx. by left. }
    destruct (get_listener x) as [t|] eqn:Ht; [|done].
    rewrite bool_decide_eq_false_2. 2:{ intros ->. apply Hx. right. by rewrite Ht. }
    rewrite IH by done. do 3 f_equal. lia.
Qed.

(** [off(E, H)] takes out the first handler that is [H]. *)
Lemma off_flat_removes fuel E H s pre post :
  registry_ok s →
  supportsWildcards (cfg s) = false →
  Forall (λ v, is_limited v = false) (removeListener_listeners s) →
  handlers_of s E = pre ++ H :: post →
  Forall (λ x, ¬ matches_target H x ∧ get_listener x ≠ None) pre →
  handlers_of (snd (off_ fuel E H s)) E = pre ++ post.
Proof.
  intros Hok Hw Hint Hl Hpre. unfold off_, off. msimpl1. rewrite Hw. unfold off_flat.
  msimpl1. unfold handlers_of in Hl.
  destruct (eventHandlers s !! E) as [[v|a]|] eqn:He.
  - destruct pre as [|x [|]]; [|done..]. injection Hl as <- <-.
    rewrite bool_decide_eq_true_2 by done. cbn [orb].
    by destruct (off_flat_delete fuel E v s Hint) as (-> & _).
  - rewrite Hl. rewrite (bind_run _ _ _ _ _ (findIndex_first _ _ _ _ _ Hpre)).
    cbn [Nat.add].
    destruct (off_flat_splice fuel E H s a (length pre) Hok Hint He) as (H1 & _).
    cbv zeta in H1. rewrite Hl in H1. rewrite H1.
    rewrite delete_middle. done.
  - by destruct pre.
Qed.

(** ** With wildcards [off] and [emit] leave the tree alone *)

Lemma keeps_tree_pure {A} (m : M A) : (∀ s, snd (m s) = s) → keeps_tree m.
Proof. intros Hm s. by rewrite Hm. Qed.

Lemma keeps_tree_modify f :
  (∀ s, wildcardTree (f s) = wildcardTree s ∧ cfg (f s) = cfg s) →
  keeps_tree (modify f).
Proof. intros Hf s. apply Hf. Qed.

Lemma keeps_tree_bind {A B} (m : M A) (k : A → M B) :
  keeps_tree m → (∀ a, keeps_tree (k a)) → keeps_tree (bind m k).
Proof.
  intros Hm Hk s. destruct (Hm s) as [Ht Hc]. unfold bind.
  destruct (m s) as [[a|e|] s1]; cbn [snd] in *; [|done..].
  destruct (Hk a s1) as [-> ->]. done.
Qed.

Lemma keeps_tree_get {B} (k : state → M B) :
  (∀ s, keeps_tree (k s)) → keeps_tree (bind get k).
Proof. intros Hk s. rewrite bind_get. apply Hk. Qed.

Lemma keeps_tree_when b m : keeps_tree m → keeps_tree (when b m).
Proof. destruct b; [done|]. intros _. by apply keeps_tree_pure. Qed.

Lemma keeps_tree_forEach {A} (f : A → M unit) l :
  (∀ x, keeps_tree (f x)) → keeps_tree (forEach f l).
Proof.
  intros Hf. induction l as [|x l IH]; [by apply keeps_tree_pure|].
  cbn [forEach]. apply keeps_tree_bind; [done|]. by intros _.
Qed.

Lemma keeps_tree_findIndex handler l k : keeps_tree (findIndex handler k l).
Proof. apply keeps_tree_pure. intros s. apply findIndex_state. Qed.

Section KeepsTree.
Variable callf : jsval → list jsval → M jsval.
Hypothesis callf_keeps_tree : ∀ v args, keeps_tree (callf v args).

Lemma keeps_tree_emitInternal event args : keeps_tree (emitInternal callf event args).
Proof.
  unfold emitInternal. apply keeps_tree_get. intros s.
  destruct (internalHandlers s !! event); [|by apply keeps_tree_pure].
  apply keeps_tree_forEach. intros h. apply keeps_tree_bind; [done|].
  intros _. by apply keeps_tree_pure.
Qed.

Lemma keeps_tree_off event handler : keeps_tree (off callf event handler).
Proof.
  unfold off. apply keeps_tree_get. intros s.
  destruct (supportsWildcards (cfg s)).
  - unfold off_wildcard. apply keeps_tree_get. intros s1.
    apply keeps_tree_forEach. intros m.
    destruct (get__listeners m) as [[|v|l]|]; try by apply keeps_tree_pure.
    apply keeps_tree_bind; [apply keeps_tree_findIndex|].
    intros [i|]; [|by apply keeps_tree_pure].
    apply keeps_tree_when, keeps_tree_emitInternal.
  - unfold off_flat. apply keeps_tree_get. intros s1.
    assert (Hsingle : ∀ v : jsval,
      keeps_tree
        (if bool_decide (v = handler)
            || bool_decide (default VUndefined (get_listener v) = handler)
         then modify (set_eventHandlers (delete event)) ;;;
              when (notifyRemoveListener (cfg s1))
                (emitInternal callf "removeListener" [VStr event; handler])
         else ret tt)).
    { intros v. destruct (_ || _); [|by apply keeps_tree_pure].
      apply keeps_tree_bind; [by apply keeps_tree_modify|]. intros _.
      apply keeps_tree_when, keeps_tree_emitInternal. }
    destruct (eventHandlers s1 !! event) as [[v|a]|]; [apply Hsingle| |apply Hsingle].
    apply keeps_tree_bind; [apply keeps_tree_findIndex|].
    intros [i|]; [|by apply keeps_tree_pure].
    apply keeps_tree_bind; [by apply keeps_tree_modify|]. intros _.
    apply keeps_tree_bind.
    { apply keeps_tree_when. by apply keeps_tree_modify. }
    intros _. apply keeps_tree_when, keeps_tree_emitInternal.
Qed.
End KeepsTree.

Lemma keeps_tree_call fuel : ∀ v args, keeps_tree (call fuel v args).
Proof.
  induction fuel as [|n IH]; intros v args; [by apply keeps_tree_pure|].
  destruct v as [| | | | | | | |[id a tag b|id event handler|id nt pr orig]];
    try by apply keeps_tree_pure.
  - intros s. by rewrite call_user.
  - rewrite call_limited. apply keeps_tree_get. intros s.
    cbv zeta. apply keeps_tree_bind; [by apply keeps_tree_modify|]. intros _.
    apply keeps_tree_bind; [|by intros _].
    apply keeps_tree_when, keeps_tree_off. apply IH.
  - cbn [call]. destruct pr.
    + destruct nt; [by apply keeps_tree_pure|].
      apply keeps_tree_get. intros s.
      apply keeps_tree_bind; [by apply keeps_tree_modify|]. intros _.
      by apply keeps_tree_pure.
    + apply keeps_tree_bind; [by apply keeps_tree_modify|]. intros _.
      by apply keeps_tree_pure.
Qed.

(** With wildcards [off] changes nothing of what [emit] finds, whatever
    the event and the handler: the handlers that were found before are
    found after. *)
Lemma off_finds_the_same fuel E H s event :
  findWildcardHandlers event (snd (off_ fuel E H s)) = findWildcardHandlers event s.
Proof.
  destruct (keeps_tree_off _ (keeps_tree_call fuel) E H s) as [Ht Hc].
  unfold findWildcardHandlers, findWildcardHandlers_parts, off_. by rewrite Ht, Hc.
Qed.

Lemma emit_finds_the_same fuel E args s event :
  findWildcardHandlers event (snd (emit fuel E args s)) = findWildcardHandlers event s.
Proof.
  assert (Hcall : ∀ a h, keeps_tree (call fuel h a ;;; ret tt)).
  { intros a h. apply keeps_tree_bind; [apply keeps_tree_call|].
    intros _. by apply keeps_tree_pure. }
  assert (Hemit : keeps_tree (emit fuel E args)).
  { unfold emit. apply keeps_tree_get. intros s0.
    apply keeps_tree_bind; [by apply keeps_tree_when, keeps_tree_forEach|].
    intros _. apply keeps_tree_bind; [by apply keeps_tree_when, keeps_tree_forEach|].
    intros _. destruct (resolved_falsy _).
    { destruct (_ && _); by apply keeps_tree_pure. }
    destruct (resolve E s0) as [|[| | | | | | | |f]|a|l]; try by apply keeps_tree_pure.
    - apply keeps_tree_bind; [apply keeps_tree_call|]. intros _. by apply keeps_tree_pure.
    - apply keeps_tree_bind; [|intros _; by apply keeps_tree_pure].
      unfold forEach_stored. apply keeps_tree_get. intros s1.
      generalize 0%nat. induction (length _) as [|n IHn]; intros k;
        [by apply keeps_tree_pure|].
      cbn [forEach_from]. apply keeps_tree_get. intros s2.
      destruct (arrays s2 !! a ≫= (.!! k)); [|apply IHn].
      apply keeps_tree_bind; [done|]. intros _. apply IHn.
    - apply keeps_tree_bind; [by apply keeps_tree_forEach|]. intros _.
      by apply keeps_tree_pure. }
  destruct (Hemit s) as [Ht Hc].
  unfold findWildcardHandlers, findWildcardHandlers_parts. by rewrite Ht, Hc.
Qed.

(** ** The claims about handlers that throw and about the Set-based emitter *)

(** C8: [emit] catches nothing: when a function that it runs throws, that
    function is the last one run and [emit] ends with what was thrown.
    [dispatch] of the Set-based emitter, for a type that has a Set of
    listeners or is not a name that [listeners] inherits, calls every
    listener of the Set, in order, whatever the listeners before did, logs
    what each of them throws with [console.error], and returns. *)
Theorem C8_handler_exceptions :
  (∀ fuel E args s,
     ∃ new, calls (snd (emit fuel E args s)) = calls s ++ new
            ∧ log_ok new (fst (emit fuel E args s))
            ∧ ∀ c m, c ∈ new → throws_of c.1 = Some m →
                fst (emit fuel E args s) = Throw (Thrown (VError m)))
  ∧ (∀ type payload e,
       Dispatch.lookup e type ≠ Dispatch.Inherited →
       let r := Dispatch.dispatch type payload e in
       fst r = Ok tt
       ∧ Dispatch.listeners (snd r) = Dispatch.listeners e
       ∧ Dispatch.called (snd r)
         = Dispatch.called e ++ map (λ l, (l, type, payload)) (Dispatch.set_of e type)
       ∧ Dispatch.errors (snd r)
         = Dispatch.errors e ++ omap logged (Dispatch.set_of e type)).
Proof.
  split.
  - intros fuel E args s.
    destruct (propagates_emit fuel E args s) as (new & Hc & Hok).
    exists new. split_and!; [done|done|]. intros c m Hin Hm.
    destruct (fst (emit fuel E args s)) as [a|e|]; cbn in Hok.
    + eapply Forall_forall in Hok; [|done]. congruence.
    + destruct Hok as (pre & Hpre & [->|(c' & m' & -> & Hc' & ->)]).
      * eapply Forall_forall in Hpre; [|done]. congruence.
      * apply elem_of_app in Hin as [Hin|Hin].
        -- eapply Forall_forall in Hpre; [|done]. congruence.
        -- apply list_elem_of_singleton in Hin as ->. congruence.
    + eapply Forall_forall in Hok; [|done]. congruence.
  - intros type payload e Hl. cbv zeta.
    destruct (dispatch_spec type payload e) as [Hls Hc].
    split_and!; [by apply dispatch_returns|done|done|].
    unfold Dispatch.dispatch, Dispatch.lookup, Dispatch.set_of.
    destruct (Dispatch.listeners e !! type) as [set|]; cbn [snd default].
    + apply fold_invoke_errors.
    + destruct (inherited type); cbn [snd omap]; by rewrite app_nil_r.
Qed.

(** C8, at a registry with a handler that throws before one that does not,
    and at a Set with a listener that throws before one that does not. *)
Lemma C8_witness :
  fst (emit 1 "e" [] (on_each 1 "e" [thrower1; handler2] (new_EventEmitter default_settings)))
  = Throw (Thrown (VError "boom"))
  ∧ (let r := Dispatch.dispatch "t" VNull
                (Dispatch.run [Dispatch.Add "t" listener2; Dispatch.Add "t" listener1]) in
     fst r = Ok tt
     ∧ Dispatch.called (snd r) = [(listener2, "t", VNull); (listener1, "t", VNull)]
     ∧ Dispatch.errors (snd r) = ["boom"]).
Proof.
  destruct C8_handler_exceptions as [Hemit Hdispatch]. split.
  - destruct (Hemit 1%nat "e" []
                (on_each 1 "e" [thrower1; handler2] (new_EventEmitter default_settings)))
      as (new & Hnew & _ & Hthrow).
    apply (Hthrow (thrower1, [])); [|reflexivity].
    vm_compute in Hnew. subst new. apply list_elem_of_here.
  - destruct (Hdispatch "t" VNull
                (Dispatch.run [Dispatch.Add "t" listener2; Dispatch.Add "t" listener1])
                ltac:(by vm_compute))
      as (Hr & _ & Hc & He).
    cbv zeta. split_and!; [exact Hr|exact Hc|exact He].
Defined.

(** For a type that [listeners] does not inherit, or one that has a Set, a
    listener added once or several times is in the Set of the type once, and
    a dispatch then calls it once; after one [removeEventListener] it is
    not in the Set and a dispatch does not call it. *)
Lemma addEventListener_idempotent e type l n payload :
  Dispatch.sets_ok e →
  Dispatch.lookup e type ≠ Dispatch.Inherited →
  let e1 := Nat.iter (S n) (λ e, snd (Dispatch.addEventListener type l e)) e in
  let e2 := snd (Dispatch.removeEventListener type l e1) in
  (l ∈ Dispatch.set_of e1 type ∧ NoDup (Dispatch.set_of e1 type))
  ∧ Dispatch.invocations l type (Dispatch.called (snd (Dispatch.dispatch type payload e1)))
    = S (Dispatch.invocations l type (Dispatch.called e1))
  ∧ (l ∉ Dispatch.set_of e2 type)
  ∧ Dispatch.invocations l type (Dispatch.called (snd (Dispatch.dispatch type payload e2)))
    = Dispatch.invocations l type (Dispatch.called e2).
Proof.
  intros He Hl e1 e2.
  destruct (set_of_iter_add type l n e Hl) as (Hset1 & _ & _). fold e1 in Hset1.
  assert (Hnd1 : NoDup (Dispatch.set_of e1 type)).
  { rewrite Hset1. apply NoDup_set_add. by apply sets_ok_set_of. }
  assert (Hin1 : l ∈ Dispatch.set_of e1 type).
  { rewrite Hset1. apply elem_of_set_add. by right. }
  assert (Hout2 : l ∉ Dispatch.set_of e2 type).
  { unfold e2. rewrite set_of_remove, elem_of_set_delete. tauto. }
  split_and!; try done.
  - rewrite (proj2 (dispatch_spec type payload e1)).
    rewrite dispatch_invocations_app, dispatch_invocations_present by done. lia.
  - rewrite (proj2 (dispatch_spec type payload e2)).
    rewrite dispatch_invocations_app, dispatch_invocations_absent by done. lia.
Qed.

(** C10, where the code departs from it: [listeners] is an object literal,
    and for a type named like a member of [Object.prototype] the value read
    under the type is that member, not a Set.  On a new emitter
    [addEventListener("constructor", L)] throws a TypeError and stores
    nothing, and so do [removeEventListener] and [dispatch] for that type;
    [L] is never called. *)
Theorem C10_addEventListener_throws_for_an_inherited_type :
  let e := Dispatch.new_EventEmitter in
  Dispatch.addEventListener "constructor" listener1 e
  = (Throw (TypeError "this.listeners[type].add is not a function"), e)
  ∧ Dispatch.set_of (snd (Dispatch.addEventListener "constructor" listener1 e)) "constructor"
    = []
  ∧ Dispatch.dispatch "constructor" VNull e
    = (Throw (TypeError "listeners is not iterable"), e)
  ∧ Dispatch.removeEventListener "constructor" listener1 e
    = (Throw (TypeError "this.listeners[type]?.delete is not a function"), e).
Proof. vm_compute. repeat split. Qed.

(** ** Where the code departs from the claims about wrappers and about
    values that are not functions *)

(** C5, where the code departs from it: no closure of the engine has the
    property [listener].  After [once("e", H)], [off("e", H)] with the
    original handler removes nothing and the next [emit("e")] runs [H]; the
    same after [on("e", H, {runAsync: true})], where the wrapper stays in
    the registry. *)
Theorem C5_original_handler_does_not_remove_wrapper :
  let s0 := new_EventEmitter default_settings in
  let wrapped := VFun (Limited 0 "e" handler1) in
  let deferred := VFun (Prepared 0 false false handler1) in
  get_listener wrapped = Some VUndefined
  ∧ get_listener deferred = Some VUndefined
  ∧ (let s1 := snd (once 2 "e" handler1 no_options s0) in
     let s2 := snd (off_ 2 "e" handler1 s1) in
     handlers_of s1 "e" = [wrapped]
     ∧ handlers_of s2 "e" = [wrapped]
     ∧ fst (emit 2 "e" [] s2) = Ok true
     ∧ calls (snd (emit 2 "e" [] s2)) = [(handler1, [])])
  ∧ (let options := {| runAsync := Some true; opt_useNextTick := None;
                       opt_promisify := None; returnObject := None |} in
     let s1 := snd (on 2 "e" handler1 options s0) in
     let s2 := snd (off_ 2 "e" handler1 s1) in
     handlers_of s1 "e" = [deferred]
     ∧ handlers_of s2 "e" = [deferred]
     ∧ scheduled (snd (emit 2 "e" [] s2)) = [(handler1, [])]).
Proof. vm_compute. repeat split. Qed.

(** C6, where the code departs from it: [on] does not test its handler.
    [on("e", 42)] returns without throwing and stores 42 as the handler of
    the event, and the [emit] that follows fails; [once] and [limitedTimes]
    do throw for the same value. *)
Theorem C6_on_stores_a_value_that_is_not_a_function :
  let s0 := new_EventEmitter default_settings in
  fst (on 1 "e" (VNum 42) no_options s0) = Ok This
  ∧ handlers_of (snd (on 1 "e" (VNum 42) no_options s0)) "e" = [VNum 42]
  ∧ fst (emit 1 "e" [] (snd (on 1 "e" (VNum 42) no_options s0)))
    = Throw (TypeError "handlers.forEach is not a function")
  ∧ fst (once 1 "e" (VNum 42) no_options s0)
    = Throw (Thrown (VError "Handler must be a function"))
  ∧ fst (limitedTimes 1 "e" 3 (VNum 42) no_options s0)
    = Throw (Thrown (VError "Handler must be a function")).
Proof. vm_compute. repeat split. Qed.

(** [once] and [limitedTimes] refuse every value that is not a function,
    and leave the emitter as it was. *)
Lemma limitedTimes_rejects_non_function fuel E times x options s :
  is_function x = false →
  limitedTimes fuel E times x options s
  = (Throw (Thrown (VError "Handler must be a function")), s)
  ∧ once fuel E x options s
    = (Throw (Thrown (VError "Handler must be a function")), s).
Proof. intros Hx. unfold once, limitedTimes. by rewrite Hx. Qed.

(** [emit] walks the array of the registry itself, and a closure of [once]
    takes itself out of that array while the walk is under way: the handler
    that follows it moves one place down and is passed over.  With
    [once(E, H1)] then [once(E, H2)], the first [emit(E)] runs [H1] only,
    and [H2] runs at the second. *)
Lemma emit_passes_over_the_handler_after_a_removed_one :
  let s0 := new_EventEmitter default_settings in
  let s1 := snd (once 3 "e" handler1 no_options s0) in
  let s2 := snd (once 3 "e" handler2 no_options s1) in
  let s3 := snd (emit 3 "e" [] s2) in
  let s4 := snd (emit 3 "e" [] s3) in
  handlers_of s2 "e" = [VFun (Limited 0 "e" handler1); VFun (Limited 1 "e" handler2)]
  ∧ calls s3 = [(handler1, [])]
  ∧ handlers_of s3 "e" = [VFun (Limited 1 "e" handler2)]
  ∧ calls s4 = [(handler1, []); (handler2, [])]
  ∧ handlers_of s4 "e" = [].
Proof. vm_compute. repeat split. Qed.

(** * Further properties of the two emitters *)

(** ** What no method changes *)

Lemma keeps_pure {X A} (f : state → X) (m : M A) : (∀ s, snd (m s) = s) → keeps f m.
Proof. intros Hm s. by rewrite Hm. Qed.

Lemma keeps_modify {X} (f : state → X) g : (∀ s, f (g s) = f s) → keeps f (modify g).
Proof. intros Hg s. apply Hg. Qed.

Lemma keeps_bind {X A B} (f : state → X) (m : M A) (k : A → M B) :
  keeps f m → (∀ a, keeps f (k a)) → keeps f (bind m k).
Proof.
  intros Hm Hk s. specialize (Hm s). unfold bind.
  destruct (m s) as [[a|e|] s1]; cbn [snd] in *; [|done..].
  by rewrite Hk.
Qed.

Lemma keeps_get {X B} (f : state → X) (k : state → M B) :
  (∀ s, keeps f (k s)) → keeps f (bind get k).
Proof. intros Hk s. rewrite bind_get. apply Hk. Qed.

Lemma keeps_when {X} (f : state → X) b m : keeps f m → keeps f (when b m).
Proof. destruct b; [done|]. intros _. by apply keeps_pure. Qed.

Lemma keeps_forEach {X A} (f : state → X) (g : A → M unit) l :
  (∀ x, keeps f (g x)) → keeps f (forEach g l).
Proof.
  intros Hg. induction l as [|x l IH]; [by apply keeps_pure|].
  cbn [forEach]. apply keeps_bind; [done|]. by intros _.
Qed.

Lemma keeps_mapM {X A B} (f : state → X) (g : A → M B) l :
  (∀ x, keeps f (g x)) → keeps f (mapM g l).
Proof.
  intros Hg. induction l as [|x l IH]; [by apply keeps_pure|].
  cbn [mapM]. apply keeps_bind; [done|]. intros y.
  apply keeps_bind; [done|]. intros ys. by apply keeps_pure.
Qed.

Lemma keeps_forEach_from {X} (f : state → X) n : ∀ k a (g : jsval → M unit),
  (∀ x, keeps f (g x)) → keeps f (forEach_from n k a g).
Proof.
  induction n as [|n IH]; intros k a g Hg; [by apply keeps_pure|].
  cbn [forEach_from]. apply keeps_get. intros s.
  destruct (arrays s !! a ≫= (.!! k)); [|by apply IH].
  apply keeps_bind; [done|]. intros _. by apply IH.
Qed.

Lemma keeps_map_from {X} (f : state → X) n : ∀ k a (g : jsval → M jsval),
  (∀ x, keeps f (g x)) → keeps f (map_from n k a g).
Proof.
  induction n as [|n IH]; intros k a g Hg; [by apply keeps_pure|].
  cbn [map_from]. apply keeps_get. intros s.
  apply keeps_bind.
  { destruct (arrays s !! a ≫= (.!! k)); [done|by apply keeps_pure]. }
  intros y. apply keeps_bind; [by apply IH|]. intros ys. by apply keeps_pure.
Qed.

Lemma keeps_findIndex {X} (f : state → X) handler l k : keeps f (findIndex handler k l).
Proof. apply keeps_pure. intros s. apply findIndex_state. Qed.

Section KeepsMethods.
Context {X : Type} (f : state → X).
Hypothesis f_beside : beside_handlers f.
Variable callf : jsval → list jsval → M jsval.
Hypothesis callf_keeps : ∀ v args, keeps f (callf v args).

Lemma keeps_emitInternal event args : keeps f (emitInternal callf event args).
Proof.
  unfold emitInternal. apply keeps_get. intros s.
  destruct (internalHandlers s !! event); [|by apply keeps_pure].
  apply keeps_forEach. intros h. apply keeps_bind; [done|].
  intros _. by apply keeps_pure.
Qed.

Lemma keeps_off event handler : keeps f (off callf event handler).
Proof.
  destruct f_beside as (Hc & Hl & Hq & Ha & He).
  unfold off. apply keeps_get. intros s.
  destruct (supportsWildcards (cfg s)).
  - unfold off_wildcard. apply keeps_get. intros s1.
    apply keeps_forEach. intros m.
    destruct (get__listeners m) as [[|v|l]|]; try by apply keeps_pure.
    apply keeps_bind; [apply keeps_findIndex|].
    intros [i|]; [|by apply keeps_pure].
    apply keeps_when, keeps_emitInternal.
  - unfold off_flat. apply keeps_get. intros s1.
    assert (Hsingle : ∀ v : jsval,
      keeps f
        (if bool_decide (v = handler)
            || bool_decide (default VUndefined (get_listener v) = handler)
         then modify (set_eventHandlers (delete event)) ;;;
              when (notifyRemoveListener (cfg s1))
                (emitInternal callf "removeListener" [VStr event; handler])
         else ret tt)).
    { intros v. destruct (_ || _); [|by apply keeps_pure].
      apply keeps_bind; [by apply keeps_modify|]. intros _.
      apply keeps_when, keeps_emitInternal. }
    destruct (eventHandlers s1 !! event) as [[v|a]|]; [apply Hsingle| |apply Hsingle].
    apply keeps_bind; [apply keeps_findIndex|].
    intros [i|]; [|by apply keeps_pure].
    apply keeps_bind; [by apply keeps_modify|]. intros _.
    apply keeps_bind.
    { apply keeps_when. by apply keeps_modify. }
    intros _. apply keeps_when, keeps_emitInternal.
Qed.
End KeepsMethods.

Section KeepsEngine.
Context {X : Type} (f : state → X).
Hypothesis f_beside : beside_handlers f.

Lemma keeps_call fuel : ∀ v args, keeps f (call fuel v args).
Proof.
  destruct f_beside as (Hc & Hl & Hq & Ha & He).
  induction fuel as [|n IH]; intros v args; [by apply keeps_pure|].
  destruct v as [| | | | | | | |[id a tag b|id event handler|id nt pr orig]];
    try by apply keeps_pure.
  - intros s. rewrite call_user by done. apply Hl.
  - rewrite call_limited. apply keeps_get. intros s.
    cbv zeta. apply keeps_bind; [by apply keeps_modify|]. intros _.
    apply keeps_bind; [|by intros _].
    apply keeps_when, keeps_off; [done|]. apply IH.
  - cbn [call]. destruct pr.
    + destruct nt; [by apply keeps_pure|].
      apply keeps_get. intros s.
      apply keeps_bind; [by apply keeps_modify|]. intros _.
      by apply keeps_pure.
    + apply keeps_bind; [by apply keeps_modify|]. intros _.
      by apply keeps_pure.
Qed.

Lemma keeps_off_ fuel event handler : keeps f (off_ fuel event handler).
Proof. apply keeps_off; [done|]. apply keeps_call. Qed.

Lemma keeps_emit fuel E args : keeps f (emit fuel E args).
Proof.
  assert (Hcall : ∀ a h, keeps f (call fuel h a ;;; ret tt)).
  { intros a h. apply keeps_bind; [apply keeps_call|].
    intros _. by apply keeps_pure. }
  unfold emit. apply keeps_get. intros s0.
  apply keeps_bind; [by apply keeps_when, keeps_forEach|].
  intros _. apply keeps_bind; [by apply keeps_when, keeps_forEach|].
  intros _. destruct (resolved_falsy _).
  { destruct (_ && _); by apply keeps_pure. }
  destruct (resolve E s0) as [|[| | | | | | | |g]|a|l]; try by apply keeps_pure.
  - apply keeps_bind; [apply keeps_call|]. intros _. by apply keeps_pure.
  - apply keeps_bind; [|intros _; by apply keeps_pure].
    unfold forEach_stored. apply keeps_get. intros s1. by apply keeps_forEach_from.
  - apply keeps_bind; [by apply keeps_forEach|]. intros _.
    by apply keeps_pure.
Qed.

Lemma keeps_emitAsync fuel E args : keeps f (emitAsync fuel E args).
Proof.
  assert (Hbody : keeps f (emitAsync_body fuel E args)).
  { unfold emitAsync_body. apply keeps_get. intros s.
    apply keeps_bind.
    { apply keeps_mapM. intros h. apply keeps_call. }
    intros gp. destruct (resolved_falsy _).
    { destruct (_ && _); by apply keeps_pure. }
    apply keeps_bind; [|intros hp; by apply keeps_pure].
    destruct (resolve E s) as [|v|a|l].
    - by apply keeps_pure.
    - apply keeps_mapM. intros h. apply keeps_call.
    - unfold map_stored. apply keeps_get. intros s1.
      apply keeps_map_from. intros h. apply keeps_call.
    - apply keeps_mapM. intros h. apply keeps_call. }
  intros s. specialize (Hbody s). unfold emitAsync.
  by destruct (emitAsync_body fuel E args s) as [[]].
Qed.

Lemma keeps_prepareHandler handler options :
  (∀ n s, f (set_next_id n s) = f s) → keeps f (prepareHandler handler options).
Proof.
  intros Hn. unfold prepareHandler. cbv zeta. apply keeps_bind.
  { destruct (opt_promisify options); [by apply keeps_pure|].
    destruct (is_async_function handler); by apply keeps_pure. }
  intros p. destruct (_ && _); [by apply keeps_pure|].
  apply keeps_bind; [|intros id; by apply keeps_pure].
  unfold fresh. apply keeps_get. intros s.
  apply keeps_bind; [by apply keeps_modify|]. intros _. by apply keeps_pure.
Qed.
End KeepsEngine.

(** The registration proper of [on] in the flat registry. *)
Lemma keeps_register {X} (f : state → X) event p :
  (∀ g s, f (set_arrays g s) = f s) → (∀ g s, f (set_eventHandlers g s) = f s) →
  (∀ n s, f (set_next_id n s) = f s) → (∀ g s, f (set_warnings g s) = f s) →
  keeps f
    (s <- get ;;
     match eventHandlers s !! event with
     | Some (Arr a) =>
         let currentHandlers := default [] (arrays s !! a) ++ [p] in
         modify (set_arrays <[a := currentHandlers]>) ;;;
         checkHandlerLimit event (Z.of_nat (length currentHandlers))
     | Some (Single currentHandlers) =>
         if truthy currentHandlers then
           a <- fresh ;;
           modify (set_arrays <[a := [currentHandlers; p]]>) ;;;
           modify (set_eventHandlers <[event := Arr a]>) ;;;
           checkHandlerLimit event 2
         else modify (set_eventHandlers <[event := Single p]>)
     | None => modify (set_eventHandlers <[event := Single p]>)
     end).
Proof.
  intros Ha He Hn Hw.
  assert (Hlimit : ∀ e c, keeps f (checkHandlerLimit e c)).
  { intros e c. unfold checkHandlerLimit. apply keeps_get. intros s.
    apply keeps_when. by apply keeps_modify. }
  apply keeps_get. intros s.
  destruct (eventHandlers s !! event) as [[v|a]|].
  - destruct (truthy v); [|by apply keeps_modify].
    apply keeps_bind.
    { unfold fresh. apply keeps_get. intros s1.
      apply keeps_bind; [by apply keeps_modify|]. intros _. by apply keeps_pure. }
    intros a. apply keeps_bind; [by apply keeps_modify|]. intros _.
    apply keeps_bind; [by apply keeps_modify|]. intros _. apply Hlimit.
  - apply keeps_bind; [by apply keeps_modify|]. intros _. apply Hlimit.
  - by apply keeps_modify.
Qed.

Lemma keeps_on {X} (f : state → X) fuel event handler options :
  beside_registration f → keeps f (on fuel event handler options).
Proof.
  intros Hf. pose proof Hf as (Hb & Hn & Hi & Ht & Hw).
  unfold on. cbv zeta.
  apply keeps_bind; [by apply keeps_prepareHandler|]. intros prepared.
  destruct (is_internal_event event).
  { apply keeps_bind; [by apply keeps_modify|]. intros _. by apply keeps_pure. }
  apply keeps_get. intros s0.
  apply keeps_bind.
  { apply keeps_when, keeps_emitInternal. by apply keeps_call. }
  intros _. apply keeps_bind; [|intros _; by apply keeps_pure].
  destruct (supportsWildcards (cfg s0)).
  { unfold addToWildcardTree. apply keeps_get. intros s1. by apply keeps_modify. }
  destruct Hb as (_ & _ & _ & Ha & He). by apply keeps_register.
Qed.

Lemma keeps_limitedTimes {X} (f : state → X) fuel event times handler options :
  beside_registration f → keeps f (limitedTimes fuel event times handler options).
Proof.
  intros Hf. pose proof Hf as ((Hc & _) & Hn & _).
  unfold limitedTimes. destruct (negb _); [by apply keeps_pure|].
  apply keeps_bind.
  { unfold fresh. apply keeps_get. intros s1.
    apply keeps_bind; [by apply keeps_modify|]. intros _. by apply keeps_pure. }
  intros id. apply keeps_bind; [by apply keeps_modify|]. intros _.
  by apply keeps_on.
Qed.

Lemma beside_fixed_fields : beside_registration fixed_fields.
Proof. by repeat split. Qed.

Lemma beside_maxHandlersCount : beside_registration maxHandlersCount.
Proof. by repeat split. Qed.

Lemma fixed_fields_step fuel s o : fixed_fields (step fuel s o) = fixed_fields s.
Proof.
  pose proof beside_fixed_fields as Hf. pose proof Hf as [Hb _].
  destruct o; cbn [step].
  - by apply keeps_on.
  - by apply keeps_limitedTimes.
  - by apply keeps_limitedTimes.
  - by apply keeps_off_.
  - by apply keeps_emit.
  - by apply keeps_emitAsync.
  - done.
Qed.

Lemma fixed_fields_run fuel ops : ∀ s, fixed_fields (run_ops fuel ops s) = fixed_fields s.
Proof.
  unfold run_ops. induction ops as [|o ops IH]; intros s; [done|].
  cbn [fold_left]. rewrite IH. apply fixed_fields_step.
Qed.

(** *** Emitters reached by operations on plain names *)


Lemma reachable_registry_ok s : reachable s → registry_ok s.
Proof.
  induction 1 as [settings|fuel s o Hs IH Ho]; [apply registry_ok_new|].
  by apply registry_ok_step.
Qed.

Lemma cfg_step fuel s o : cfg (step fuel s o) = cfg s.
Proof.
  pose proof (fixed_fields_step fuel s o) as H. unfold fixed_fields in H.
  by injection H as H1 H2 H3.
Qed.

Lemma reachable_run fuel ops : ∀ s,
  reachable s → forallb (plain_op (cfg s)) ops = true → reachable (run_ops fuel ops s).
Proof.
  unfold run_ops. induction ops as [|o ops IH]; intros s Hs Hops; [done|].
  cbn [forallb] in Hops. apply andb_true_iff in Hops as [Ho Hops].
  cbn [fold_left]. apply IH.
  - by constructor.
  - by rewrite cfg_step.
Qed.

(** X2: the settings are fixed when the emitter is made, and no method
    registers a handler for all events: after every sequence of operations
    the configuration is the one of the constructor, and [globalHandlers]
    and [globalInternalHandlers] are empty, so the two loops of [emit] over
    them never run. *)
Theorem X2_settings_are_fixed settings fuel ops :
  let s := run_ops fuel ops (new_EventEmitter settings) in
  cfg s = cfg (new_EventEmitter settings)
  ∧ globalHandlers s = [] ∧ globalInternalHandlers s = [].
Proof.
  cbv zeta. pose proof (fixed_fields_run fuel ops (new_EventEmitter settings)) as H.
  unfold fixed_fields in H. injection H as H1 H2 H3. done.
Qed.

(** X1: [getMaxHandlers] gives the count of the last [setMaxHandlers] of
    any sequence of operations on a new emitter, and the [maxHandlers] of the
    settings (10 when they have none) when [setMaxHandlers] was never
    called: no other method changes the limit. *)
Theorem X1_getMaxHandlers_gives_the_last_count settings fuel ops :
  let s := run_ops fuel ops (new_EventEmitter settings) in
  getMaxHandlers s = (Ok (last_setMaxHandlers ops (default 10 (maxHandlers settings))), s).
Proof.
  cbv zeta. unfold getMaxHandlers. rewrite bind_get. unfold ret. f_equal. f_equal.
  change (default 10 (maxHandlers settings))
    with (maxHandlersCount (new_EventEmitter settings)).
  generalize (new_EventEmitter settings). unfold run_ops, last_setMaxHandlers.
  induction ops as [|o ops IH]; intros s; [done|].
  cbn [fold_left]. rewrite IH. f_equal.
  pose proof beside_maxHandlersCount as Hf. pose proof Hf as [Hb _].
  destruct o; cbn [step].
  - by apply keeps_on.
  - by apply keeps_limitedTimes.
  - by apply keeps_limitedTimes.
  - by apply keeps_off_.
  - by apply keeps_emit.
  - by apply keeps_emitAsync.
  - done.
Qed.

(** ** The leak warnings *)

Lemma filter_none {A} (P : A → Prop) `{∀ x, Decision (P x)} l :
  Forall (λ x, ¬ P x) l → filter P l = [].
Proof.
  induction 1 as [|x l Hx Hl IH]; [done|]. by rewrite filter_cons_False.
Qed.

Lemma filter_all {A} (P : A → Prop) `{∀ x, Decision (P x)} l :
  Forall P l → filter P l = l.
Proof.
  induction 1 as [|x l Hx Hl IH]; [done|]. rewrite filter_cons_True by done.
  by rewrite IH.
Qed.

Lemma leak_warnings_snoc event limit detailed n0 k :
  leak_warnings event limit detailed n0 (S k)
  = leak_warnings event limit detailed n0 k
    ++ leak_warnings event limit detailed (n0 + k) 1.
Proof.
  unfold leak_warnings. rewrite seq_S, filter_app, map_app.
  by replace (S n0 + k)%nat with (S (n0 + k)) by lia.
Qed.

Lemma set_warnings_nil s : s = set_warnings (λ w, w ++ []) s.
Proof. destruct s. unfold set_warnings. cbn. by rewrite app_nil_r. Qed.

Lemma checkHandlerLimit_warns event count n s :
  count = Z.of_nat (S n) → (1 ≤ n)%nat →
  checkHandlerLimit event count s =
    (Ok tt, set_warnings
              (λ w, w ++ leak_warnings event (maxHandlersCount s)
                           (detailedLeakWarnings (cfg s)) n 1) s).
Proof.
  intros -> Hn. unfold checkHandlerLimit, leak_warnings. rewrite bind_get.
  cbn [seq]. destruct (Z.gtb_spec (maxHandlersCount s) 0) as [Hm|Hm]; cbn [andb].
  - destruct (Z.gtb_spec (Z.of_nat (S n)) (maxHandlersCount s)) as [Hc|Hc]; cbn [when].
    + rewrite filter_cons_True by lia. done.
    + rewrite filter_cons_False by lia. cbn. unfold ret. f_equal.
      apply set_warnings_nil.
  - rewrite filter_cons_False by lia. cbn. unfold ret. f_equal.
    apply set_warnings_nil.
Qed.

(** One registration in the flat registry, for a handler that is a
    function. *)
Lemma on_flat_function fuel E h s :
  is_function h = true →
  is_internal_event E = false →
  supportsWildcards (cfg s) = false →
  internalHandlers s !! "newListener" = None →
  registry_ok s →
  Forall (λ v, is_function v = true) (handlers_of s E) →
  ∃ p s', on fuel E h no_options s = (Ok This, s')
    ∧ is_function p = true
    ∧ handlers_of s' E = handlers_of s E ++ [p]
    ∧ warnings s' = warnings s ++ leak_warnings E (maxHandlersCount s)
                                   (detailedLeakWarnings (cfg s))
                                   (length (handlers_of s E)) 1
    ∧ cfg s' = cfg s ∧ maxHandlersCount s' = maxHandlersCount s
    ∧ internalHandlers s' = internalHandlers s
    ∧ registry_ok s'.
Proof.
  intros Hh HE Hw Hint Hok Hfs.
  assert (Hok' : registry_ok (snd (on fuel E h no_options s))) by by apply preserves_on.
  revert Hok'.
  assert (Hp : ∃ p s1, prepareHandler h no_options s = (Ok p, s1)
            ∧ is_function p = true
            ∧ eventHandlers s1 = eventHandlers s ∧ arrays s1 = arrays s
            ∧ warnings s1 = warnings s ∧ cfg s1 = cfg s
            ∧ maxHandlersCount s1 = maxHandlersCount s
            ∧ internalHandlers s1 = internalHandlers s
            ∧ (next_id s ≤ next_id s1)%nat).
  { unfold prepareHandler. cbn [no_options runAsync opt_useNextTick opt_promisify].
    change (default false None) with false.
    destruct h as [| | | | | | | |[id [] tag b|id ev hd|id nt pr orig]]; try done;
      cbn [is_async_function]; msimpl; unfold fresh; msimpl;
      eexists _, _; (split; [reflexivity|]); cbn; repeat split; done || lia. }
  destruct Hp as (p & s1 & Hp & Hpf & He1 & Ha1 & Hw1 & Hc1 & Hm1 & Hi1 & Hn1).
  unfold on. cbn [no_options returnObject]. change (default false None) with false.
  mrun Hp. rewrite HE. msimpl.
  mrun emitInternal_none; [|by rewrite Hi1]. rewrite Hc1, Hw. msimpl.
  unfold handlers_of in *. rewrite He1.
  destruct (eventHandlers s !! E) as [[v|a]|] eqn:He.
  - rewrite Forall_singleton in Hfs. destruct v as [| | | | | | | |g]; try (cbn in Hfs; discriminate Hfs). cbn [truthy].
    unfold fresh. msimpl.
    rewrite (bind_run _ _ _ _ _ (checkHandlerLimit_warns E 2 1 _ ltac:(done) ltac:(lia))). msimpl.
    intros Hok'. eexists p, _. split; [reflexivity|]. cbn.
    rewrite !lookup_insert_eq. cbn. rewrite Hw1, Hm1, Hc1. done.
  - destruct (Hok E a He) as ((l & Hl & Hne) & _). rewrite Ha1, Hl in *. cbn [default] in *.
    change (id l) with l in *. msimpl.
    rewrite (bind_run _ _ _ _ _ (checkHandlerLimit_warns E
               (Z.of_nat (length (l ++ [p]))) (length l) _
               ltac:(rewrite length_app; cbn; lia)
               ltac:(destruct l; [done|cbn; lia]))). msimpl.
    intros Hok'. eexists p, _. split; [reflexivity|]. cbn.
    rewrite He1, He. rewrite lookup_insert_eq. cbn. rewrite Hw1, Hm1, Hc1. done.
  - msimpl. intros Hok'. eexists p, _. split; [reflexivity|]. cbn.
    rewrite lookup_insert_eq. rewrite Hw1, Hm1, Hc1.
    unfold leak_warnings. cbn [seq length]. rewrite decide_False by lia.
    cbn. by rewrite app_nil_r.
Qed.

Lemma on_each_flat_functions fuel E hs : ∀ s,
  is_internal_event E = false →
  supportsWildcards (cfg s) = false →
  internalHandlers s !! "newListener" = None →
  registry_ok s →
  Forall (λ v, is_function v = true) (handlers_of s E) →
  Forall (λ v, is_function v = true) hs →
  let s' := on_each fuel E hs s in
  length (handlers_of s' E) = (length (handlers_of s E) + length hs)%nat
  ∧ warnings s' = warnings s ++ leak_warnings E (maxHandlersCount s)
                                 (detailedLeakWarnings (cfg s))
                                 (length (handlers_of s E)) (length hs).
Proof.
  induction hs as [|h hs IH] using rev_ind; intros s HE Hw Hint Hok Hfs Hhs; cbv zeta.
  { cbn. unfold leak_warnings. cbn. by rewrite app_nil_r, Nat.add_0_r. }
  apply Forall_app in Hhs as [Hhs Hh]. rewrite Forall_singleton in Hh.
  unfold on_each. rewrite fold_left_app. cbn [fold_left]. fold (on_each fuel E hs s).
  destruct (IH s HE Hw Hint Hok Hfs Hhs) as [Hlen Hwarn].
  assert (Hinv : ∀ hs, Forall (λ v, is_function v = true) hs →
    let s' := on_each fuel E hs s in
    cfg s' = cfg s ∧ maxHandlersCount s' = maxHandlersCount s
    ∧ internalHandlers s' = internalHandlers s ∧ registry_ok s'
    ∧ Forall (λ v, is_function v = true) (handlers_of s' E)).
  { clear -HE Hw Hint Hok Hfs. intros hs.
    induction hs as [|h hs IH] using rev_ind; intros Hhs; [done|].
    apply Forall_app in Hhs as [Hhs Hh]. rewrite Forall_singleton in Hh.
    cbv zeta. unfold on_each. rewrite fold_left_app. cbn [fold_left].
    fold (on_each fuel E hs s).
    destruct (IH Hhs) as (Hc & Hm & Hi & Hok' & Hfs').
    destruct (on_flat_function fuel E h (on_each fuel E hs s))
      as (p & s' & -> & Hp & Hl & _ & Hc' & Hm' & Hi' & Hok''); try done.
    { by rewrite Hc. } { by rewrite Hi. }
    cbn [snd]. rewrite Hc', Hm', Hi', Hl. split_and!; [done..|].
    apply Forall_app. split; [done|]. by apply Forall_singleton. }
  destruct (Hinv hs Hhs) as (Hc & Hm & Hi & Hok' & Hfs').
  destruct (on_flat_function fuel E h (on_each fuel E hs s))
    as (p & s' & -> & Hp & Hl & Hwn & _); try done.
  { by rewrite Hc. } { by rewrite Hi. }
  cbn [snd]. rewrite Hl, Hwn, Hwarn, !length_app, Hlen, Hm, Hc. cbn [length].
  split; [lia|]. rewrite <- app_assoc. f_equal.
  replace (length hs + 1)%nat with (S (length hs)) by lia.
  symmetry. apply leak_warnings_snoc.
Qed.

Lemma handlers_of_setMaxHandlers count s E :
  handlers_of (snd (setMaxHandlers count s)) E = handlers_of s E.
Proof. done. Qed.

(** X3: the leak warnings of the flat registry.  After
    [setMaxHandlers(limit)] on a new emitter, registering the functions [hs]
    for one event prints one warning for each handler whose number (counted
    from the second one) is above a positive limit, with that number, in
    order; it prints none when the limit is zero or negative, or when the
    handlers are not more than the limit.  The limit of a new emitter is
    the one of its settings, 10 by default.  The event name is a key of its
    own in the registry ([plain_name]). *)
Theorem X3_leak_warnings_of_the_flat_registry settings limit fuel E hs :
  supportsWildcards (cfg (new_EventEmitter settings)) = false →
  is_internal_event E = false →
  plain_name (cfg (new_EventEmitter settings)) E = true →
  Forall (λ v, is_function v = true) hs →
  let s0 := snd (setMaxHandlers limit (new_EventEmitter settings)) in
  let s := on_each fuel E hs s0 in
  warnings s
  = leak_warnings E limit (default false (settings_detailedLeakWarnings settings))
      0 (length hs)
  ∧ (limit ≤ 0 ∨ Z.of_nat (length hs) ≤ limit → warnings s = [])
  ∧ (0 < limit < Z.of_nat (length hs) →
     length (warnings s) = (length hs - Z.to_nat limit)%nat)
  ∧ snd (setMaxHandlers (default 10 (maxHandlers settings)) (new_EventEmitter settings))
    = new_EventEmitter settings.
Proof.
  intros Hw HE _ Hhs. cbv zeta.
  destruct (on_each_flat_functions fuel E hs
              (snd (setMaxHandlers limit (new_EventEmitter settings))))
    as [_ Hwarn]; [done|done|done| | |done|].
  { by apply (preserves_modify_ext (set_maxHandlersCount limit)), registry_ok_new. }
  { rewrite handlers_of_setMaxHandlers, handlers_of_new. constructor. }
  rewrite Hwarn, handlers_of_setMaxHandlers, handlers_of_new.
  cbn [setMaxHandlers modify snd].
  cbn [warnings new_EventEmitter set_maxHandlersCount app length cfg
    maxHandlersCount detailedLeakWarnings].
  split; [done|]. unfold leak_warnings. rewrite !length_map.
  set (P := λ c : nat, (2 ≤ c)%nat ∧ 0 < limit ∧ limit < Z.of_nat c).
  split; [|split; [|done]].
  - intros Hl. replace (filter P (seq 1 (length hs))) with (@nil nat); [done|].
    symmetry. apply filter_none, Forall_forall. intros c Hc.
    apply elem_of_seq in Hc. unfold P. lia.
  - intros Hlim.
    replace (length hs) with (Z.to_nat limit + (length hs - Z.to_nat limit))%nat at 1 by lia.
    rewrite seq_app, filter_app, length_app.
    replace (filter P (seq 1 (Z.to_nat limit))) with (@nil nat).
    2:{ symmetry. apply filter_none, Forall_forall. intros c Hc.
        apply elem_of_seq in Hc. unfold P. lia. }
    cbn [length Nat.add].
    replace (filter P (seq (1 + Z.to_nat limit) (length hs - Z.to_nat limit)))
      with (seq (1 + Z.to_nat limit) (length hs - Z.to_nat limit)).
    { by rewrite length_seq. }
    symmetry. apply filter_all, Forall_forall. intros c Hc.
    apply elem_of_seq in Hc. unfold P. lia.
Qed.

(** ** Wildcards and warnings; the listeners of the reserved names *)

Lemma beside_warnings : beside_handlers warnings.
Proof. by repeat split. Qed.

Lemma beside_cfg : beside_registration cfg.
Proof. by repeat split. Qed.

Lemma on_wildcard_warnings fuel E h options s :
  supportsWildcards (cfg s) = true →
  warnings (snd (on fuel E h options s)) = warnings s.
Proof.
  intros Hw. pose proof beside_warnings as Hb.
  unfold on. cbv zeta.
  pose proof (keeps_prepareHandler warnings h options ltac:(done) s) as Hp.
  pose proof (keeps_prepareHandler cfg h options ltac:(done) s) as Hc.
  unfold bind at 1. destruct (prepareHandler h options s) as [[p|e|] s1]; cbn [snd] in *;
    [|done..].
  destruct (is_internal_event E); [done|]. rewrite bind_get.
  pose proof (keeps_when warnings (notifyNewListener (cfg s1)) _
    (keeps_emitInternal warnings (call fuel) (keeps_call warnings Hb fuel)
       "newListener" [VStr E; h]) s1) as He.
  unfold bind at 1.
  destruct (when _ _ s1) as [[[]|e|] s2]; cbn [snd] in *; [|congruence..].
  rewrite Hc, Hw. unfold addToWildcardTree. msimpl. cbn. congruence.
Qed.

Lemma wildcard_step_warnings fuel s o :
  supportsWildcards (cfg s) = true → warnings (step fuel s o) = warnings s.
Proof.
  intros Hw. pose proof beside_warnings as Hb.
  assert (Hlim : ∀ E t h o, warnings (snd (limitedTimes fuel E t h o s)) = warnings s).
  { intros E t h o'. unfold limitedTimes. destruct (negb _); [done|].
    unfold fresh. msimpl. by rewrite on_wildcard_warnings. }
  destruct o; cbn [step].
  - by apply on_wildcard_warnings.
  - apply Hlim.
  - apply Hlim.
  - by apply keeps_off_.
  - by apply keeps_emit.
  - by apply keeps_emitAsync.
  - done.
Qed.

(** X4: with wildcards no leak warning is ever printed, whatever is
    registered and whatever the limit is: [addToWildcardTree] does not call
    [checkHandlerLimit]. *)
Theorem X4_no_leak_warning_with_wildcards settings fuel ops :
  warnings (run_ops fuel ops (new_EventEmitter (with_wildcards true settings))) = [].
Proof.
  change [] with (warnings (new_EventEmitter (with_wildcards true settings))).
  assert (Hw : supportsWildcards (cfg (new_EventEmitter (with_wildcards true settings))) = true)
    by done.
  revert Hw. generalize (new_EventEmitter (with_wildcards true settings)).
  unfold run_ops. induction ops as [|o ops IH]; intros s Hw; [done|].
  cbn [fold_left]. rewrite IH.
  - by apply wildcard_step_warnings.
  - pose proof (fixed_fields_step fuel s o) as H. unfold fixed_fields in H.
    injection H as -> _ _. done.
Qed.


Lemma snd_bind_ret {A B} (m : M A) (b : B) s : snd ((m ;;; ret b) s) = snd (m s).
Proof. unfold bind. by destruct (m s) as [[]]. Qed.



Lemma set_next_id_same s : set_next_id (next_id s) s = s.
Proof. by destruct s. Qed.

Lemma prepareHandler_function h options s :
  is_function h = true →
  ∃ p n, prepareHandler h options s = (Ok p, set_next_id n s) ∧ is_function p = true
         ∧ (next_id s ≤ n)%nat.
Proof.
  intros Hh. unfold prepareHandler. cbv zeta.
  assert (∃ b, (match opt_promisify options with
                | Some b => ret b
                | None => match is_async_function h with
                          | Some b => ret b
                          | None => throw (TypeError "cannot read property constructor")
                          end
                end : M bool) = ret b) as [b Hb].
  { destruct (opt_promisify options); [by eexists|].
    destruct h as [| | | | | | | |[]]; try done; by eexists. }
  rewrite Hb. msimpl. destruct (_ && _).
  - exists h, (next_id s). by rewrite set_next_id_same.
  - unfold fresh. msimpl. eexists _, _. split; [reflexivity|]. split; [done|]. lia.
Qed.


(** ** [on] and the listeners of [newListener] *)

Lemma when_emitInternal_sync_users fuel (b : bool) event args s :
  Forall (λ l, is_sync_user l = true) (default [] (internalHandlers s !! event)) →
  let ls := if b then default [] (internalHandlers s !! event) else [] in
  when b (emitInternal (call (S fuel)) event args) s
  = (loop_result ls, log (map (λ l, (l, args)) (invoked_prefix ls)) s).
Proof.
  intros Hls. cbv zeta. destruct b; cbn [when].
  - unfold emitInternal. rewrite bind_get.
    destruct (internalHandlers s !! event) as [ls|]; cbn [default] in *.
    + by rewrite forEach_sync_users.
    + by rewrite log_nil.
  - by rewrite log_nil.
Qed.

(** X5: what [on] tells the listeners of [newListener] and what it
    returns, for a function [h] and listeners that are functions of the
    user, on an emitter reached by operations on names that are keys of
    their own, for such a name ([reachable], [plain_name]).  When the emitter was made with [emitNewListener] and the event
    is not one of the two reserved names, [on(E, h, options)] first calls the
    listeners of [newListener], in order, with [E] and with [h] itself (not
    the closure that wraps it); a listener that throws ends [on] with its
    exception before anything is registered.  Otherwise nothing is called.
    Without an exception [on] returns the handler reference when
    [returnObject] is set and the event is not a reserved name, and the
    emitter otherwise. *)
Theorem X5_on_tells_the_newListener_listeners fuel E h options s :
  reachable s →
  plain_name (cfg s) E = true →
  is_function h = true →
  Forall (λ l, is_sync_user l = true) (default [] (internalHandlers s !! "newListener")) →
  let ls := newListener_listeners E s in
  let r := on (S fuel) E h options s in
  calls (snd r) = calls s ++ map (λ l, (l, [VStr E; h])) (invoked_prefix ls)
  ∧ match first_throw ls with
    | Some m =>
        fst r = Throw (Thrown (VError m))
        ∧ eventHandlers (snd r) = eventHandlers s ∧ arrays (snd r) = arrays s
        ∧ wildcardTree (snd r) = wildcardTree s
        ∧ internalHandlers (snd r) = internalHandlers s
    | None =>
        fst r = Ok (if negb (is_internal_event E) && default false (returnObject options)
                    then Reference E h else This)
    end.
Proof.
  intros _ _ Hh Hls. cbv zeta. unfold newListener_listeners, on. cbv zeta.
  destruct (prepareHandler_function h options s Hh) as (p & n & Hp & Hpf & Hn).
  mrun Hp. destruct (is_internal_event E); cbn [negb andb].
  { rewrite andb_false_r. msimpl. cbn. by rewrite app_nil_r. }
  rewrite andb_true_r. msimpl. cbn [cfg set_next_id].
  erewrite bind_run; [|by apply when_emitInternal_sync_users]. cbv zeta.
  cbn [cfg set_next_id internalHandlers].
  set (ls := if notifyNewListener (cfg s) then _ else []).
  unfold loop_result. destruct (first_throw ls) as [m|]; [done|].
  rewrite snd_bind_ret.
  assert (Hfst : ∀ (m : M unit) (x : on_result) s0,
            (∀ s1, ∃ s2, m s1 = (Ok tt, s2)) → fst ((m ;;; ret x) s0) = Ok x).
  { intros m x s0 Hm. destruct (Hm s0) as [s2 H2]. unfold bind. by rewrite H2. }
  assert (Hlimit : ∀ e c s1, ∃ s2, checkHandlerLimit e c s1 = (Ok tt, s2)).
  { intros e c s1. destruct (checkHandlerLimit_run e c s1) as [ws ->]. by eexists. }
  split.
  - destruct (supportsWildcards _).
    { unfold addToWildcardTree. by msimpl. }
    by rewrite (keeps_register calls).
  - apply Hfst. intros s1. destruct (supportsWildcards _).
    { unfold addToWildcardTree. msimpl. by eexists. }
    rewrite bind_get. destruct (eventHandlers s1 !! E) as [[v|a]|].
    + destruct (truthy v); [|by eexists]. unfold fresh. msimpl. apply Hlimit.
    + msimpl. apply Hlimit.
    + by eexists.
Qed.

(** ** [off] in the flat registry *)

Lemma findIndex_none target : ∀ l k s,
  Forall (λ x, ¬ matches_target target x ∧ get_listener x ≠ None) l →
  findIndex target k l s = (Ok None, s).
Proof.
  induction l as [|x l IH]; intros k s Hl; [done|].
  apply Forall_cons in Hl as [[Hx Hn] Hl]. cbn [findIndex].
  rewrite bool_decide_eq_false_2. 2:{ intros ->. apply Hx. by left. }
  destruct (get_listener x) as [t|] eqn:Ht; [|done].
  rewrite bool_decide_eq_false_2. 2:{ intros ->. apply Hx. right. by rewrite Ht. }
  by apply IH.
Qed.

(** X6: in the flat registry [off(E, H)] for a function [H] that is not
    registered for [E] (not as a handler and not as the [listener] of one,
    also when [E] has no handler at all) changes nothing, tells no listener
    and returns. *)
Theorem X6_off_of_a_handler_that_is_not_there fuel E H s :
  supportsWildcards (cfg s) = false →
  is_function H = true →
  Forall (λ x, ¬ matches_target H x ∧ get_listener x ≠ None) (handlers_of s E) →
  off_ fuel E H s = (Ok tt, s).
Proof.
  intros Hw HH Hl. unfold off_, off. rewrite bind_get, Hw. unfold off_flat.
  rewrite bind_get. unfold handlers_of in Hl.
  destruct (eventHandlers s !! E) as [[v|a]|].
  - rewrite Forall_singleton in Hl. destruct Hl as [Hv _].
    rewrite !bool_decide_eq_false_2; [done| |].
    + intros Heq. apply Hv. by right.
    + intros Heq. apply Hv. by left.
  - cbv zeta. by rewrite (bind_run _ _ _ _ _ (findIndex_none _ _ _ _ Hl)).
  - rewrite !bool_decide_eq_false_2; [done| |]; destruct H; done.
Qed.

Lemma handlers_of_log l s E : handlers_of (log l s) E = handlers_of s E.
Proof. done. Qed.

(** X7: in the flat registry [off(E, H)] takes the first [H] out of the
    handlers of [E] and then, when the emitter was made with
    [emitRemoveListener], calls the listeners of [removeListener] in order
    with [E] and [H].  The handler is out before the listeners run: it stays
    removed when one of them throws, and [off] ends with that exception. *)
Theorem X7_off_tells_the_removeListener_listeners fuel E H s pre post :
  supportsWildcards (cfg s) = false →
  registry_ok s →
  Forall (λ l, is_sync_user l = true)
    (default [] (internalHandlers s !! "removeListener")) →
  handlers_of s E = pre ++ H :: post →
  Forall (λ x, ¬ matches_target H x ∧ get_listener x ≠ None) pre →
  let ls := removeListener_listeners s in
  let r := off_ (S fuel) E H s in
  fst r = loop_result ls
  ∧ calls (snd r) = calls s ++ map (λ l, (l, [VStr E; H])) (invoked_prefix ls)
  ∧ handlers_of (snd r) E = pre ++ post
  ∧ (pre ++ post = [] → eventHandlers (snd r) !! E = None).
Proof.
  intros Hw Hok Hls Hl Hpre. cbv zeta. unfold removeListener_listeners.
  unfold off_, off. rewrite bind_get, Hw. unfold off_flat. rewrite bind_get.
  unfold handlers_of in Hl.
  destruct (eventHandlers s !! E) as [[v|a]|] eqn:He.
  - destruct pre as [|x [|]]; [|done..]. injection Hl as <- <-.
    rewrite bool_decide_eq_true_2 by done. cbn [orb]. msimpl.
    rewrite when_emitInternal_sync_users by done. cbv zeta.
    cbn [fst snd cfg set_eventHandlers internalHandlers].
    split; [done|]. split; [done|]. rewrite handlers_of_log.
    unfold handlers_of. cbn. rewrite lookup_delete_eq. done.
  - destruct (Hok E a He) as ((l & Hla & Hne) & _ & Huniq).
    rewrite Hla in *. change (default [] (Some l)) with l in *. subst l. rewrite (bind_run _ _ _ _ _ (findIndex_first _ _ _ _ _ Hpre)).
    cbn [Nat.add]. rewrite delete_middle. msimpl.
    destruct (bool_decide (pre ++ post = [])) eqn:Hempty; msimpl.
    + rewrite when_emitInternal_sync_users by done. cbv zeta.
      cbn [fst snd cfg set_eventHandlers set_arrays internalHandlers].
      apply bool_decide_eq_true_1 in Hempty. rewrite Hempty.
      split; [done|]. split; [done|]. rewrite handlers_of_log.
      unfold handlers_of. cbn. rewrite lookup_delete_eq. done.
    + rewrite when_emitInternal_sync_users by done. cbv zeta.
      cbn [fst snd cfg set_eventHandlers set_arrays internalHandlers].
      apply bool_decide_eq_false_1 in Hempty.
      split; [done|]. split; [done|]. rewrite handlers_of_log.
      unfold handlers_of. cbn. rewrite He, lookup_insert_eq. done.
  - by destruct pre.
Qed.

(** ** A registration and the other events; the handler reference *)

Lemma handlers_of_next_id n s E : handlers_of (set_next_id n s) E = handlers_of s E.
Proof. done. Qed.

Lemma registry_ok_next_id n s : (next_id s ≤ n)%nat → registry_ok s → registry_ok (set_next_id n s).
Proof. intros Hn. by apply registry_ok_ext. Qed.

Lemma handlers_of_warnings f s E : handlers_of (set_warnings f s) E = handlers_of s E.
Proof. done. Qed.

(** The registration proper of [on], in the flat registry: the handlers of
    the other events stay. *)
Lemma register_other_events E p s E' :
  registry_ok s → E' ≠ E →
  handlers_of
    (snd ((s <- get ;;
           match eventHandlers s !! E with
           | Some (Arr a) =>
               let currentHandlers := default [] (arrays s !! a) ++ [p] in
               modify (set_arrays <[a := currentHandlers]>) ;;;
               checkHandlerLimit E (Z.of_nat (length currentHandlers))
           | Some (Single currentHandlers) =>
               if truthy currentHandlers then
                 a <- fresh ;;
                 modify (set_arrays <[a := [currentHandlers; p]]>) ;;;
                 modify (set_eventHandlers <[E := Arr a]>) ;;;
                 checkHandlerLimit E 2
               else modify (set_eventHandlers <[E := Single p]>)
           | None => modify (set_eventHandlers <[E := Single p]>)
           end) s)) E' = handlers_of s E'.
Proof.
  intros Hok Hne. rewrite bind_get.
  destruct (eventHandlers s !! E) as [[v|a]|] eqn:He.
  - destruct (truthy v).
    + unfold fresh. msimpl.
      match goal with |- context [checkHandlerLimit ?e ?c ?s0] =>
        destruct (checkHandlerLimit_run e c s0) as [ws ->] end.
      cbn [snd]. rewrite handlers_of_warnings. unfold handlers_of. cbn.
      rewrite lookup_insert_ne by done.
      destruct (eventHandlers s !! E') as [[v'|a']|] eqn:He'; [done| |done].
      destruct (Hok E' a' He') as (_ & Hlt & _). rewrite lookup_insert_ne by lia. done.
    + unfold handlers_of. cbn. by rewrite lookup_insert_ne.
  - msimpl.
    match goal with |- context [checkHandlerLimit ?e ?c ?s0] =>
      destruct (checkHandlerLimit_run e c s0) as [ws ->] end.
    cbn [snd]. rewrite handlers_of_warnings. unfold handlers_of. cbn.
    destruct (eventHandlers s !! E') as [[v'|a']|] eqn:He'; [done| |done].
    destruct (Hok E a He) as (_ & _ & Huniq).
    rewrite lookup_insert_ne; [done|]. intros <-. apply Hne. by apply Huniq.
  - unfold handlers_of. cbn. by rewrite lookup_insert_ne.
Qed.

Lemma on_other_events fuel E h options s E' :
  registry_ok s →
  Forall (λ v, is_limited v = false) (default [] (internalHandlers s !! "newListener")) →
  E' ≠ E →
  handlers_of (snd (on fuel E h options s)) E' = handlers_of s E'.
Proof.
  intros Hok Hls Hne. unfold on. cbv zeta.
  pose proof (preserves_prepareHandler h options s Hok) as Hok1.
  pose proof (keeps_prepareHandler (λ s, handlers_of s E') h options ltac:(done) s) as Hp.
  pose proof (keeps_prepareHandler internalHandlers h options ltac:(done) s) as Hi.
  unfold bind at 1. destruct (prepareHandler h options s) as [[p|e|] s1]; cbn [snd] in *;
    [|done..].
  rewrite <- Hp. rewrite <- Hi in Hls. clear Hp Hi.
  destruct (is_internal_event E); [done|]. rewrite bind_get.
  pose proof (emitInternal_registry_same fuel (notifyNewListener (cfg s1)) "newListener"
                [VStr E; h] s1 (Forall_when _ _ _ Hls)) as Hsame.
  pose proof (preserves_when (notifyNewListener (cfg s1)) _
                (preserves_emitInternal _ (preserves_call fuel)
                   "newListener" [VStr E; h]) s1 Hok1) as Hok2.
  unfold bind at 1.
  destruct (when _ _ s1) as [[[]|e|] s2]; cbn [snd] in *;
    [|by apply handlers_of_same..].
  rewrite <- (handlers_of_same s1 s2 E' Hsame). rewrite snd_bind_ret.
  destruct (supportsWildcards (cfg s1)).
  { unfold addToWildcardTree. by msimpl. }
  by apply register_other_events.
Qed.

(** Two sequences that differ in what they return at the end. *)
Lemma bind_result {A B} (m : M A) (k k' : A → M B) (g : result B → result B) s :
  (∀ e, g (Throw e) = Throw e) → g OutOfFuel = OutOfFuel →
  (∀ a s1, snd (k a s1) = snd (k' a s1) ∧ fst (k a s1) = g (fst (k' a s1))) →
  snd (bind m k s) = snd (bind m k' s) ∧ fst (bind m k s) = g (fst (bind m k' s)).
Proof.
  intros He Ho Hk. unfold bind. destruct (m s) as [[a|e|] s1]; cbn [fst snd]; [apply Hk|done..].
Qed.


(** [on] reads [returnObject] for its result only. *)
Lemma on_returnObject fuel E h o s :
  let o0 := {| runAsync := runAsync o; opt_useNextTick := opt_useNextTick o;
               opt_promisify := opt_promisify o; returnObject := None |} in
  snd (on fuel E h o s) = snd (on fuel E h o0 s)
  ∧ fst (on fuel E h o s)
    = match fst (on fuel E h o0 s) with
      | Ok _ => Ok (if negb (is_internal_event E) && default false (returnObject o)
                    then Reference E h else This)
      | r => r
      end.
Proof.
  cbv zeta.
  set (g := λ r : result on_result,
         match r with
         | Ok _ => Ok (if negb (is_internal_event E) && default false (returnObject o)
                       then Reference E h else This)
         | Throw e => Throw e
         | OutOfFuel => OutOfFuel
         end).
  set (o0 := {| runAsync := runAsync o; opt_useNextTick := opt_useNextTick o;
                opt_promisify := opt_promisify o; returnObject := None |}).
  change (snd (on fuel E h o s) = snd (on fuel E h o0 s)
          ∧ fst (on fuel E h o s) = g (fst (on fuel E h o0 s))).
  unfold on. cbv zeta.
  change (prepareHandler h o0) with (prepareHandler h o).
  change (default false (returnObject o0)) with false. cbv iota.
  apply (bind_result _ _ _ g); [done..|]. intros p s1.
  destruct (is_internal_event E); [done|]. cbn [negb andb]. rewrite !bind_get.
  apply (bind_result _ _ _ g); [done..|]. intros [] s2.
  apply (bind_result _ _ _ g); [done..|]. intros [] s3. done.
Qed.

(** X8: with [returnObject] [on] returns a reference to the
    registration, and the [remove] of that reference undoes it: in the flat
    registry, for a function that is stored as it is and was not registered
    for the event before, on an emitter without listeners of [newListener]
    (reached by operations on names that are keys of their own, the event
    being such a name), the handlers of every event are afterwards what they
    were before [on]. *)
Theorem X8_the_reference_removes_the_handler fuel fuel' E h s :
  reachable s →
  supportsWildcards (cfg s) = false →
  is_internal_event E = false →
  plain_name (cfg s) E = true →
  is_sync_user h = true →
  internalHandlers s !! "newListener" = None →
  Forall (λ v, is_limited v = false)
    (default [] (internalHandlers s !! "removeListener")) →
  Forall (λ x, truthy x = true ∧ ¬ matches_target h x ∧ get_listener x ≠ None)
    (handlers_of s E) →
  ∃ s1, on fuel E h return_object s = (Ok (Reference E h), s1)
        ∧ handlers_of s1 E = handlers_of s E ++ [h]
        ∧ ∀ E', handlers_of (snd (remove fuel' (Reference E h) s1)) E' = handlers_of s E'.
Proof.
  intros Hs Hw HE _ Hh Hnew Hrem Hhs.
  assert (Hok : registry_ok s) by by apply reachable_registry_ok.
  destruct (on_flat fuel E h s) as (s1 & Hon & Hl & Hsame); try done.
  { by apply sync_user_not_async. }
  { eapply Forall_impl; [done|]. by intros x (? & _). }
  destruct (on_returnObject fuel E h return_object s) as [Hsnd Hfst].
  cbv zeta in *. change {| runAsync := _; returnObject := None |} with no_options in *.
  rewrite Hon in *. cbn [fst snd] in *.
  exists s1. split.
  { rewrite (surjective_pairing (on fuel E h return_object s)), Hsnd, Hfst.
    by rewrite HE. }
  split; [done|]. intros E'. cbn [remove].
  assert (Hok1 : registry_ok s1).
  { pose proof (preserves_on fuel E h no_options s Hok) as H1. by rewrite Hon in H1. }
  destruct Hsame as (Hc & Hi & _).
  destruct (decide (E' = E)) as [->|Hne].
  - rewrite (off_flat_removes fuel' E h s1 (handlers_of s E) []); try done.
    + by rewrite app_nil_r.
    + by rewrite Hc.
    + unfold removeListener_listeners. apply Forall_when. by rewrite Hi.
    + eapply Forall_impl; [done|]. by intros x (_ & ? & ?).
  - destruct (off_flat_effect fuel' E h s1) as (_ & Hother & _); try done.
    { by rewrite Hc. }
    { unfold removeListener_listeners. apply Forall_when. by rewrite Hi. }
    rewrite Hother by done.
    pose proof (on_other_events fuel E h no_options s E' Hok) as H1.
    rewrite Hon in H1. apply H1; [|done]. by rewrite Hnew.
Qed.

(** ** [emitAsync] *)

Lemma mapM_sync_users n hs args s :
  Forall (λ h, is_sync_user h = true) hs →
  mapM (λ h, call (S n) h args) hs s =
    (match first_throw hs with
     | Some m => Throw (Thrown (VError m))
     | None => Ok (map returned hs)
     end,
     log (map (λ h, (h, args)) (invoked_prefix hs)) s).
Proof.
  intros Hs. revert s. induction Hs as [|h hs Hh Hs IH]; intros s.
  - cbn [mapM first_throw invoked_prefix map]. by rewrite log_nil.
  - cbn [mapM first_throw invoked_prefix map]. unfold returned at 1.
    mrun call_user; [|by apply is_sync_user_is_user].
    destruct (sync_user_result h Hh) as [Hr Hok]. rewrite Hr.
    destruct (throws_of h) as [m|] eqn:Ht; [done|].
    destruct (Hok eq_refl) as [r ->].
    mrun IH. rewrite log_log. cbn [app]. by destruct (first_throw hs).
Qed.

Lemma map_from_sync_users fuel a l args : ∀ n k s,
  arrays s !! a = Some l →
  Forall (λ h, is_sync_user h = true) (drop k l) →
  n = (length l - k)%nat →
  map_from n k a (λ h, call (S fuel) h args) s =
    mapM (λ h, call (S fuel) h args) (drop k l) s.
Proof.
  induction n as [|n IH]; intros k s Ha Hs Hn.
  - rewrite drop_ge by lia. done.
  - cbn [map_from]. msimpl1. rewrite Ha. cbn [mbind option_bind].
    destruct (l !! k) as [v|] eqn:Hk.
    2:{ apply lookup_ge_None in Hk. lia. }
    rewrite (drop_S _ _ _ Hk) in Hs |- *. cbn [mapM].
    apply Forall_cons in Hs as [Hv Hs].
    rewrite !(bind_run _ _ _ _ _ (call_user fuel v args s (is_sync_user_is_user _ Hv))).
    destruct (user_result v) as [r| |]; [|done..].
    unfold bind. rewrite (IH (S k) (log [(v, args)] s)); [done|done|done|lia].
Qed.

(** X10: when an event has handlers and they are functions of the user,
    [emitAsync] runs them as [emit] does, in the same order
    and with the same arguments, and wraps the outcome in a promise: it
    returns [Promise.all] of what the handlers returned, or a rejected
    promise with what the first throwing handler threw (the later handlers
    are not run), where [emit] returns [true] or throws. *)
Theorem X10_emitAsync_runs_the_handlers fuel E args s :
  globalHandlers s = [] → globalInternalHandlers s = [] →
  found_handlers E s ≠ [] →
  Forall (λ h, is_sync_user h = true) (found_handlers E s) →
  let hs := found_handlers E s in
  emitAsync (S fuel) E args s
  = (Ok (match first_throw hs with
         | Some m => Rejected (Thrown (VError m))
         | None => All (map returned hs)
         end),
     log (map (λ h, (h, args)) (invoked_prefix hs)) s)
  ∧ emit (S fuel) E args s
    = (match first_throw hs with
       | Some m => Throw (Thrown (VError m))
       | None => Ok true
       end,
       log (map (λ h, (h, args)) (invoked_prefix hs)) s).
Proof.
  intros Hg Hgi Hne Hs. cbv zeta. split.
  - unfold emitAsync, emitAsync_body. rewrite bind_get, Hgi.
    change (mapM (λ handler, call (S fuel) handler (VStr E :: args)) [])
      with (@ret (list jsval) []).
    rewrite bind_ret_l. cbn [app].
    unfold found_handlers in *.
    destruct (resolve E s) as [|v|a|l] eqn:Hr; [done| | |]; cbn [resolved_falsy].
    + rewrite Forall_singleton in Hs. rewrite (sync_user_truthy v Hs). cbn [negb].
      mrun mapM_sync_users; [|by apply Forall_singleton].
      by destruct (first_throw [v]).
    + destruct (arrays s !! a) as [l|] eqn:Ha; [|done].
      change (default [] (Some l)) with l in *.
      unfold map_stored. msimpl. rewrite Ha. change (default [] (Some l)) with l.
      rewrite (bind_run _ _ _ _ _
                 (eq_trans (map_from_sync_users fuel a l args _ 0 s Ha
                              ltac:(by rewrite drop_0) ltac:(by rewrite Nat.sub_0_r))
                           (mapM_sync_users fuel (drop 0 l) args s
                              ltac:(by rewrite drop_0)))).
      rewrite drop_0. by destruct (first_throw l).
    + mrun mapM_sync_users; [|done]. by destruct (first_throw l).
  - unfold found_handlers, resolve in *.
    destruct (supportsWildcards (cfg s)) eqn:Hw.
    + by apply emit_found_sync_users.
    + assert (Heq : handlers_of s E =
                match eventHandlers s !! E with
                | Some (Single v) => [v]
                | Some (Arr a) => default [] (arrays s !! a)
                | None => []
                end) by done.
      destruct (eventHandlers s !! E) as [[v|a]|] eqn:He;
        rewrite <- Heq in *; by apply emit_flat_sync_users.
Qed.

(** ** The closures of [prepareHandler] *)

Lemma on_wraps settings fuel E H options :
  supportsWildcards (cfg (new_EventEmitter settings)) = false →
  is_internal_event E = false →
  is_user H = true →
  wraps options H = true →
  let p := VFun (Prepared 0 (default false (opt_useNextTick options))
                   (promisify_of options H) H) in
  on fuel E H options (new_EventEmitter settings)
  = (Ok (if default false (returnObject options) then Reference E H else This),
     set_eventHandlers <[E := Single p]> (set_next_id 1 (new_EventEmitter settings))).
Proof.
  intros Hw HE HH Hwr. cbv zeta. unfold on, prepareHandler. cbv zeta.
  assert (Hp : (match opt_promisify options with
                | Some b => ret b
                | None => match is_async_function H with
                          | Some b => ret b
                          | None => throw (TypeError "cannot read property constructor")
                          end
                end : M bool) = ret (promisify_of options H)).
  { unfold promisify_of. destruct (opt_promisify options); [done|].
    by destruct H as [| | | | | | | |[]]. }
  rewrite Hp. msimpl1. unfold wraps in Hwr.
  replace (negb (default false (runAsync options))
           && negb (default false (opt_useNextTick options))
           && negb (promisify_of options H)) with false.
  2:{ destruct (default false (runAsync options)),
        (default false (opt_useNextTick options)), (promisify_of options H); done. }
  unfold fresh. msimpl. rewrite HE. msimpl.
  mrun emitInternal_none; [|done].
  cbn [cfg set_next_id]. rewrite Hw. msimpl. cbn [new_EventEmitter eventHandlers].
  rewrite lookup_empty. msimpl. done.
Qed.

(** X11: a handler registered in the flat registry with [runAsync],
    [useNextTick] or [promisify], or an [async] function, is not run by
    [emit]: the emit puts one task for it, with the arguments of the emit, in
    the queue of the scheduler, and returns [true]; [emitAsync] gives
    [Promise.all] of one value, the promise of that task when the handler is
    promisified and [undefined] otherwise.  (Not with [promisify] and
    [useNextTick] together.)  The event name is a key of its own in the
    registry. *)
Theorem X11_a_wrapped_handler_is_deferred settings fuel E H options args :
  supportsWildcards (cfg (new_EventEmitter settings)) = false →
  is_internal_event E = false →
  plain_name (cfg (new_EventEmitter settings)) E = true →
  is_user H = true →
  wraps options H = true →
  promisify_of options H && default false (opt_useNextTick options) = false →
  let s := snd (on fuel E H options (new_EventEmitter settings)) in
  emit 1 E args s = (Ok true, queued H args s)
  ∧ emitAsync 1 E args s
    = (Ok (All [if promisify_of options H then VPromise (AfterTask 0) else VUndefined]),
       queued H args s)
  ∧ calls (queued H args s) = [] ∧ scheduled (queued H args s) = [(H, args)].
Proof.
  intros Hw HE _ HH Hwr Hnt. cbv zeta. rewrite on_wraps by done. cbn [snd].
  unfold emit, emitAsync, emitAsync_body, resolve. msimpl. cbn [cfg set_next_id].
  rewrite Hw. cbn [new_EventEmitter globalHandlers globalInternalHandlers mapM].
  msimpl. rewrite !bool_decide_eq_true_2 by done. msimpl.
  cbn [eventHandlers set_eventHandlers set_next_id]. rewrite lookup_insert_eq.
  cbn [resolved_falsy truthy negb mapM call]. unfold schedule.
  destruct (promisify_of options H); cbn [andb] in Hnt.
  - rewrite Hnt. msimpl. done.
  - msimpl. done.
Qed.

(** X12: in the flat registry, with [promisify] (set, or implied by an
    [async] function) and [useNextTick] together, on a runtime that has [process.nextTick], the
    closure calls [Promise.resolve().then] without its receiver: every
    [emit] of the event throws a TypeError, [emitAsync] rejects with it, and
    the handler is neither run nor queued. *)
Theorem X12_promisify_with_useNextTick_fails settings fuel E H options args :
  supportsWildcards (cfg (new_EventEmitter settings)) = false →
  is_internal_event E = false →
  is_user H = true →
  promisify_of options H = true →
  default false (opt_useNextTick options) = true →
  let s := snd (on fuel E H options (new_EventEmitter settings)) in
  let e := TypeError "Promise.prototype.then called on incompatible receiver" in
  emit 1 E args s = (Throw e, s)
  ∧ emitAsync 1 E args s = (Ok (Rejected e), s)
  ∧ calls s = [] ∧ scheduled s = [].
Proof.
  intros Hw HE HH Hp Hnt. cbv zeta. rewrite on_wraps; [|done..|].
  2:{ unfold wraps. rewrite Hp. by rewrite orb_true_r. }
  cbn [snd]. rewrite Hp, Hnt.
  unfold emit, emitAsync, emitAsync_body, resolve. msimpl. cbn [cfg set_next_id].
  rewrite Hw. cbn [new_EventEmitter globalHandlers globalInternalHandlers mapM].
  msimpl. rewrite !bool_decide_eq_true_2 by done. msimpl.
  cbn [eventHandlers set_eventHandlers set_next_id]. rewrite lookup_insert_eq.
  cbn [resolved_falsy truthy negb mapM call]. msimpl. done.
Qed.

(** ** The result of [emit] *)

(** X13: what [emit] returns, on an emitter reached by any sequence of
    operations on names that are keys of their own (or whose segments are,
    with wildcards), for such a name, when the handlers of the event are
    functions that do not throw: without wildcards [true] exactly when the event has a handler
    (the [error] event without handlers and without [suppressErrors] apart,
    which throws), with wildcards always [true], also when no pattern
    matches. *)
Theorem X13_emit_returns_whether_there_are_handlers settings fuel0 ops fuel E args :
  let s := run_ops fuel0 ops (new_EventEmitter settings) in
  forallb (plain_op (cfg (new_EventEmitter settings))) ops = true →
  plain_name (cfg (new_EventEmitter settings)) E = true →
  Forall (λ h, is_sync_user h = true) (found_handlers E s) →
  first_throw (found_handlers E s) = None →
  E ≠ "error" ∨ suppressErrors (cfg s) = true ∨ found_handlers E s ≠ [] →
  fst (emit (S fuel) E args s)
  = Ok (supportsWildcards (cfg s) || negb (bool_decide (found_handlers E s = [])))
  ∧ (supportsWildcards (cfg s) = false → found_handlers E s = handlers_of s E)
  ∧ (supportsWildcards (cfg s) = true → found_handlers E s = findWildcardHandlers E s).
Proof.
  cbv zeta. intros _ _ Hs Hnt Herr.
  pose proof (fixed_fields_run fuel0 ops (new_EventEmitter settings)) as Hfix.
  unfold fixed_fields in Hfix. injection Hfix as _ Hg Hgi.
  pose proof (registry_ok_run fuel0 ops _ (registry_ok_new settings)) as Hok.
  set (s := run_ops fuel0 ops (new_EventEmitter settings)) in *.
  assert (Hflat : supportsWildcards (cfg s) = false → found_handlers E s = handlers_of s E).
  { intros Hw. unfold found_handlers, resolve, handlers_of. rewrite Hw.
    by destruct (eventHandlers s !! E) as [[v|a]|]. }
  assert (Hwild : supportsWildcards (cfg s) = true →
                  found_handlers E s = findWildcardHandlers E s).
  { intros Hw. unfold found_handlers, resolve. by rewrite Hw. }
  split; [|done].
  destruct (supportsWildcards (cfg s)) eqn:Hw; cbn [orb].
  - rewrite Hwild in * by done. rewrite emit_found_sync_users by done. by rewrite Hnt.
  - rewrite Hflat in * by done.
    destruct (decide (handlers_of s E = [])) as [Hemp|Hne].
    + rewrite bool_decide_eq_true_2 by done. cbn [negb].
      unfold emit, resolve. rewrite bind_get, Hw, Hg, Hgi.
      rewrite !bool_decide_eq_true_2 by done. msimpl.
      pose proof Hemp as Hemp'. unfold handlers_of in Hemp.
      destruct (eventHandlers s !! E) as [[v|a]|] eqn:He; [done| |].
      * destruct (Hok E a He) as ((l & Hl & Hn) & _). rewrite Hl in Hemp. done.
      * cbn [resolved_falsy]. destruct Herr as [Herr|[Herr|Herr]]; [| |by destruct Herr].
        -- by rewrite bool_decide_eq_false_2.
        -- rewrite Herr. by rewrite andb_false_r.
    + rewrite bool_decide_eq_false_2 by done. cbn [negb].
      rewrite emit_flat_sync_users by done. by rewrite Hnt.
Qed.

(** ** The patterns of the wildcard tree *)

Lemma child_set_child_ne t k c k' : k' ≠ k → child (set_child t k c) k' = child t k'.
Proof. intros Hne. destruct t. cbn. by apply lookup_insert_ne. Qed.

Lemma child_add_listener w t k : child (add_listener w t) k = child t k.
Proof. by destruct t. Qed.

Lemma child_empty k : child empty_node k = None.
Proof. apply lookup_empty. Qed.

Lemma listeners_set_child t k c : node_listeners (set_child t k c) = node_listeners t.
Proof. by destruct t. Qed.

Lemma elem_of_add_listener w t x :
  truthy w = true →
  x ∈ slot_values (node_listeners (add_listener w t))
  ↔ x ∈ slot_values (node_listeners t) ∨ x = w.
Proof.
  intros Hw. destruct t as [[|v|l] cs]; cbn.
  - rewrite Hw, list_elem_of_singleton, elem_of_nil. tauto.
  - destruct (truthy v); cbn; [|rewrite Hw];
      rewrite ?elem_of_cons, ?elem_of_nil; tauto.
  - rewrite elem_of_app, list_elem_of_singleton. tauto.
Qed.

Lemma traverse_nil t b : traverse [] t b = slot_values (node_listeners t).
Proof. done. Qed.

Lemma traverse_cons_deep e r t :
  traverse (e :: r) t true = traverse_level (traverse r) e t (λ _, []).
Proof. done. Qed.

(** What [traverse] finds below a node, by the three ways down. *)
Lemma elem_of_traverse_cons x e r t b :
  x ∈ traverse (e :: r) t b ↔
    (∃ c, child t e = Some c ∧ x ∈ traverse r c false)
    ∨ (∃ c, child t "*" = Some c ∧ x ∈ traverse r c false)
    ∨ (∃ dd, child t "**" = Some dd ∧
         (x ∈ traverse [] dd false ∨ x ∈ traverse r dd true
          ∨ (b = false ∧ x ∈ traverse (e :: r) dd true))).
Proof.
  cbn [traverse]. unfold traverse_level at 1. rewrite !elem_of_app.
  assert (H1 : ∀ k, x ∈ match child t k with
                        | Some c => traverse r c false
                        | None => []
                        end
                    ↔ ∃ c, child t k = Some c ∧ x ∈ traverse r c false).
  { intros k. destruct (child t k) as [c|].
    - split; [by eauto|]. by intros (c' & [= <-] & ?).
    - rewrite elem_of_nil. split; [done|]. by intros (c' & [=] & ?). }
  rewrite !H1. clear H1.
  destruct (child t "**") as [dd|].
  2:{ rewrite elem_of_nil. split; [tauto|]. intros [?|[?|(dd' & [=] & _)]]; tauto. }
  rewrite !elem_of_app. split.
  - intros [H|[H|[H|[H|H]]]]; [by left|by right; left|right; right; exists dd..];
      (split; [done|]); [by left|by right; left|].
    destruct b; [by apply elem_of_nil in H|]. right. right. done.
  - intros [H|[H|(dd' & [= <-] & [H|[H|[-> H]]])]]; [by left|by right; left|right; right..].
    + by left.
    + by right; left.
    + by right; right.
Qed.

Lemma traverse_add_listener_cons w t e r b :
  traverse (e :: r) (add_listener w t) b = traverse (e :: r) t b.
Proof. by destruct t. Qed.

Lemma elem_of_traverse_add_listener w t es b x :
  truthy w = true →
  x ∈ traverse es (add_listener w t) b ↔ x ∈ traverse es t b ∨ (es = [] ∧ x = w).
Proof.
  intros Hw. destruct es as [|e r].
  - rewrite !traverse_nil, elem_of_add_listener by done. naive_solver.
  - rewrite traverse_add_listener_cons. naive_solver.
Qed.

Lemma elem_of_traverse_leaf w es b x :
  truthy w = true →
  x ∈ traverse es (add_listener w empty_node) b ↔ es = [] ∧ x = w.
Proof.
  intros Hw. rewrite elem_of_traverse_add_listener, traverse_empty, elem_of_nil by done.
  tauto.
Qed.

Lemma segment_match_spec p e k :
  p ≠ "**" →
  (k = e ∨ k = "*") ∧ k = p ↔ segment_match p e = true ∧ k = p.
Proof.
  intros Hp. unfold segment_match. rewrite orb_true_iff, !bool_decide_eq_true.
  naive_solver.
Qed.

(** Below a segment of the pattern that is not [**]. *)
Lemma elem_of_traverse_step deep p rest w es b x :
  p ≠ "**" →
  x ∈ traverse es (add_path deep (p :: rest) w empty_node) b ↔
    ∃ e r, es = e :: r ∧ segment_match p e = true ∧
      x ∈ traverse r
            (add_path deep rest w
               (match rest with [] => add_listener w empty_node | _ => empty_node end))
            false.
Proof.
  intros Hp. cbn [add_path].
  rewrite bool_decide_eq_false_2, andb_false_r by done.
  rewrite child_empty. cbn [default].
  set (sub := add_path deep rest w _).
  destruct es as [|e r].
  { rewrite traverse_nil, listeners_set_child. cbn. rewrite elem_of_nil.
    split; [done|]. by intros (e & r & [=] & _). }
  assert (Hrhs : (∃ e0 r0, e :: r = e0 :: r0 ∧ segment_match p e0 = true
                           ∧ x ∈ traverse r0 sub false)
                 ↔ segment_match p e = true ∧ x ∈ traverse r sub false).
  { split; [by intros (e0 & r0 & [= <- <-] & ?)|]. intros [? ?]. by eexists _, _. }
  rewrite Hrhs, elem_of_traverse_cons. unfold segment_match.
  rewrite orb_true_iff, !bool_decide_eq_true.
  rewrite (child_set_child_ne _ _ _ "**"), child_empty by done.
  destruct (decide (e = p)) as [->|Hne], (decide (p = "*")) as [->|Hs];
    rewrite ?child_set_child, ?child_set_child_ne, ?child_empty by done;
    naive_solver.
Qed.

Lemma star_match_cons p ps e es :
  star_match (p :: ps) (e :: es) = segment_match p e && star_match ps es.
Proof. done. Qed.

Lemma prefix_match_cons p ps e es :
  prefix_match (p :: ps) (e :: es) = segment_match p e && prefix_match ps es.
Proof. done. Qed.

(** Patterns without [**]. *)
Lemma elem_of_traverse_star deep w x : ∀ ps es b,
  truthy w = true → ps ≠ [] → "**" ∉ ps →
  x ∈ traverse es (add_path deep ps w empty_node) b ↔ star_match ps es = true ∧ x = w.
Proof.
  induction ps as [|p rest IH]; intros es b Hw Hne Hdd; [done|].
  apply not_elem_of_cons in Hdd as [Hp Hdd].
  rewrite elem_of_traverse_step by done.
  destruct rest as [|p' rest'].
  - cbn [add_path]. split.
    + intros (e & r & -> & Hm & Hx). apply elem_of_traverse_leaf in Hx as [-> ->]; [|done].
      cbn. by rewrite Hm.
    + intros [Hm ->]. destruct es as [|e [|]]; cbn in Hm; try done.
      * exists e, []. rewrite andb_true_r in Hm.
        split; [done|]. split; [done|]. by apply elem_of_traverse_leaf.
      * by rewrite andb_false_r in Hm.
  - split.
    + intros (e & r & -> & Hm & Hx). apply IH in Hx as [Hr ->]; [|done..].
      by rewrite star_match_cons, Hm, Hr.
    + intros [Hm ->]. destruct es as [|e r]; [done|]. rewrite star_match_cons in Hm.
      apply andb_true_iff in Hm as [Hm Hr]. exists e, r.
      split; [done|]. split; [done|]. by apply IH.
Qed.

(** The segments of a pattern before its first [**]. *)
Lemma elem_of_traverse_prefix deep w x tail : ∀ pre es b,
  truthy w = true → tail ≠ [] → "**" ∉ pre →
  x ∈ traverse es (add_path deep (pre ++ tail) w empty_node) b ↔
    prefix_match pre es = true ∧
    x ∈ traverse (drop (length pre) es) (add_path deep tail w empty_node)
          (match pre with [] => b | _ => false end).
Proof.
  induction pre as [|p pre IH]; intros es b Hw Hne Hdd.
  { cbn. naive_solver. }
  apply not_elem_of_cons in Hdd as [Hp Hdd].
  cbn [app]. rewrite elem_of_traverse_step by done.
  assert (Hrest : match pre ++ tail with
                  | [] => add_listener w empty_node | _ => empty_node end = empty_node).
  { destruct pre; [by destruct tail|done]. }
  rewrite Hrest. split.
  - intros (e & r & -> & Hm & Hx). apply IH in Hx as [Hr Hx]; [|done..].
    rewrite prefix_match_cons, Hm, Hr. cbn [length drop]. split; [done|].
    by destruct pre.
  - intros [Hm Hx]. destruct es as [|e r]; [done|]. rewrite prefix_match_cons in Hm.
    apply andb_true_iff in Hm as [Hm Hr]. exists e, r.
    split; [done|]. split; [done|]. apply IH; [done..|]. split; [done|].
    cbn [length drop] in Hx. by destruct pre.
Qed.

(** A tree that holds one handler only: what is found is that handler, or
    nothing. *)
Lemma dedup_only w l :
  Forall (λ v, v = w) l → dedup l = if bool_decide (w ∈ l) then [w] else [].
Proof.
  intros Hl. destruct l as [|v l].
  - by rewrite bool_decide_eq_false_2 by apply not_elem_of_nil.
  - pose proof Hl as Hl'. apply Forall_cons in Hl' as [-> _].
    rewrite bool_decide_eq_true_2 by apply list_elem_of_here. by apply dedup_all_same.
Qed.

Lemma only_pattern_tree ps w : only w (pattern_tree ps w).
Proof. apply only_add_path, only_empty. Qed.

(** ** One pattern *)

(** An emitter with wildcards on which one handler was registered: [emit]
    finds it or nothing, and runs what it finds. *)
Lemma one_pattern settings fuel P h E args :
  is_internal_event P = false →
  is_sync_user h = true →
  let s0 := new_EventEmitter (with_wildcards true settings) in
  let s := snd (on fuel P h no_options s0) in
  let found := if bool_decide (h ∈ traverse (split E (delimiter (cfg s0)))
                                     (pattern_tree (split P (delimiter (cfg s0))) h) false)
               then [h] else [] in
  findWildcardHandlers E s = found
  ∧ calls (snd (emit 1 E args s)) = map (λ h, (h, args)) found.
Proof.
  intros HP Hh. cbv zeta.
  rewrite on_wildcard; [|by apply sync_user_not_async|done..]. cbn [snd].
  set (s0 := new_EventEmitter (with_wildcards true settings)).
  set (s := set_wildcardTree _ s0).
  assert (Hfound : findWildcardHandlers E s
    = if bool_decide (h ∈ traverse (split E (delimiter (cfg s0)))
                            (pattern_tree (split P (delimiter (cfg s0))) h) false)
      then [h] else []).
  { unfold findWildcardHandlers, findWildcardHandlers_parts.
    apply dedup_only, only_traverse, only_pattern_tree. }
  split; [done|].
  rewrite emit_found_sync_users; [|done..|].
  2:{ rewrite Hfound. destruct (bool_decide _); by repeat constructor. }
  cbn [snd]. rewrite Hfound. destruct (bool_decide _); [|done].
  by rewrite sync_user_prefix.
Qed.

Lemma includes_deep ps pre post :
  ps = pre ++ "**" :: post → includes "*" ps || includes "**" ps = true.
Proof.
  intros ->. apply orb_true_iff. right. apply bool_decide_eq_true.
  apply elem_of_app. right. apply list_elem_of_here.
Qed.

(** X14: patterns without [**].  A handler registered on a new emitter
    with wildcards for a pattern whose segments do not include [**] is found
    (and run once) for an event exactly when the event has as many segments
    as the pattern and each segment of the pattern is [*] or equal to the
    segment of the event at the same place.  The segments of the pattern
    and of the event are keys of their own in a node ([plain_name]). *)
Theorem X14_a_star_stands_for_one_segment settings fuel P h E args :
  let s0 := new_EventEmitter (with_wildcards true settings) in
  let ps := split P (delimiter (cfg s0)) in
  let es := split E (delimiter (cfg s0)) in
  plain_name (cfg s0) P = true → plain_name (cfg s0) E = true →
  is_internal_event P = false →
  is_sync_user h = true →
  ps ≠ [] → "**" ∉ ps →
  let s := snd (on fuel P h no_options s0) in
  findWildcardHandlers E s = (if star_match ps es then [h] else [])
  ∧ calls (snd (emit 1 E args s)) = (if star_match ps es then [(h, args)] else []).
Proof.
  cbv zeta. intros _ _ HP Hh Hne Hdd.
  destruct (one_pattern settings fuel P h E args HP Hh) as [-> ->].
  pose proof (elem_of_traverse_star
                (includes "*" (split P (delimiter (cfg (new_EventEmitter
                   (with_wildcards true settings)))))
                 || includes "**" (split P (delimiter (cfg (new_EventEmitter
                   (with_wildcards true settings))))))
                h h _ (split E (delimiter (cfg (new_EventEmitter
                   (with_wildcards true settings))))) false
                (sync_user_truthy h Hh) Hne Hdd) as Hiff.
  fold (pattern_tree (split P (delimiter (cfg (new_EventEmitter
          (with_wildcards true settings))))) h) in Hiff.
  destruct (star_match _ _).
  - rewrite bool_decide_eq_true_2 by by apply Hiff. done.
  - rewrite bool_decide_eq_false_2; [done|]. intros Hin. by apply Hiff in Hin as [? _].
Qed.

Lemma elem_of_traverse_deep_leaf w es b x :
  truthy w = true →
  x ∈ traverse es (add_path true ["**"] w empty_node) b ↔ x = w.
Proof.
  intros Hw. split.
  - intros Hx. pose proof (only_traverse w es _ b (only_add_path w true ["**"] _ (only_empty w))) as Ho.
    rewrite Forall_forall in Ho. by apply Ho.
  - intros ->. cbn [add_path andb]. rewrite bool_decide_eq_true_2 by done. cbv iota.
    rewrite child_add_listener, child_empty. cbn [default].
    destruct es as [|e r].
    + rewrite traverse_nil, listeners_set_child. apply elem_of_add_listener; [done|]. by right.
    + apply elem_of_traverse_cons. right. right. eexists. split; [apply child_set_child|].
      left. by apply elem_of_traverse_leaf.
Qed.

(** X15: a pattern that ends with [**] and has no other [**] matches
    the events whose first segments match the segments before [**], one by
    one; any number of segments may follow, none included.  The segments of
    the pattern and of the event are keys of their own in a node. *)
Theorem X15_a_last_double_star_stands_for_the_rest settings fuel P h E args pre :
  let s0 := new_EventEmitter (with_wildcards true settings) in
  let es := split E (delimiter (cfg s0)) in
  plain_name (cfg s0) P = true → plain_name (cfg s0) E = true →
  is_internal_event P = false →
  is_sync_user h = true →
  split P (delimiter (cfg s0)) = pre ++ ["**"] → "**" ∉ pre →
  let s := snd (on fuel P h no_options s0) in
  findWildcardHandlers E s = (if prefix_match pre es then [h] else [])
  ∧ calls (snd (emit 1 E args s)) = (if prefix_match pre es then [(h, args)] else []).
Proof.
  cbv zeta. intros _ _ HP Hh Hps Hdd.
  destruct (one_pattern settings fuel P h E args HP Hh) as [-> ->].
  unfold pattern_tree. rewrite !Hps. rewrite (includes_deep _ pre []) by done.
  pose proof (elem_of_traverse_prefix true h h ["**"] pre
                (split E (delimiter (cfg (new_EventEmitter
                   (with_wildcards true settings))))) false
                (sync_user_truthy h Hh) ltac:(done) Hdd) as Hiff.
  rewrite elem_of_traverse_deep_leaf in Hiff by by apply sync_user_truthy.
  destruct (prefix_match _ _).
  - rewrite bool_decide_eq_true_2 by by apply Hiff. done.
  - rewrite bool_decide_eq_false_2; [done|]. intros Hin. by apply Hiff in Hin as [? _].
Qed.

Lemma star_match_prefix : ∀ pre es,
  star_match pre es = true → prefix_match pre es = true ∧ drop (length pre) es = [].
Proof.
  induction pre as [|p pre IH]; intros [|e es] Hm; try done.
  rewrite star_match_cons in Hm. apply andb_true_iff in Hm as [Hm Hr].
  destruct (IH es Hr) as [Hp Hd]. by rewrite prefix_match_cons, Hm, Hp.
Qed.

(** X16: [addToWildcardTree] also stores the handler at the level
    where a [**] of its pattern starts.  The segments before the first [**]
    therefore are a pattern of their own: an event with as many segments that
    matches them segment by segment runs the handler, whatever follows [**]
    in the pattern.  The segments of the pattern and of the event are keys
    of their own in a node. *)
Theorem X16_the_segments_before_a_double_star_match_alone settings fuel P h E args pre post :
  let s0 := new_EventEmitter (with_wildcards true settings) in
  let es := split E (delimiter (cfg s0)) in
  plain_name (cfg s0) P = true → plain_name (cfg s0) E = true →
  is_internal_event P = false →
  is_sync_user h = true →
  split P (delimiter (cfg s0)) = pre ++ "**" :: post → "**" ∉ pre →
  star_match pre es = true →
  let s := snd (on fuel P h no_options s0) in
  findWildcardHandlers E s = [h]
  ∧ calls (snd (emit 1 E args s)) = [(h, args)].
Proof.
  cbv zeta. intros _ _ HP Hh Hps Hdd Hm.
  destruct (one_pattern settings fuel P h E args HP Hh) as [-> ->].
  unfold pattern_tree. rewrite !Hps. rewrite (includes_deep _ pre post) by done.
  rewrite bool_decide_eq_true_2; [done|].
  apply elem_of_traverse_prefix; [by apply sync_user_truthy|done|done|].
  destruct (star_match_prefix _ _ Hm) as [Hp ->]. split; [done|].
  rewrite traverse_nil. cbn [add_path andb]. rewrite bool_decide_eq_true_2 by done.
  cbv iota. rewrite listeners_set_child. apply elem_of_add_listener.
  - by apply sync_user_truthy.
  - by right.
Qed.

(** ** Several patterns *)

Lemma child_add_path deep part rest w t k :
  child (add_path deep (part :: rest) w t) k
  = if decide (k = part)
    then Some (add_path deep rest w
                 (match rest with
                  | [] => add_listener w (default empty_node (child t part))
                  | _ => default empty_node (child t part)
                  end))
    else child t k.
Proof.
  cbn [add_path]. destruct (deep && bool_decide (part = "**"));
    rewrite ?child_add_listener; (case_decide as Hk; [subst k|]);
    rewrite ?child_set_child, ?child_set_child_ne, ?child_add_listener by done; done.
Qed.

Lemma listeners_add_path deep part rest w t :
  node_listeners (add_path deep (part :: rest) w t)
  = node_listeners (if deep && bool_decide (part = "**") then add_listener w t else t).
Proof. cbn [add_path]. by rewrite listeners_set_child. Qed.



Lemma slot_values_add_listener w t x :
  x ∈ slot_values (node_listeners t) → x ∈ slot_values (node_listeners (add_listener w t)).
Proof.
  destruct t as [[|v|l] cs]; cbn.
  - by intros ?%elem_of_nil.
  - destruct (truthy v); cbn; [|by intros ?%elem_of_nil].
    intros ->%list_elem_of_singleton. apply list_elem_of_here.
  - intros Hx. apply elem_of_app. by left.
Qed.

Lemma traverse_add_listener_mono w t es b x :
  x ∈ traverse es t b → x ∈ traverse es (add_listener w t) b.
Proof.
  destruct es as [|e r].
  - rewrite !traverse_nil. apply slot_values_add_listener.
  - by rewrite traverse_add_listener_cons.
Qed.

(** A registration takes nothing away, whatever is registered. *)
Lemma traverse_add_path_mono deep w x : ∀ ps t es b,
  x ∈ traverse es t b → x ∈ traverse es (add_path deep ps w t) b.
Proof.
  induction ps as [|part rest IH]; intros t es b Hx; [done|].
  assert (Hsub : ∀ es' b' c, child t part = Some c → x ∈ traverse es' c b' →
    x ∈ traverse es' (add_path deep rest w
                        (match rest with
                         | [] => add_listener w (default empty_node (child t part))
                         | _ => default empty_node (child t part)
                         end)) b').
  { intros es' b' c Hc Hin. apply IH. rewrite Hc. cbn [default].
    destruct rest; [by apply traverse_add_listener_mono|done]. }
  assert (Hchild : ∀ (G : node → Prop) k,
    (∀ c, child t part = Some c → G c →
          G (add_path deep rest w
               (match rest with
                | [] => add_listener w (default empty_node (child t part))
                | _ => default empty_node (child t part)
                end))) →
    (∃ c, child t k = Some c ∧ G c) →
    ∃ c, child (add_path deep (part :: rest) w t) k = Some c ∧ G c).
  { intros G k HG (c & Hc & Hg). rewrite child_add_path. case_decide as Hk.
    - subst k. eexists. split; [done|]. by eapply HG.
    - by exists c. }
  destruct es as [|e r].
  - rewrite !traverse_nil, listeners_add_path in *.
    destruct (deep && _); [by apply slot_values_add_listener|done].
  - apply elem_of_traverse_cons in Hx. apply elem_of_traverse_cons.
    destruct Hx as [Hx|[Hx|Hx]].
    + left. revert Hx. apply (Hchild (λ c, x ∈ traverse r c false)). intros c. apply Hsub.
    + right. left. revert Hx. apply (Hchild (λ c, x ∈ traverse r c false)).
      intros c. apply Hsub.
    + right. right. revert Hx.
      apply (Hchild (λ dd, x ∈ traverse [] dd false ∨ x ∈ traverse r dd true
                           ∨ (b = false ∧ x ∈ traverse (e :: r) dd true))).
      intros c Hc [H|[H|[Hb H]]]; [left|right; left|right; right; split; [done|]];
        by eapply Hsub.
Qed.

Lemma beside_wildcardTree : beside_handlers wildcardTree.
Proof. by repeat split. Qed.

(** The tree after [on]: as it was, or with one more path. *)
Lemma on_tree fuel E h options s (P : node → Prop) :
  P (wildcardTree s) →
  (∀ deep ps p, P (add_path deep ps p (wildcardTree s))) →
  P (wildcardTree (snd (on fuel E h options s))).
Proof.
  intros Hsame Hadd. pose proof beside_wildcardTree as Hb.
  unfold on. cbv zeta.
  pose proof (keeps_prepareHandler wildcardTree h options ltac:(done) s) as Hp.
  unfold bind at 1. destruct (prepareHandler h options s) as [[p|e|] s1]; cbn [snd] in *;
    [|by rewrite Hp..].
  destruct (is_internal_event E); [by rewrite <- Hp in Hsame|]. rewrite bind_get.
  pose proof (keeps_when wildcardTree (notifyNewListener (cfg s1)) _
    (keeps_emitInternal wildcardTree (call fuel) (keeps_call wildcardTree Hb fuel)
       "newListener" [VStr E; h]) s1) as He.
  unfold bind at 1.
  destruct (when _ _ s1) as [[[]|e|] s2]; cbn [snd] in *; [|by rewrite He, Hp..].
  rewrite snd_bind_ret.
  destruct (supportsWildcards (cfg s1)).
  { unfold addToWildcardTree. rewrite bind_get. unfold modify.
    cbn [snd wildcardTree set_wildcardTree]. rewrite He, Hp. apply Hadd. }
  rewrite (keeps_register wildcardTree) by done. by rewrite He, Hp.
Qed.

Lemma step_finds_more fuel s o E x :
  x ∈ findWildcardHandlers E s → x ∈ findWildcardHandlers E (step fuel s o).
Proof.
  pose proof beside_wildcardTree as Hb.
  pose proof (fixed_fields_step fuel s o) as Hc. unfold fixed_fields in Hc.
  injection Hc as Hc _ _.
  unfold findWildcardHandlers, findWildcardHandlers_parts. rewrite Hc, !elem_of_dedup.
  assert (Hon : ∀ fuel E' h o s,
    x ∈ traverse (split E (delimiter (cfg s))) (wildcardTree s) false →
    x ∈ traverse (split E (delimiter (cfg s))) (wildcardTree (snd (on fuel E' h o s))) false).
  { clear. intros fuel E' h o s Hx.
    apply (on_tree fuel E' h o s
             (λ t, x ∈ traverse (split E (delimiter (cfg s))) t false)); [done|].
    intros deep ps p. by apply traverse_add_path_mono. }
  assert (Hlim : ∀ E' t h o,
    x ∈ traverse (split E (delimiter (cfg s))) (wildcardTree s) false →
    x ∈ traverse (split E (delimiter (cfg s)))
          (wildcardTree (snd (limitedTimes fuel E' t h o s))) false).
  { intros E' t h o' Hx. unfold limitedTimes. destruct (negb _); [done|].
    unfold fresh. msimpl.
    exact (Hon fuel E' _ o'
             (set_counters <[next_id s:=t]> (set_next_id (S (next_id s)) s)) Hx). }
  destruct o; cbn [step].
  - apply Hon.
  - apply Hlim.
  - apply Hlim.
  - by rewrite (keeps_off_ wildcardTree Hb).
  - by rewrite (keeps_emit wildcardTree Hb).
  - by rewrite (keeps_emitAsync wildcardTree Hb).
  - done.
Qed.

(** X19: the tree only grows.  What [emit] finds for an event it still
    finds after any sequence of operations: with wildcards neither [off] nor
    the closures of [once] and [limitedTimes] take a handler out.  The
    emitter is one reached by operations on names whose segments are keys
    of their own, and so are the operations and the event. *)
Theorem X19_with_wildcards_nothing_is_unregistered fuel ops s E x :
  reachable s →
  forallb (plain_op (cfg s)) ops = true →
  plain_name (cfg s) E = true →
  x ∈ findWildcardHandlers E s → x ∈ findWildcardHandlers E (run_ops fuel ops s).
Proof.
  intros _ _ _. revert s. unfold run_ops. induction ops as [|o ops IH]; intros s Hx; [done|].
  cbn [fold_left]. by apply IH, step_finds_more.
Qed.

(** ** The Set-based emitter *)

(** X22: [dispatch] of the Set-based emitter logs with [console.error]
    what the listeners of the type throw, one line for each listener that
    throws, in the order of the calls, and nothing for the others (a promise
    that an [async] listener rejects is not caught); [propagate] is
    [dispatch]. *)
Theorem X22_dispatch_logs_what_is_thrown type payload e :
  Dispatch.errors (snd (Dispatch.dispatch type payload e))
  = Dispatch.errors e ++ omap logged (Dispatch.set_of e type)
  ∧ Dispatch.propagate type payload e = Dispatch.dispatch type payload e.
Proof.
  split; [|done].
  unfold Dispatch.dispatch, Dispatch.lookup, Dispatch.set_of.
  destruct (Dispatch.listeners e !! type) as [set|]; cbn [snd default].
  - apply fold_invoke_errors.
  - destruct (inherited type); cbn [snd omap]; by rewrite app_nil_r.
Qed.

Lemma set_of_step_other e o type l :
  match o with
  | Dispatch.Add t l' | Dispatch.Remove t l' => ¬ (t = type ∧ l' = l)
  | Dispatch.Fire _ _ => True
  end →
  l ∈ Dispatch.set_of (Dispatch.step e o) type ↔ l ∈ Dispatch.set_of e type.
Proof.
  destruct o as [t l'|t l'|t p]; cbn [Dispatch.step]; intros Hne.
  - destruct (Dispatch.lookup e t) eqn:Hlk.
    2:{ unfold Dispatch.addEventListener. by rewrite Hlk. }
    all: assert (Hi : Dispatch.lookup e t ≠ Dispatch.Inherited) by by rewrite Hlk.
    all: clear Hlk.
    all: destruct (decide (t = type)) as [->|Ht].
    1,3: rewrite set_of_add by done; rewrite elem_of_set_add; naive_solver.
    all: unfold Dispatch.set_of, Dispatch.addEventListener;
      destruct (Dispatch.lookup e t); cbn [snd Dispatch.listeners]; [|done|];
        by rewrite lookup_insert_ne.
  - destruct (decide (t = type)) as [->|Ht].
    + rewrite set_of_remove, elem_of_set_delete. naive_solver.
    + unfold Dispatch.set_of, Dispatch.removeEventListener.
      destruct (Dispatch.lookup e t); cbn [snd Dispatch.listeners]; [|done..].
      by rewrite lookup_insert_ne.
  - by destruct (dispatch_spec t p e) as [Hl _]; unfold Dispatch.set_of; rewrite Hl.
Qed.

(** X23: in the Set-based emitter a listener is registered for a type
    after a sequence of operations exactly when the type is not a name that
    [listeners] inherits from [Object.prototype] and the last of the
    [addEventListener] and [removeEventListener] for this type and listener
    is an [addEventListener]; [dispatch] then calls it once, and not at all
    otherwise.  (For an inherited name [addEventListener] throws and nothing
    is ever registered.) *)
Theorem X23_registered_when_added_last ops type l payload :
  let e := Dispatch.run ops in
  let registered := added_last type l ops && negb (inherited type) in
  (l ∈ Dispatch.set_of e type ↔ registered = true)
  ∧ Dispatch.invocations l type (Dispatch.called (snd (Dispatch.dispatch type payload e)))
    = (Dispatch.invocations l type (Dispatch.called e) + if registered then 1 else 0)%nat.
Proof.
  cbv zeta.
  assert (Hmem : l ∈ Dispatch.set_of (Dispatch.run ops) type
                 ↔ added_last type l ops && negb (inherited type) = true).
  { destruct (inherited type) eqn:Hi.
    { rewrite andb_false_r. unfold Dispatch.set_of. rewrite inherited_run by done.
      cbn. rewrite elem_of_nil. naive_solver. }
    rewrite andb_true_r. unfold Dispatch.run, added_last.
    assert (Hplain : ∀ e, Dispatch.lookup e type ≠ Dispatch.Inherited).
    { intros e [_ ?]%lookup_inherited. congruence. }
    assert (Hgen : ∀ e b, (l ∈ Dispatch.set_of e type ↔ b = true) →
      l ∈ Dispatch.set_of (fold_left Dispatch.step ops e) type
      ↔ fold_left
          (λ b o, match o with
                  | Dispatch.Add t l' => if decide (t = type ∧ l' = l) then true else b
                  | Dispatch.Remove t l' => if decide (t = type ∧ l' = l) then false else b
                  | Dispatch.Fire _ _ => b
                  end) ops b = true).
    { induction ops as [|o ops IH]; intros e b Hb; [done|].
      cbn [fold_left]. apply IH.
      destruct o as [t l'|t l'|t p].
      - case_decide as Hd.
        + destruct Hd as [-> ->]. cbn [Dispatch.step].
          rewrite set_of_add by apply Hplain. rewrite elem_of_set_add.
          naive_solver.
        + by rewrite set_of_step_other.
      - case_decide as Hd.
        + destruct Hd as [-> ->]. cbn [Dispatch.step].
          rewrite set_of_remove, elem_of_set_delete. naive_solver.
        + by rewrite set_of_step_other.
      - by rewrite set_of_step_other. }
    apply Hgen. unfold Dispatch.set_of, Dispatch.new_EventEmitter. cbn.
    rewrite lookup_empty. cbn. rewrite elem_of_nil. naive_solver. }
  split; [done|].
  destruct (dispatch_spec type payload (Dispatch.run ops)) as [_ ->].
  rewrite dispatch_invocations_app. f_equal.
  destruct (added_last type l ops && negb (inherited type)).
  - apply dispatch_invocations_present; [apply sets_ok_set_of, sets_ok_run|by apply Hmem].
  - apply dispatch_invocations_absent. intros Hin. by apply Hmem in Hin.
Qed.

(** X24: [addEventListener] is idempotent for a type that is not a name
    that [listeners] inherits from [Object.prototype]: on any emitter that
    the operations of the class lead to, a listener added for the type once
    or several times is in the Set of the type once, and a dispatch then
    calls it exactly once; after one [removeEventListener] it is not in the
    Set and a dispatch does not call it. *)
Theorem X24_addEventListener_is_idempotent ops type l n payload :
  inherited type = false →
  let e := Dispatch.run ops in
  let e1 := Nat.iter (S n) (λ e, snd (Dispatch.addEventListener type l e)) e in
  let e2 := snd (Dispatch.removeEventListener type l e1) in
  (l ∈ Dispatch.set_of e1 type ∧ NoDup (Dispatch.set_of e1 type))
  ∧ Dispatch.invocations l type (Dispatch.called (snd (Dispatch.dispatch type payload e1)))
    = S (Dispatch.invocations l type (Dispatch.called e1))
  ∧ (l ∉ Dispatch.set_of e2 type)
  ∧ Dispatch.invocations l type (Dispatch.called (snd (Dispatch.dispatch type payload e2)))
    = Dispatch.invocations l type (Dispatch.called e2).
Proof.
  intros Hi e. apply addEventListener_idempotent; [apply sets_ok_run|].
  intros [_ ?]%lookup_inherited. congruence.
Qed.

(** X24, at a listener added three times after another one. *)
Lemma X24_witness :
  let e1 := Nat.iter 3 (λ e, snd (Dispatch.addEventListener "t" listener1 e))
              (Dispatch.run [Dispatch.Add "t" listener2]) in
  Dispatch.set_of e1 "t" = [listener2; listener1]
  ∧ Dispatch.invocations listener1 "t"
      (Dispatch.called (snd (Dispatch.dispatch "t" VNull e1))) = 1%nat
  ∧ Dispatch.invocations listener1 "t"
      (Dispatch.called
         (snd (Dispatch.dispatch "t" VNull
                 (snd (Dispatch.removeEventListener "t" listener1 e1)))))
    = 0%nat.
Proof.
  intros e1.
  destruct (X24_addEventListener_is_idempotent [Dispatch.Add "t" listener2] "t" listener1 2
              VNull eq_refl)
    as (_ & Hone & _ & Hnone).
  split_and!; [reflexivity|exact Hone|exact Hnone].
Defined.

(** ** [once] and the array that [emit] loops over *)

Lemma odds_cons2 {A} (x y : A) l : odds (x :: y :: l) = y :: odds l.
Proof. by destruct l. Qed.

Lemma evens_cons2 {A} (x y : A) l : evens (x :: y :: l) = x :: evens l.
Proof. done. Qed.

Lemma evens_map {A B} (f : A → B) : ∀ n l, (length l ≤ n)%nat → evens (map f l) = map f (evens l).
Proof.
  induction n as [|n IH]; intros [|x [|y l]] Hn; cbn in *; try done; [lia|].
  f_equal. apply IH. lia.
Qed.

Lemma odds_map {A B} (f : A → B) l : odds (map f l) = map f (odds l).
Proof. destruct l as [|x l]; [done|]. unfold odds. cbn [map tail]. by eapply evens_map. Qed.

(** A closure of [once] that is called while it waits in the array of its
    event takes itself out of the array, then runs its handler. *)
Lemma call_once_in_array fuel E a args s id h pre post :
  supportsWildcards (cfg s) = false →
  internalHandlers s !! "removeListener" = None →
  eventHandlers s !! E = Some (Arr a) →
  arrays s !! a = Some (pre ++ VFun (Limited id E h) :: post) →
  Forall (λ x, ¬ matches_target (VFun (Limited id E h)) x ∧ get_listener x ≠ None) pre →
  pre ++ post ≠ [] →
  counters s !! id = Some 1 →
  is_sync_user h = true → throws_of h = None →
  ∃ r, call (S (S fuel)) (VFun (Limited id E h)) args s
       = (Ok r, log [(h, args)]
                  (set_arrays <[a := pre ++ post]> (set_counters <[id := 0]> s))).
Proof.
  intros Hw Hint He Ha Hpre Hne Hc Hh Hnt.
  rewrite call_limited. msimpl. rewrite Hc. change (default 0 (Some 1) - 1) with 0.
  cbv zeta. msimpl. change (0 =? 0) with true. msimpl.
  unfold off, off_flat. msimpl. rewrite Hw. msimpl. rewrite He, Ha.
  change (default [] (Some (pre ++ VFun (Limited id E h) :: post)))
    with (pre ++ VFun (Limited id E h) :: post). rewrite bind_bind.
  rewrite (bind_run _ _ _ _ _ (findIndex_first _ _ _ _ _ Hpre)). cbn [Nat.add].
  rewrite delete_middle. msimpl.
  rewrite bool_decide_eq_false_2 by done. msimpl.
  mrun emitInternal_none; [|done].
  cbv iota. rewrite call_user by by apply is_sync_user_is_user.
  destruct (sync_user_result h Hh) as [_ Hok]. destruct (Hok Hnt) as [r ->].
  by exists r.
Qed.

Lemma forEach_from_beyond a (f : jsval → M unit) l : ∀ m k s,
  arrays s !! a = Some l → (length l ≤ k)%nat →
  forEach_from m k a f s = (Ok tt, s).
Proof.
  induction m as [|m IH]; intros k s Ha Hk; [done|].
  cbn [forEach_from]. rewrite bind_get, Ha. cbn [mbind option_bind].
  rewrite (proj2 (lookup_ge_None l k)) by lia. apply IH; [done|lia].
Qed.

Lemma closures_app E ps qs : closures E (ps ++ qs) = closures E ps ++ closures E qs.
Proof. apply map_app. Qed.

Lemma length_closures E ps : length (closures E ps) = length ps.
Proof. apply length_map. Qed.

Lemma closures_not_target E id h pre :
  id ∉ map fst pre →
  Forall (λ x, ¬ matches_target (VFun (Limited id E h)) x ∧ get_listener x ≠ None)
    (closures E pre).
Proof.
  intros Hid. apply Forall_forall. intros x Hx.
  apply list_elem_of_fmap in Hx as ([id' h'] & -> & Hp). cbn [fst snd].
  split; [|done]. intros [Heq|Heq]; [|done].
  injection Heq as -> ->. apply Hid. apply list_elem_of_fmap. by exists (id, h).
Qed.

(** The loop of [emit] over an array of closures of [once]: each one that is
    run takes itself out, so the one after it moves into its place and is
    passed over. *)
Lemma forEach_from_once fuel E a args : ∀ m pre rest s,
  (length rest ≤ m)%nat →
  supportsWildcards (cfg s) = false →
  internalHandlers s !! "removeListener" = None →
  eventHandlers s !! E = Some (Arr a) →
  arrays s !! a = Some (closures E (pre ++ rest)) →
  NoDup (map fst (pre ++ rest)) →
  Forall (λ p, counters s !! p.1 = Some 1 ∧ is_sync_user p.2 = true
               ∧ throws_of p.2 = None) rest →
  (pre = [] → rest = [] ∨ (2 ≤ length rest)%nat) →
  ∃ s', forEach_from m (length pre) a (λ h, call (S (S fuel)) h args ;;; ret tt) s
        = (Ok tt, s')
    ∧ arrays s' !! a = Some (closures E (pre ++ odds rest))
    ∧ eventHandlers s' = eventHandlers s
    ∧ calls s' = calls s ++ map (λ p, (p.2, args)) (evens rest)
    ∧ cfg s' = cfg s.
Proof.
  induction m as [|m IH]; intros pre rest s Hm Hw Hint He Ha Hnd Hrest Hpre.
  { destruct rest; [|cbn in Hm; lia]. exists s. cbn. by rewrite !app_nil_r in *. }
  destruct rest as [|[id0 h0] rest1].
  { exists s. rewrite (forEach_from_beyond a _ _ _ _ _ Ha).
    - cbn. by rewrite !app_nil_r in *.
    - rewrite length_closures, app_nil_r. lia. }
  apply Forall_cons in Hrest as [(Hc0 & Hs0 & Hn0) Hrest]. cbn [fst snd] in *.
  rewrite map_app in Hnd. cbn [map fst] in Hnd.
  apply NoDup_app in Hnd as (Hnd1 & Hdisj & Hnd2).
  apply NoDup_cons in Hnd2 as [Hid0 Hnd2].
  assert (Hid0' : id0 ∉ map fst pre).
  { intros Hin. apply (Hdisj _ Hin). apply list_elem_of_here. }
  cbn [forEach_from]. rewrite bind_get, Ha. cbn [mbind option_bind].
  rewrite closures_app. cbn [closures map fst snd]. fold (closures E rest1).
  rewrite (list_lookup_middle _ _ _ (length pre)) by by rewrite length_closures.
  rewrite bind_bind.
  destruct (call_once_in_array fuel E a args s id0 h0 (closures E pre) (closures E rest1))
    as [r Hcall]; try done.
  { rewrite Ha, closures_app. done. }
  { by apply closures_not_target. }
  { destruct pre as [|p pre]; [|done]. destruct (Hpre eq_refl) as [|Hlen]; [done|].
    destruct rest1; [cbn in Hlen; lia|done]. }
  mrun Hcall. msimpl1.
  set (s1 := log [(h0, args)]
               (set_arrays <[a:=closures E pre ++ closures E rest1]>
                  (set_counters <[id0:=0]> s))).
  assert (Hrest1 : Forall (λ p, counters s1 !! p.1 = Some 1 ∧ is_sync_user p.2 = true
                                ∧ throws_of p.2 = None) rest1).
  { apply Forall_forall. intros p Hp. rewrite Forall_forall in Hrest.
    destruct (Hrest p Hp) as (Hc & ? & ?). split; [|done].
    cbn. rewrite lookup_insert_ne; [done|]. intros ->. apply Hid0.
    apply list_elem_of_fmap. by exists p. }
  destruct rest1 as [|p1 rest2].
  - exists s1. rewrite (forEach_from_beyond a _ (closures E pre)).
    + split; [done|]. cbn. rewrite lookup_insert_eq, !app_nil_r. done.
    + cbn. by rewrite lookup_insert_eq, app_nil_r.
    + rewrite length_closures. lia.
  - apply Forall_cons in Hrest1 as [Hp1 Hrest2].
    destruct (IH (pre ++ [p1]) rest2 s1) as (s' & Hrun & Harr & Heh & Hcalls & Hcfg).
    + cbn in Hm. lia.
    + done.
    + done.
    + done.
    + unfold s1. cbn [log set_calls arrays set_arrays set_counters].
      rewrite lookup_insert_eq, <- closures_app, <- app_assoc. done.
    + rewrite <- app_assoc. cbn [app]. rewrite map_app. cbn [map] in *.
      apply NoDup_app. split; [done|]. split; [|done].
      intros x Hx Hx'. apply (Hdisj x Hx). by right.
    + done.
    + by destruct pre.
    + exists s'. rewrite length_app in Hrun. cbn [length] in Hrun.
      replace (length pre + 1)%nat with (S (length pre)) in Hrun by lia.
      split; [done|]. rewrite odds_cons2, evens_cons2, Harr, Heh, Hcalls, Hcfg.
      rewrite <- app_assoc. cbn. rewrite <- app_assoc. done.
Qed.

Lemma on_flat_next_id fuel E h s :
  is_async_function h = Some false →
  is_internal_event E = false →
  supportsWildcards (cfg s) = false →
  internalHandlers s !! "newListener" = None →
  (next_id s ≤ next_id (snd (on fuel E h no_options s)))%nat.
Proof.
  intros Hh HE Hw Hint.
  unfold on, prepareHandler. cbn [no_options runAsync opt_useNextTick opt_promisify returnObject].
  rewrite Hh, HE. change (default false None) with false. msimpl.
  mrun emitInternal_none; [|done]. rewrite Hw. msimpl. rewrite snd_bind_ret.
  destruct (eventHandlers s !! E) as [[v|a]|] eqn:He.
  - destruct (truthy v); [|done]. unfold fresh. msimpl.
    match goal with |- context [checkHandlerLimit ?e ?c ?s0] =>
      destruct (checkHandlerLimit_run e c s0) as [ws ->] end.
    cbn. lia.
  - msimpl.
    match goal with |- context [checkHandlerLimit ?e ?c ?s0] =>
      destruct (checkHandlerLimit_run e c s0) as [ws ->] end.
    done.
  - done.
Qed.

Lemma once_flat fuel E h s :
  is_function h = true →
  is_internal_event E = false →
  supportsWildcards (cfg s) = false →
  internalHandlers s !! "newListener" = None →
  Forall (λ v, truthy v = true) (handlers_of s E) →
  ∃ s', once fuel E h no_options s = (Ok This, s')
    ∧ handlers_of s' E = handlers_of s E ++ [VFun (Limited (next_id s) E h)]
    ∧ counters s' = <[next_id s := 1]> (counters s)
    ∧ (next_id s < next_id s')%nat
    ∧ cfg s' = cfg s ∧ internalHandlers s' = internalHandlers s
    ∧ globalHandlers s' = globalHandlers s
    ∧ globalInternalHandlers s' = globalInternalHandlers s
    ∧ calls s' = calls s.
Proof.
  intros Hh HE Hw Hint Ht. unfold once. rewrite limitedTimes_run by done.
  set (s1 := set_counters <[next_id s:=1]> (set_next_id (S (next_id s)) s)).
  destruct (on_flat fuel E (VFun (Limited (next_id s) E h)) s1)
    as (s' & Hon & Hl & Hc & Hi & Hg & Hgi & _ & Hcn & Hcalls & _); try done.
  pose proof (on_flat_next_id fuel E (VFun (Limited (next_id s) E h)) s1
                eq_refl HE Hw Hint) as Hn.
  rewrite Hon in Hn. cbn [snd] in Hn.
  exists s'. split; [done|]. split; [done|]. split; [done|].
  split; [cbn in Hn; lia|]. done.
Qed.

Lemma first_throw_none hs :
  first_throw hs = None → Forall (λ h, throws_of h = None) hs.
Proof.
  induction hs as [|h hs IH]; [constructor|]. cbn [first_throw].
  destruct (throws_of h) eqn:Ht; [done|]. intros Hn. constructor; [done|by apply IH].
Qed.

Lemma wrapped_closures E ps : map wrapped (closures E ps) = map snd ps.
Proof. unfold closures. rewrite <- list_fmap_compose. done. Qed.

(** The closures that several [once] leave in the flat registry of a new
    emitter. *)
Lemma once_each_new settings fuel E hs :
  supportsWildcards (cfg (new_EventEmitter settings)) = false →
  is_internal_event E = false →
  Forall (λ h, is_function h = true) hs →
  let s := once_each fuel E hs (new_EventEmitter settings) in
  ∃ ps, map snd ps = hs
    ∧ handlers_of s E = closures E ps
    ∧ NoDup (map fst ps)
    ∧ Forall (λ p, counters s !! p.1 = Some 1 ∧ (p.1 < next_id s)%nat) ps
    ∧ cfg s = cfg (new_EventEmitter settings)
    ∧ internalHandlers s = ∅ ∧ globalHandlers s = [] ∧ globalInternalHandlers s = []
    ∧ calls s = [].
Proof.
  intros Hw HE. cbv zeta.
  induction hs as [|h hs IH] using rev_ind; intros Hhs.
  { exists []. cbn. rewrite handlers_of_new. by repeat split; try constructor. }
  apply Forall_app in Hhs as [Hhs Hh]. rewrite Forall_singleton in Hh.
  destruct (IH Hhs) as (ps & Hps & Hl & Hnd & Hcs & Hc & Hi & Hg & Hgi & Hcalls).
  unfold once_each. rewrite fold_left_app. cbn [fold_left].
  fold (once_each fuel E hs (new_EventEmitter settings)).
  set (s := once_each fuel E hs (new_EventEmitter settings)) in *.
  destruct (once_flat fuel E h s)
    as (s' & -> & Hl' & Hcn' & Hn' & Hc' & Hi' & Hg' & Hgi' & Hcalls'); try done.
  { by rewrite Hc. }
  { by rewrite Hi. }
  { rewrite Hl. apply Forall_forall. intros x Hx.
    by apply list_elem_of_fmap in Hx as (p & -> & _). }
  cbn [snd]. exists (ps ++ [(next_id s, h)]).
  rewrite !map_app, closures_app, Hps, Hl', Hl, Hc', Hi', Hg', Hgi', Hcalls', Hcn'.
  cbn [map fst snd closures]. split_and!; try done.
  - apply NoDup_app. split; [done|]. split; [|apply NoDup_singleton].
    intros x Hx ->%list_elem_of_singleton.
    apply list_elem_of_fmap in Hx as (p & Hp1 & Hp). rewrite Forall_forall in Hcs.
    destruct (Hcs p Hp) as [_ Hlt]. lia.
  - apply Forall_app. split.
    + apply Forall_forall. intros p Hp. rewrite Forall_forall in Hcs.
      destruct (Hcs p Hp) as [Hc1 Hlt]. rewrite lookup_insert_ne by lia. split; [done|lia].
    + apply Forall_singleton. cbn. rewrite lookup_insert_eq. split; [done|lia].
Qed.

(** X20: [emit] loops over the array of the registry itself while the
    closures of [once] take themselves out of it.  With two or more
    functions registered by [once] for one event of the flat registry, the
    first [emit] runs the first, the third, the fifth, ... of them only; the
    second, the fourth, ... are passed over and stay registered.  The event
    name is a key of its own in the registry. *)
Theorem X20_once_handlers_are_run_every_other_one settings fuel fuel' E hs args :
  supportsWildcards (cfg (new_EventEmitter settings)) = false →
  is_internal_event E = false →
  plain_name (cfg (new_EventEmitter settings)) E = true →
  Forall (λ h, is_sync_user h = true) hs →
  first_throw hs = None →
  (2 ≤ length hs)%nat →
  let s := once_each fuel E hs (new_EventEmitter settings) in
  let r := emit (S (S fuel')) E args s in
  map wrapped (handlers_of s E) = hs
  ∧ fst r = Ok true
  ∧ calls (snd r) = map (λ h, (h, args)) (evens hs)
  ∧ map wrapped (handlers_of (snd r) E) = odds hs.
Proof.
  intros Hw HE _ Hhs Hnt Hlen. cbv zeta.
  destruct (once_each_new settings fuel E hs Hw HE)
    as (ps & Hps & Hl & Hnd & Hcs & Hc & Hi & Hg & Hgi & Hcalls).
  { eapply Forall_impl; [done|]. intros h Hh. by destruct h. }
  set (s := once_each fuel E hs (new_EventEmitter settings)) in *.
  split; [by rewrite Hl, wrapped_closures|].
  assert (Hlen' : (2 ≤ length ps)%nat) by (by rewrite <- (length_map snd), Hps).
  unfold handlers_of in Hl.
  destruct (eventHandlers s !! E) as [[v|a]|] eqn:He.
  { apply (f_equal length) in Hl. rewrite length_closures in Hl. cbn in Hl. lia. }
  2:{ apply (f_equal length) in Hl. rewrite length_closures in Hl. cbn in Hl. lia. }
  destruct (arrays s !! a) as [l|] eqn:Ha; cbn [default] in Hl.
  2:{ apply (f_equal length) in Hl. rewrite length_closures in Hl. cbn in Hl. lia. }
  change (id l) with l in Hl. subst l.
  destruct (forEach_from_once fuel' E a args (length ps) [] ps s)
    as (s' & Hrun & Harr & Heh & Hcalls' & Hcfg); try done.
  { by rewrite Hc. }
  { by rewrite Hi. }
  { apply Forall_forall. intros p Hp. rewrite Forall_forall in Hcs.
    destruct (Hcs p Hp) as [Hc1 _]. split; [done|].
    assert (Hin : p.2 ∈ hs).
    { rewrite <- Hps. apply list_elem_of_fmap. by exists p. }
    rewrite Forall_forall in Hhs. split; [by apply Hhs|].
    pose proof (first_throw_none hs Hnt) as Hq. rewrite Forall_forall in Hq. by apply Hq. }
  { intros _. by right. }
  unfold emit, resolve. rewrite bind_get, Hc, Hw, Hg, Hgi.
  rewrite !bool_decide_eq_true_2 by done. msimpl. rewrite He. cbn [resolved_falsy].
  unfold forEach_stored. msimpl. rewrite Ha. change (default [] (Some ?x)) with x.
  rewrite length_closures.
  cbn [length] in Hrun. mrun Hrun. unfold ret. cbn [fst snd].
  split; [done|]. rewrite Hcalls', Hcalls. cbn [app]. split.
  - rewrite <- Hps, (evens_map snd (length ps)) by done. by rewrite <- list_fmap_compose.
  - unfold handlers_of. rewrite Heh, He, Harr.
    change (map wrapped (closures E (odds ps)) = odds hs).
    by rewrite wrapped_closures, <- Hps, odds_map.
Qed.

(** ** The order of the calls with wildcards *)

Lemma set_child_set_child t k c c' : set_child (set_child t k c) k c' = set_child t k c'.
Proof. destruct t. cbn. by rewrite insert_insert_eq. Qed.

Lemma set_child_commute t k k' c c' :
  k ≠ k' → set_child (set_child t k c) k' c' = set_child (set_child t k' c') k c.
Proof. intros Hne. destruct t. cbn. by rewrite insert_insert_ne. Qed.

(** Adding a path that starts like the one path of the tree. *)
Lemma add_path_below deep h tail : ∀ pre c,
  Forall literal pre → tail ≠ [] →
  add_path deep (pre ++ tail) h (below pre c) = below pre (add_path deep tail h c).
Proof.
  induction pre as [|p pre IH]; intros c Hpre Hne; [done|].
  apply Forall_cons in Hpre as [[_ Hp] Hpre].
  cbn [app add_path below]. rewrite bool_decide_eq_false_2, andb_false_r by done.
  rewrite child_set_child. change (default empty_node (Some (below pre c)))
    with (below pre c). rewrite set_child_set_child.
  replace (match pre ++ tail with
           | [] => add_listener h (below pre c)
           | _ :: _ => below pre c
           end) with (below pre c).
  2:{ destruct pre; [by destruct tail|done]. }
  by rewrite IH.
Qed.

(** What is found below a path of literal segments. *)
Lemma traverse_below es c : ∀ pre b,
  Forall literal pre → pre ≠ [] →
  traverse (pre ++ es) (below pre c) b = traverse es c false.
Proof.
  induction pre as [|p pre IH]; intros b Hpre Hne; [done|].
  apply Forall_cons in Hpre as [[Hs Hd] Hpre].
  cbn [app below traverse]. unfold traverse_level at 1.
  rewrite child_set_child, !child_set_child_ne, !child_empty by done.
  rewrite !app_nil_r. destruct pre as [|p' pre']; [done|]. by apply IH.
Qed.

(** The last level of a pattern and of the same pattern with [*] in the
    place of its last segment. *)
Lemma traverse_exact_and_star x h1 h2 b :
  literal x → truthy h1 = true → truthy h2 = true →
  traverse [x]
    (set_child (set_child empty_node x (add_listener h1 empty_node)) "*"
       (add_listener h2 empty_node)) b
  = [h1; h2].
Proof.
  intros [Hs Hd] H1 H2. cbn [traverse]. unfold traverse_level.
  rewrite (child_set_child_ne _ _ _ x) by done.
  rewrite (child_set_child_ne _ _ _ "**"), (child_set_child_ne _ _ _ "**") by done.
  rewrite !child_set_child, child_empty. cbn. by rewrite H1, H2.
Qed.

Lemma add_path_new deep h tail : ∀ pre,
  Forall literal pre → tail ≠ [] →
  add_path deep (pre ++ tail) h empty_node = below pre (add_path deep tail h empty_node).
Proof.
  induction pre as [|p pre IH]; intros Hpre Hne; [done|].
  apply Forall_cons in Hpre as [[_ Hp] Hpre].
  cbn [app add_path below]. rewrite bool_decide_eq_false_2, andb_false_r by done.
  rewrite child_empty. change (default empty_node None) with empty_node.
  replace (match pre ++ tail with
           | [] => add_listener h empty_node
           | _ :: _ => empty_node
           end) with empty_node.
  2:{ destruct pre; [by destruct tail|done]. }
  by rewrite IH.
Qed.

Lemma traverse_below_literal es c : ∀ pre,
  Forall literal pre →
  traverse (pre ++ es) (below pre c) false = traverse es c false.
Proof.
  induction pre as [|p pre IH]; intros Hpre; [done|].
  apply Forall_cons in Hpre as [[Hs Hd] Hpre].
  cbn [app below traverse]. unfold traverse_level at 1.
  rewrite child_set_child, !child_set_child_ne, !child_empty by done.
  rewrite !app_nil_r. by apply IH.
Qed.

Lemma add_path_last deep x h t :
  x ≠ "**" → child t x = None →
  add_path deep [x] h t = set_child t x (add_listener h empty_node).
Proof.
  intros Hx Hc. cbn [add_path]. rewrite bool_decide_eq_false_2, andb_false_r by done.
  by rewrite Hc.
Qed.

(** The tree after [on] for a pattern and for the same pattern with [*] as
    its last segment, in either order. *)
Lemma exact_and_star_tree deep1 deep2 pre x h1 h2 :
  Forall literal pre → literal x →
  let both := below pre (set_child (set_child empty_node x (add_listener h1 empty_node))
                           "*" (add_listener h2 empty_node)) in
  add_path deep2 (pre ++ ["*"]) h2 (add_path deep1 (pre ++ [x]) h1 empty_node) = both
  ∧ add_path deep1 (pre ++ [x]) h1 (add_path deep2 (pre ++ ["*"]) h2 empty_node) = both.
Proof.
  intros Hpre [Hs Hd]. cbv zeta.
  rewrite !add_path_new, !add_path_below by done.
  rewrite !(add_path_last _ _ _ empty_node) by (done || apply child_empty).
  rewrite !add_path_last; [|done|by rewrite child_set_child_ne, child_empty
                           |done|by rewrite child_set_child_ne, child_empty].
  split; [done|]. by rewrite set_child_commute.
Qed.

Lemma calls_log l s : calls (log l s) = calls s ++ l.
Proof. done. Qed.

(** X18: with wildcards the order of the calls is the order in which
    [traverse] visits the tree, not the order of registration: the handler
    of a name is run before the handler of the same name with [*] as its
    last segment, whichever was registered first (and the second one is not
    run when the first one throws).  The segments of the names are keys of
    their own in a node. *)
Theorem X18_an_exact_segment_goes_before_a_star settings fuel P1 P2 h1 h2 args pre x :
  let s0 := new_EventEmitter (with_wildcards true settings) in
  plain_name (cfg s0) P1 = true → plain_name (cfg s0) P2 = true →
  split P1 (delimiter (cfg s0)) = pre ++ [x] →
  split P2 (delimiter (cfg s0)) = pre ++ ["*"] →
  Forall literal pre → literal x →
  is_internal_event P1 = false → is_internal_event P2 = false →
  is_sync_user h1 = true → is_sync_user h2 = true → h1 ≠ h2 →
  let s12 := snd (on fuel P2 h2 no_options (snd (on fuel P1 h1 no_options s0))) in
  let s21 := snd (on fuel P1 h1 no_options (snd (on fuel P2 h2 no_options s0))) in
  findWildcardHandlers P1 s12 = [h1; h2]
  ∧ findWildcardHandlers P1 s21 = [h1; h2]
  ∧ calls (snd (emit 1 P1 args s12)) = map (λ h, (h, args)) (invoked_prefix [h1; h2])
  ∧ calls (snd (emit 1 P1 args s21)) = map (λ h, (h, args)) (invoked_prefix [h1; h2]).
Proof.
  cbv zeta. intros _ _ HP1 HP2 Hpre Hx Hi1 Hi2 Hh1 Hh2 Hne.
  set (s0 := new_EventEmitter (with_wildcards true settings)) in *.
  assert (Hfound : ∀ s, cfg s = cfg s0 → globalHandlers s = [] →
            globalInternalHandlers s = [] → calls s = [] →
            supportsWildcards (cfg s) = true →
            wildcardTree s
            = below pre (set_child (set_child empty_node x (add_listener h1 empty_node))
                           "*" (add_listener h2 empty_node)) →
            findWildcardHandlers P1 s = [h1; h2]
            ∧ calls (snd (emit 1 P1 args s)) = map (λ h, (h, args)) (invoked_prefix [h1; h2])).
  { intros s Hc Hg Hgi Hcalls Hw Ht.
    assert (Hf : findWildcardHandlers P1 s = [h1; h2]).
    { unfold findWildcardHandlers, findWildcardHandlers_parts.
      rewrite Hc, HP1, Ht, traverse_below_literal by done.
      rewrite traverse_exact_and_star by (done || by apply sync_user_truthy).
      unfold dedup. cbn [fold_left]. unfold set_add at 2.
      rewrite bool_decide_eq_false_2 by apply not_elem_of_nil. cbn [app].
      unfold set_add. rewrite bool_decide_eq_false_2; [done|].
      intros Hin%list_elem_of_singleton. by apply Hne. }
    split; [done|].
    rewrite emit_found_sync_users; [|done..|rewrite Hf; by repeat constructor].
    cbn [snd]. by rewrite Hf, calls_log, Hcalls. }
  destruct (exact_and_star_tree
              (includes "*" (pre ++ [x]) || includes "**" (pre ++ [x]))
              (includes "*" (pre ++ ["*"]) || includes "**" (pre ++ ["*"]))
              pre x h1 h2 Hpre Hx) as [H12 H21].
  assert (Ha1 := sync_user_not_async h1 Hh1). assert (Ha2 := sync_user_not_async h2 Hh2).
  rewrite (on_wildcard fuel P1 h1 s0), (on_wildcard fuel P2 h2 s0) by done.
  cbn [snd]. rewrite !on_wildcard by done. cbn [snd cfg set_wildcardTree].
  rewrite HP1, HP2.
  split_and!; apply Hfound; try done; cbn [wildcardTree set_wildcardTree];
    change (wildcardTree s0) with empty_node; by rewrite ?H12, ?H21.
Qed.

(** ** Instances *)

Lemma X3_witness :
  warnings (on_each 1 "e" [handler1; handler2; handler1]
              (snd (setMaxHandlers 2 (new_EventEmitter default_settings))))
  = [Warning "e" 3 false].
Proof.
  apply (proj1 (X3_leak_warnings_of_the_flat_registry default_settings 2 1 "e"
                  [handler1; handler2; handler1] eq_refl eq_refl eq_refl
                  ltac:(repeat constructor))).
Defined.

Lemma X5_witness :
  let s := run_ops 1 [On "newListener" handler2 no_options]
             (new_EventEmitter notifying_settings) in
  calls (snd (on 1 "e" handler1 no_options s)) = [(handler2, [VStr "e"; handler1])].
Proof.
  cbv zeta.
  apply (proj1 (X5_on_tells_the_newListener_listeners 0 "e" handler1 no_options
                  (run_ops 1 [On "newListener" handler2 no_options]
                     (new_EventEmitter notifying_settings))
                  (reachable_run 1 [On "newListener" handler2 no_options] _
                     (reachable_new notifying_settings) eq_refl) eq_refl
                  eq_refl ltac:(vm_compute; repeat constructor))).
Defined.

Lemma X6_witness :
  let s := run_ops 1 [On "e" handler1 no_options] (new_EventEmitter default_settings) in
  off_ 1 "e" handler2 s = (Ok tt, s).
Proof.
  cbv zeta. apply X6_off_of_a_handler_that_is_not_there; [reflexivity | reflexivity |].
  vm_compute. repeat constructor; [|discriminate].
  intros [Heq|Heq]; discriminate Heq.
Defined.

Lemma X7_witness :
  let s := run_ops 1 [On "removeListener" handler2 no_options; On "e" handler1 no_options]
             (new_EventEmitter notifying_settings) in
  calls (snd (off_ 1 "e" handler1 s)) = [(handler2, [VStr "e"; handler1])]
  ∧ handlers_of (snd (off_ 1 "e" handler1 s)) "e" = [].
Proof.
  cbv zeta.
  destruct (X7_off_tells_the_removeListener_listeners 0 "e" handler1
              (run_ops 1 [On "removeListener" handler2 no_options;
                          On "e" handler1 no_options]
                 (new_EventEmitter notifying_settings)) [] [])
    as (_ & Hcalls & Hhandlers & _).
  - reflexivity.
  - apply registry_ok_run, registry_ok_new.
  - vm_compute. repeat constructor.
  - vm_compute. reflexivity.
  - constructor.
  - split; [exact Hcalls | exact Hhandlers].
Defined.

Lemma X8_witness :
  let s := run_ops 1 [On "e" handler2 no_options] (new_EventEmitter default_settings) in
  ∃ s1, on 1 "e" handler1 return_object s = (Ok (Reference "e" handler1), s1)
        ∧ handlers_of s1 "e" = handlers_of s "e" ++ [handler1]
        ∧ ∀ E', handlers_of (snd (remove 1 (Reference "e" handler1) s1)) E'
                = handlers_of s E'.
Proof.
  cbv zeta. apply X8_the_reference_removes_the_handler.
  - apply reachable_run; [apply reachable_new|reflexivity].
  - reflexivity.
  - reflexivity.
  - reflexivity.
  - reflexivity.
  - vm_compute. reflexivity.
  - vm_compute. constructor.
  - vm_compute. repeat constructor; [|discriminate].
    intros [Heq|Heq]; discriminate Heq.
Defined.


Lemma X10_witness :
  let s := on_each 1 "e" [handler1; thrower1; handler2] (new_EventEmitter default_settings) in
  emitAsync 1 "e" [VNum 7] s
  = (Ok (Rejected (Thrown (VError "boom"))),
     log [(handler1, [VNum 7]); (thrower1, [VNum 7])] s).
Proof.
  cbv zeta.
  apply (proj1 (X10_emitAsync_runs_the_handlers 0 "e" [VNum 7]
                  (on_each 1 "e" [handler1; thrower1; handler2]
                     (new_EventEmitter default_settings))
                  eq_refl eq_refl ltac:(vm_compute; discriminate)
                  ltac:(vm_compute; repeat constructor))).
Defined.

Lemma X11_witness :
  let s := snd (on 1 "e" async1 no_options (new_EventEmitter default_settings)) in
  emit 1 "e" [VNum 7] s = (Ok true, queued async1 [VNum 7] s).
Proof.
  cbv zeta.
  apply (proj1 (X11_a_wrapped_handler_is_deferred default_settings 1 "e" async1 no_options
                  [VNum 7] eq_refl eq_refl eq_refl eq_refl eq_refl eq_refl)).
Defined.

Lemma X12_witness :
  let options := {| runAsync := None; opt_useNextTick := Some true;
                    opt_promisify := None; returnObject := None |} in
  let s := snd (on 1 "e" async1 options (new_EventEmitter default_settings)) in
  emit 1 "e" [] s
  = (Throw (TypeError "Promise.prototype.then called on incompatible receiver"), s).
Proof.
  cbv zeta.
  apply (proj1 (X12_promisify_with_useNextTick_fails default_settings 1 "e" async1
                  {| runAsync := None; opt_useNextTick := Some true;
                     opt_promisify := None; returnObject := None |}
                  [] eq_refl eq_refl eq_refl eq_refl eq_refl)).
Defined.

Lemma X13_witness :
  let s := run_ops 1 [On "e" handler1 no_options; Off "e" handler1]
             (new_EventEmitter default_settings) in
  fst (emit 1 "e" [] s) = Ok false.
Proof.
  cbv zeta.
  apply (proj1 (X13_emit_returns_whether_there_are_handlers default_settings 1
                  [On "e" handler1 no_options; Off "e" handler1] 0 "e" []
                  eq_refl eq_refl ltac:(vm_compute; constructor) ltac:(vm_compute; reflexivity)
                  ltac:(left; discriminate))).
Defined.

Lemma X14_witness :
  let s := snd (on 1 "a.*.c" handler1 no_options (new_EventEmitter wildcard_settings)) in
  findWildcardHandlers "a.b.c" s = [handler1]
  ∧ findWildcardHandlers "a.b.c.d" s = [].
Proof.
  cbv zeta.
  assert (Hdd : "**" ∉ split "a.*.c" ".").
  { vm_compute. intros Hin.
    repeat (apply elem_of_cons in Hin as [Hin|Hin]; [discriminate Hin|]).
    by apply elem_of_nil in Hin. }
  split.
  - apply (proj1 (X14_a_star_stands_for_one_segment default_settings 1 "a.*.c" handler1
                    "a.b.c" [] eq_refl eq_refl eq_refl eq_refl
                    ltac:(vm_compute; discriminate) Hdd)).
  - apply (proj1 (X14_a_star_stands_for_one_segment default_settings 1 "a.*.c" handler1
                    "a.b.c.d" [] eq_refl eq_refl eq_refl eq_refl
                    ltac:(vm_compute; discriminate) Hdd)).
Defined.

Lemma X15_witness :
  let s := snd (on 1 "ns.**" handler1 no_options (new_EventEmitter wildcard_settings)) in
  findWildcardHandlers "ns.a.b.c" s = [handler1]
  ∧ findWildcardHandlers "ns" s = [handler1]
  ∧ findWildcardHandlers "other.a" s = [].
Proof.
  cbv zeta.
  assert (Hdd : "**" ∉ ["ns"]).
  { intros Hin. apply elem_of_cons in Hin as [Hin|Hin]; [discriminate Hin|].
    by apply elem_of_nil in Hin. }
  split; [|split].
  - apply (proj1 (X15_a_last_double_star_stands_for_the_rest default_settings 1 "ns.**"
                    handler1 "ns.a.b.c" [] ["ns"] eq_refl eq_refl eq_refl eq_refl
                    ltac:(vm_compute; reflexivity) Hdd)).
  - apply (proj1 (X15_a_last_double_star_stands_for_the_rest default_settings 1 "ns.**"
                    handler1 "ns" [] ["ns"] eq_refl eq_refl eq_refl eq_refl
                    ltac:(vm_compute; reflexivity) Hdd)).
  - apply (proj1 (X15_a_last_double_star_stands_for_the_rest default_settings 1 "ns.**"
                    handler1 "other.a" [] ["ns"] eq_refl eq_refl eq_refl eq_refl
                    ltac:(vm_compute; reflexivity) Hdd)).
Defined.

Lemma X16_witness :
  let s := snd (on 1 "a.**.b" handler1 no_options (new_EventEmitter wildcard_settings)) in
  calls (snd (emit 1 "a" [] s)) = [(handler1, [])].
Proof.
  cbv zeta.
  apply (proj2 (X16_the_segments_before_a_double_star_match_alone default_settings 1 "a.**.b"
                  handler1 "a" [] ["a"] ["b"] eq_refl eq_refl eq_refl eq_refl
                  ltac:(vm_compute; reflexivity)
                  ltac:(intros Hin; apply elem_of_cons in Hin as [Hin|Hin];
                        [discriminate Hin|by apply elem_of_nil in Hin])
                  eq_refl)).
Defined.


Lemma X19_witness :
  let s := snd (once 2 "a.b" handler1 no_options (new_EventEmitter wildcard_settings)) in
  VFun (Limited 0 "a.b" handler1)
    ∈ findWildcardHandlers "a.b"
        (run_ops 2 [Emit "a.b" []; Off "a.b" handler1; Emit "a.b" []] s).
Proof.
  cbv zeta. apply X19_with_wildcards_nothing_is_unregistered.
  - apply (reachable_step 2 _ (Once "a.b" handler1 no_options)
               (reachable_new wildcard_settings) eq_refl).
  - reflexivity.
  - reflexivity.
  - vm_compute. apply list_elem_of_here.
Defined.

Lemma X20_witness :
  let s := once_each 0 "e" [handler1; handler2; handler3] (new_EventEmitter default_settings) in
  calls (snd (emit 2 "e" [] s)) = [(handler1, []); (handler3, [])]
  ∧ map wrapped (handlers_of (snd (emit 2 "e" [] s)) "e") = [handler2].
Proof.
  cbv zeta.
  destruct (X20_once_handlers_are_run_every_other_one default_settings 0 0 "e"
              [handler1; handler2; handler3] [])
    as (_ & _ & Hcalls & Hleft); [reflexivity | reflexivity | reflexivity
                                 | repeat constructor | reflexivity | cbn; lia |].
  split; [exact Hcalls | exact Hleft].
Defined.

Lemma X18_witness :
  let s0 := new_EventEmitter wildcard_settings in
  let s := snd (on 1 "a.b" handler1 no_options (snd (on 1 "a.*" handler2 no_options s0))) in
  calls (snd (emit 1 "a.b" [] s)) = [(handler1, []); (handler2, [])].
Proof.
  cbv zeta.
  destruct (X18_an_exact_segment_goes_before_a_star default_settings 1 "a.b" "a.*"
              handler1 handler2 [] ["a"] "b")
    as (_ & _ & _ & Hcalls);
    [reflexivity | reflexivity | vm_compute; reflexivity | vm_compute; reflexivity
    | repeat constructor; discriminate | split; discriminate
    | reflexivity | reflexivity | reflexivity | reflexivity | discriminate |].
  exact Hcalls.
Defined.


(** * The claims about the order of the calls, the counted handlers, the
    patterns and the flat registry *)

(** ** Listeners that return *)

Lemma when_emitInternal_told fuel (b : bool) event args s :
  let ls := if b then default [] (internalHandlers s !! event) else [] in
  Forall (λ l, is_sync_user l = true) ls →
  first_throw ls = None →
  when b (emitInternal (call (S fuel)) event args) s
  = (Ok tt, log (map (λ l, (l, args)) ls) s).
Proof.
  cbv zeta. intros Hls Hnt. destruct b; cbn [when].
  - unfold emitInternal. rewrite bind_get.
    destruct (internalHandlers s !! event) as [ls|].
    + change (default [] (Some ls)) with ls in *.
      rewrite forEach_sync_users by done. rewrite Hnt. by rewrite invoked_prefix_all.
    + by rewrite log_nil.
  - by rewrite log_nil.
Qed.

Lemma newListener_listeners_eq E s :
  is_internal_event E = false →
  newListener_listeners E s
  = if notifyNewListener (cfg s) then default [] (internalHandlers s !! "newListener") else [].
Proof. intros HE. unfold newListener_listeners. by rewrite HE, andb_true_r. Qed.



(** ** The order of the calls *)




(** ** Handlers that are counted *)




Lemma on_flat_absent_told fuel E h s :
  is_async_function h = Some false →
  is_internal_event E = false →
  supportsWildcards (cfg s) = false →
  Forall (λ l, is_sync_user l = true) (newListener_listeners E s) →
  first_throw (newListener_listeners E s) = None →
  eventHandlers s !! E = None →
  on (S fuel) E h no_options s
  = (Ok This,
     set_eventHandlers <[E := Single h]>
       (log (map (λ l, (l, [VStr E; h])) (newListener_listeners E s)) s)).
Proof.
  intros Hh HE Hw Hls Hnt He. rewrite newListener_listeners_eq in * by done.
  unfold on, prepareHandler. cbn [no_options runAsync opt_useNextTick opt_promisify returnObject].
  rewrite Hh, HE. change (default false None) with false. msimpl.
  mrun when_emitInternal_told; [|done|done]. rewrite Hw. msimpl. rewrite He. msimpl. done.
Qed.



(** ** Handlers that are counted, after others *)
























(** ** The flat registry *)




(** ** The patterns *)









